(** * gsHTensorBasis: global numbering, knot differences, constructors

    A shallow embedding of the hierarchical tensor basis of G+Smo
    (gsHTensorBasis.h) and the properties of its level-ordered global
    numbering, of the knot-vector difference used by the transfer
    matrices, of the constructors' input checks and of box insertion.

    Conventions.
    - [unsigned] and [int] are 32-bit; both are carried as [Z], and the
      one place where the header subtracts two [unsigned] values writes
      the wrap-around out ([usub]).
    - [std::vector::operator[]] does no range check.  An access outside
      the vector is undefined behaviour; it is modelled by [None]
      ([vec_at]), so that a function that returns [Some v] has read only
      inside its vectors.
    - [GISMO_ASSERT (cond, msg)] aborts with [msg] when [cond] is false;
      it is modelled by the [Aborted] outcome of [outcome]. *)

From Equations Require Import Equations.
From Stdlib Require Import String ZArith List Bool Arith Lia Sorted.
From Stdlib Require Import Ascii Permutation.
Import ListNotations.

Open Scope Z_scope.

(** ** Machine integers and vectors *)

Definition UNSIGNED_MOD : Z := 2 ^ 32.

(** [a - b] and [a + b] on [unsigned]. *)
Definition usub (a b : Z) : Z := (a - b) mod UNSIGNED_MOD.
Definition uadd (a b : Z) : Z := (a + b) mod UNSIGNED_MOD.

(** [v[i]] for an index that the program computed as a signed or
    unsigned integer. *)
Definition vec_at {A : Type} (v : list A) (i : Z) : option A :=
  if i <? 0 then None else nth_error v (Z.to_nat i).

(** What a call does: it returns, it stops in a failed [GISMO_ASSERT], or
    it has run into undefined behaviour (a read outside a vector). *)
Inductive outcome (A : Type) : Type :=
| Returned (a : A)
| Aborted (msg : string)
| Undefined.

Arguments Returned {A} a.
Arguments Aborted {A} msg.
Arguments Undefined {A}.

(** ** The members of gsHTensorBasis

    [m_bases[k]] is the tensor-product basis of level [k], [m_tree] the
    tree of the index space.  Their classes, gsTensorBSplineBasis and
    gsHDomain, are outside the header: [TB] and [HD] stand for them.
    [CMatrix] is [gsSortedVector<unsigned>]; [m_xmatrix[k]] lists the
    tensor indices taken from level [k], and [m_xmatrix_offset[k]] is the
    global index at which level [k] starts. *)

Abbreviation CMatrix := (list Z) (only parsing).

Record gsHTensorBasis (TB HD : Type) : Type := {
  m_bases : list TB;
  m_xmatrix : list CMatrix;
  m_tree : HD;
  m_xmatrix_offset : list Z
}.

Arguments m_bases {TB HD} _.
Arguments m_xmatrix {TB HD} _.
Arguments m_tree {TB HD} _.
Arguments m_xmatrix_offset {TB HD} _.

(** ** std::upper_bound

    The loop of the standard library's upper_bound on a random-access
    range: [first] is kept as an index into [v], [len] is the length of
    the part still to search. *)

Equations? upper_bound_loop (v : list Z) (val : Z) (first len : nat) : nat
  by wf len lt :=
  upper_bound_loop v val first 0 := first;
  upper_bound_loop v val first (S n) :=
    if val <? nth (first + Nat.div2 (S n)) v 0
    then upper_bound_loop v val first (Nat.div2 (S n))
    else upper_bound_loop v val (S (first + Nat.div2 (S n)))
                          (S n - Nat.div2 (S n) - 1).
Proof.
  - change (Nat.div2 (S n) < S n)%nat. apply Nat.lt_div2. lia.
  - change (S n - Nat.div2 (S n) - 1 < S n)%nat.
    generalize (Nat.div2 (S n)). intros h. lia.
Qed.

(** [std::upper_bound(v.begin(), v.end(), val) - v.begin()]. *)
Definition upper_bound (v : list Z) (val : Z) : nat :=
  upper_bound_loop v val 0 (length v).

Section Queries.

Context {TB HD : Type}.

(** [levelOf(i)]: an [int]. *)
Definition levelOf (b : gsHTensorBasis TB HD) (i : Z) : Z :=
  Z.of_nat (upper_bound (m_xmatrix_offset b) i) - 1.

(** [flatTensorIndexOf(i)]. *)
Definition flatTensorIndexOf (b : gsHTensorBasis TB HD) (i : Z) : option Z :=
  let level := levelOf b i in
  match vec_at (m_xmatrix_offset b) level with
  | None => None
  | Some offset =>
      match vec_at (m_xmatrix b) level with
      | None => None
      | Some cm => vec_at cm (usub i offset)
      end
  end.

(** [flatTensorIndexOf(i, level)]. *)
Definition flatTensorIndexOf_level (b : gsHTensorBasis TB HD) (i level : Z)
  : option Z :=
  match vec_at (m_xmatrix_offset b) level with
  | None => None
  | Some offset =>
      match vec_at (m_xmatrix b) level with
      | None => None
      | Some cm => vec_at cm (usub i offset)
      end
  end.

(** Modelled from the spec: [size()] is declared in the header and defined
    in gsHTensorBasis.hpp.  The spec gives it as the last entry of the
    offset table, "total selected functions = offsets[maxLevel+1]". *)
Definition size (b : gsHTensorBasis TB HD) : Z := last (m_xmatrix_offset b) 0.

(** The prefix sums of the sizes of the characteristic matrices:
    one entry per level and a final entry with the total. *)
Fixpoint prefix_sums (acc : Z) (sizes : list Z) : list Z :=
  match sizes with
  | [] => [acc]
  | n :: rest => acc :: prefix_sums (acc + n) rest
  end.

Definition cmatrix_sizes (b : gsHTensorBasis TB HD) : list Z :=
  map (fun cm => Z.of_nat (length cm)) (m_xmatrix b).

(** The invariant of the offset table, and no overflow of [unsigned]. *)
Definition offsets_ok (b : gsHTensorBasis TB HD) : Prop :=
  m_xmatrix_offset b = prefix_sums 0 (cmatrix_sizes b) /\
  size b < UNSIGNED_MOD.

Definition numLevels (b : gsHTensorBasis TB HD) : Z :=
  Z.of_nat (length (m_xmatrix b)).

(** [offsets[l]], read inside the table. *)
Definition offset_at (b : gsHTensorBasis TB HD) (l : Z) : Z :=
  nth (Z.to_nat l) (m_xmatrix_offset b) 0.

(** The size of the characteristic matrix of level [l]. *)
Definition cmatrix_size (b : gsHTensorBasis TB HD) (l : Z) : Z :=
  Z.of_nat (length (nth (Z.to_nat l) (m_xmatrix b) [])).

(** A table whose entries never decrease. *)
Definition nondecreasing (v : list Z) : Prop :=
  forall i j : nat, (i <= j < length v)%nat -> nth i v 0 <= nth j v 0.

End Queries.

(** A basis with three levels, the middle one empty: five functions,
    global indices 0..2 on level 0 and 3..4 on level 2. *)
Definition numbering_example : gsHTensorBasis unit unit :=
  {| m_bases := [tt; tt; tt];
     m_xmatrix := [[0; 1; 2]; []; [4; 7]];
     m_tree := tt;
     m_xmatrix_offset := [0; 3; 3; 5] |}.

Section QueryCalls.

Context {TB HD : Type}.

(** The two queries as calls.  Neither [levelOf] nor [flatTensorIndexOf]
    contains a [GISMO_ASSERT]: [levelOf] always returns, and
    [flatTensorIndexOf] returns unless one of its three unchecked reads
    leaves its vector. *)
Definition call_levelOf (b : gsHTensorBasis TB HD) (i : Z) : outcome Z :=
  Returned (levelOf b i).

Definition call_flatTensorIndexOf (b : gsHTensorBasis TB HD) (i : Z)
  : outcome Z :=
  match flatTensorIndexOf b i with
  | Some t => Returned t
  | None => Undefined
  end.

End QueryCalls.

(** ** Compact knot vectors and their difference *)

Section KnotVectors.

(** The knot type [T] of the class template.  The function below only
    compares knots with [==]. *)
Variable T : Type.
Variable T_eq_dec : forall x y : T, {x = y} + {x <> y}.

(** Modelled from the spec: gsCompactKnotVector is the external 1-D knot
    vector ("knot queries"), a class of gsNurbs.  The header uses two of
    its queries: [uValue(i)], the [i]-th of the distinct knot
    values, and [u_multiplicityIndex(i)], the multiplicity of that knot.
    A compact knot vector is kept as the list of its distinct knots, each
    with its multiplicity; a query beyond the last distinct knot is a read
    outside the vector. *)
Definition gsCompactKnotVector := list (T * nat).

Definition uValue (kv : gsCompactKnotVector) (i : nat) : option T :=
  option_map fst (nth_error kv i).

Definition u_multiplicityIndex (kv : gsCompactKnotVector) (i : nat)
  : option nat :=
  option_map snd (nth_error kv i).

(** The loop [while (f_index <= f_high)] of _differenceBetweenKnotVectors.
    [f_index] grows by one in every pass, so [todo], the number of passes
    left, is [f_high + 1 - f_index].  [knots] is the output vector; every
    [push_back] appends to it. *)
Fixpoint difference_loop (ckv fkv : gsCompactKnotVector) (todo : nat)
         (c_index f_index : nat) (knots : list T) : option (list T) :=
  match todo with
  | O => Some knots
  | S todo' =>
      match uValue fkv f_index, uValue ckv c_index,
            u_multiplicityIndex fkv f_index with
      | Some f_knot, Some c_knot, Some f_knot_mltpl =>
          if T_eq_dec f_knot c_knot then
            match u_multiplicityIndex ckv c_index with
            | Some c_knot_mltpl =>
                let knots' :=
                  if (c_knot_mltpl <? f_knot_mltpl)%nat
                  then knots ++ repeat f_knot (f_knot_mltpl - c_knot_mltpl)
                  else knots in
                difference_loop ckv fkv todo' (S c_index) (S f_index) knots'
            | None => None
            end
          else
            difference_loop ckv fkv todo' c_index (S f_index)
                            (knots ++ repeat f_knot f_knot_mltpl)
      | _, _, _ => None
      end
  end.

(** [_differenceBetweenKnotVectors(ckv, c_low, c_high, fkv, f_low, f_high,
    knots)]; the result is the new content of [knots].  The body never
    reads [c_high]. *)
Definition _differenceBetweenKnotVectors
           (ckv : gsCompactKnotVector) (c_low c_high : nat)
           (fkv : gsCompactKnotVector) (f_low f_high : nat)
           (knots : list T) : option (list T) :=
  difference_loop ckv fkv (S f_high - f_low) c_low f_low knots.

(** The distinct knots with indices in [[low, high]]. *)
Definition knot_range (kv : gsCompactKnotVector) (low high : nat)
  : gsCompactKnotVector :=
  firstn (S high - low) (skipn low kv).

(** The multiplicity of the value [x] in a knot vector, [0] when [x] is
    not one of its knots. *)
Definition multiplicity_in (kv : gsCompactKnotVector) (x : T) : nat :=
  match find (fun e => if T_eq_dec (fst e) x then true else false) kv with
  | Some e => snd e
  | None => O
  end.

(** Every knot of [fs], as often as its multiplicity exceeds the one it
    has in [cs]. *)
Definition excess_knots (fs cs : gsCompactKnotVector) : list T :=
  flat_map (fun e => repeat (fst e) (snd e - multiplicity_in cs (fst e))) fs.

(** The coarse knots of the inspected range are knots of the fine
    vector in its inspected range. *)
Definition nested_in_range
           (ckv : gsCompactKnotVector) (c_low c_high : nat)
           (fkv : gsCompactKnotVector) (f_low f_high : nat) : Prop :=
  forall k x, (c_low <= k <= c_high)%nat -> uValue ckv k = Some x ->
              exists j, (f_low <= j <= f_high)%nat /\ uValue fkv j = Some x.

(** Both index ranges delimit the same stretch of the parameter line. *)
Definition same_range
           (ckv : gsCompactKnotVector) (c_low c_high : nat)
           (fkv : gsCompactKnotVector) (f_low f_high : nat) : Prop :=
  (c_low <= c_high < length ckv)%nat /\
  (f_low <= f_high < length fkv)%nat /\
  uValue ckv c_low = uValue fkv f_low /\
  uValue ckv c_high = uValue fkv f_high.

(** The order of the knot values: the distinct knots of a compact knot
    vector are stored in increasing order. *)
Variable Tlt : T -> T -> Prop.

Definition knot_le (x y : T) : Prop := x = y \/ Tlt x y.

Definition increasing_knots (kv : gsCompactKnotVector) : Prop :=
  StronglySorted Tlt (map fst kv).

End KnotVectors.

Arguments difference_loop {T} T_eq_dec ckv fkv todo c_index f_index knots.
Arguments _differenceBetweenKnotVectors {T} T_eq_dec
  ckv c_low c_high fkv f_low f_high knots.
Arguments multiplicity_in {T} T_eq_dec kv x.
Arguments excess_knots {T} T_eq_dec fs cs.
Arguments knot_le {T} Tlt x y.
Arguments increasing_knots {T} Tlt kv.
Arguments uValue {T} kv i.
Arguments u_multiplicityIndex {T} kv i.
Arguments knot_range {T} kv low high.
Arguments nested_in_range {T} ckv c_low c_high fkv f_low f_high.
Arguments same_range {T} ckv c_low c_high fkv f_low f_high.

(** Four simple knots 0, 1, 2, 3, used as coarse and as fine vector, and
    the first two of them. *)
Definition knots_0123 : gsCompactKnotVector Z :=
  [(0, 1%nat); (1, 1%nat); (2, 1%nat); (3, 1%nat)].
Definition knots_01 : gsCompactKnotVector Z :=
  [(0, 1%nat); (1, 1%nat)].

(** A coarse vector 0, 1, 2 and its refinement with the knot 1 doubled
    and the midpoints (scaled by two) added. *)
Definition coarse_024 : gsCompactKnotVector Z :=
  [(0, 3%nat); (2, 1%nat); (4, 3%nat)].
Definition fine_01234 : gsCompactKnotVector Z :=
  [(0, 3%nat); (1, 1%nat); (2, 2%nat); (3, 1%nat); (4, 3%nat)].

(** ** The outcome of a sequence of calls *)

Definition bind {A B : Type} (c : outcome A) (k : A -> outcome B) : outcome B :=
  match c with
  | Returned a => k a
  | Aborted msg => Aborted msg
  | Undefined => Undefined
  end.

Notation "x <- c ;; k" := (bind c (fun x => k))
  (at level 61, c at next level, right associativity).

(** [GISMO_ASSERT(cond, msg)]. *)
Definition GISMO_ASSERT (cond : bool) (msg : string) : outcome unit :=
  if cond then Returned tt else Aborted msg.

Notation "'ASSERT' cond 'ELSE' msg ;; k" :=
  (bind (GISMO_ASSERT cond msg) (fun _ => k))
  (at level 61, cond at next level, msg at next level, right associativity).

(** [for (i = 0; i < n; i++) body(i)], threading the object through. *)
Fixpoint for_loop {S : Type} (n : nat) (body : nat -> S -> outcome S) (i : nat)
         (s : S) : outcome S :=
  match n with
  | O => Returned s
  | Datatypes.S n' => s' <- body i s ;; for_loop n' body (Datatypes.S i) s'
  end.

(** The passes [pass i], for the indices [todo] in their order, each on
    the object the one before has left; the first pass that does not
    return ends the sequence. *)
Fixpoint passes_in_order {S : Type} (pass : nat -> S -> outcome S)
         (todo : list nat) (s : S) : outcome S :=
  match todo with
  | [] => Returned s
  | i :: rest => s' <- pass i s ;; passes_in_order pass rest s'
  end.

(** ** Boxes of the index space

    A box has one half-open interval of knot-span indices per direction. *)

Definition box := list (Z * Z).

(** The box with the corners [low] and [high]. *)
Definition box_of_corners (low high : list Z) : box := combine low high.

Fixpoint overlaps (e b : box) : bool :=
  match e, b with
  | (el, eh) :: e', (bl, bh) :: b' =>
      (Z.max el bl <? Z.min eh bh) && overlaps e' b'
  | _, _ => true
  end.

(** The two parts of [e] on either side of the position [pos] in direction
    [axis]. *)
Fixpoint below (e : box) (axis : nat) (pos : Z) : box :=
  match e with
  | [] => []
  | (l, h) :: e' =>
      match axis with
      | O => (l, pos) :: e'
      | S a => (l, h) :: below e' a pos
      end
  end.

Fixpoint above (e : box) (axis : nat) (pos : Z) : box :=
  match e with
  | [] => []
  | (l, h) :: e' =>
      match axis with
      | O => (pos, h) :: e'
      | S a => (l, h) :: above e' a pos
      end
  end.

(** ** The domain tree

    Modelled from the spec: gsHDomain is a class of its own, outside the
    header.  The spec has it as "a recursive spatial partition" of the
    index domain "into axis-aligned boxes, each tagged with the level", "a
    nested recursive
    structure with pointer-based children", where "each node's extent is
    expressed in the finest-resolution index coordinates": a node is a leaf
    with its level, or splits its extent at a position in one direction. *)
Inductive node : Type :=
| Leaf (level : nat)
| Split (axis : nat) (pos : Z) (lower upper : node).

Record gsHDomain : Type := {
  m_extent : box;          (* the index domain, at the index level *)
  m_root : node;
  m_indexLevel : nat;      (* the level of the finest-resolution indices *)
  m_maxInsLevel : nat      (* "highest level any box was ever inserted at" *)
}.

(** The leaves under a node with the extent [e], each with its own extent. *)
Fixpoint leaves (e : box) (n : node) : list (box * nat) :=
  match n with
  | Leaf level => [(e, level)]
  | Split axis pos lower upper =>
      leaves (below e axis pos) lower ++ leaves (above e axis pos) upper
  end.

(** Modelled from the spec: how a leaf of the extent [e] is split around
    the box [b], which it overlaps: direction by direction, the parts of
    the leaf left and right of the box keep the level [old] and what
    remains, the part inside the box, gets [lvl] ("recursively
    refines/splits any coarser tree node overlapping the box so every leaf
    has a single well-defined level"). *)
Fixpoint carve (axis : nat) (e b : box) (lvl old : nat) : node :=
  match e, b with
  | (el, eh) :: e', (bl, bh) :: b' =>
      let inner := carve (S axis) e' b' lvl old in
      let upper := if bh <? eh then Split axis bh inner (Leaf old) else inner in
      if el <? bl then Split axis bl (Leaf old) upper else upper
  | _, _ => Leaf lvl
  end.

(** Modelled from the spec: insertion below a node.  "Insertion of a box at
    level L subdivides any coarser-tagged region it overlaps, but never
    decreases the recorded level of a region finer than L." *)
Fixpoint insert_node (e b : box) (lvl : nat) (n : node) : node :=
  match n with
  | Split axis pos lower upper =>
      Split axis pos (insert_node (below e axis pos) b lvl lower)
                     (insert_node (above e axis pos) b lvl upper)
  | Leaf old =>
      if (lvl <=? old)%nat then Leaf old
      else if overlaps e b then carve 0 e b lvl old
      else Leaf old
  end.

(** Modelled from the spec: index coordinates of the level [lvl] become
    coordinates of the tree "after scaling by 2^(maxLevel-level)". *)
Definition to_index_level (t : gsHDomain) (lvl : nat) (x : Z) : Z :=
  x * 2 ^ Z.of_nat (m_indexLevel t - lvl).

Definition box_at_index_level (t : gsHDomain) (lvl : nat) (b : box) : box :=
  map (fun lh => (to_index_level t lvl (fst lh), to_index_level t lvl (snd lh)))
      b.

(** Modelled from the spec: [insertBox(low, high, level)] of gsHDomain
    "marks the closed index-box [low,high) (in level [level]'s index
    coordinates) as belonging to [level]". *)
Definition insertBox (t : gsHDomain) (low high : list Z) (lvl : nat)
  : gsHDomain :=
  {| m_extent := m_extent t;
     m_root := insert_node (m_extent t)
                 (box_at_index_level t lvl (box_of_corners low high))
                 lvl (m_root t);
     m_indexLevel := m_indexLevel t;
     m_maxInsLevel := Nat.max (m_maxInsLevel t) lvl |}.

(** Modelled from the spec: [query3(low, high, level)] "returns the maximum
    level <= [level] currently assigned to any part of the box"; the box is
    given in the coordinates of [level]. *)
Definition query3 (t : gsHDomain) (low high : list Z) (lvl : nat) : nat :=
  fold_right Nat.max O
    (map snd
       (filter (fun el => overlaps (fst el)
                            (box_at_index_level t lvl (box_of_corners low high))
                          && (snd el <=? lvl)%nat)
               (leaves (m_extent t) (m_root t)))).

Definition getMaxInsLevel (t : gsHDomain) : nat := m_maxInsLevel t.

(** Every leaf of the tree that meets the box [b] (given at the index
    level) has the level [lvl]: "entirely covered by tree regions tagged
    exactly [lvl] (neither coarser nor finer)". *)
Definition covered_exactly (t : gsHDomain) (lvl : nat) (b : box) : bool :=
  forallb (fun el => negb (overlaps (fst el) b) || (snd el =? lvl)%nat)
          (leaves (m_extent t) (m_root t)).

(** ** The tensor-product bases of the levels

    Modelled from the spec: gsTensorBSplineBasis is the external "Tensor
    Basis" that "provides knot queries, ..., span lookup, ..., per-function
    tensor index, elementwise support".  The hierarchical basis uses it
    through five operations: the number of its functions, the number of
    knot spans in every direction, the element support of a function (a
    box of knot-span indices, as [elementSupport_into] gives it),
    [uniformRefine], which gives the basis of the next level, and
    [knots(j).Uniquefindspan(u)], the index of the knot span of direction
    [j] that holds the parameter [u]. *)
Class TensorBasis (TB T : Type) : Type := {
  tb_size : TB -> nat;
  numSpans : TB -> list Z;
  elementSupport : TB -> nat -> box;
  uniformRefine : TB -> TB;
  Uniquefindspan : TB -> nat -> T -> Z
}.

(** ** The constructors of gsHTensorBasis

    The header defines the constructors; the member functions they call
    are only declared in it.  These, and the two calls into the tree, are
    the variables of this section: whatever they do, the constructors do
    the following. *)

(** [gsMatrix<T>]: [coeff j i] is [boxes(j,i)]. *)
Record gsMatrix (T : Type) : Type := {
  rows : Z;
  cols : Z;
  coeff : nat -> nat -> T
}.

Arguments rows {T} _.
Arguments cols {T} _.
Arguments coeff {T} _ _ _.

(** [v.back()]; undefined on an empty vector. *)
Definition back {A : Type} (v : list A) : option A :=
  nth_error v (length v - 1).

(** An [unsigned] value passed for an [int] parameter. *)
Definition to_int (x : Z) : Z :=
  if x <? 2 ^ 31 then x else x - UNSIGNED_MOD.

Section Constructors.

Context {TB HD T : Type} `{TensorBasis TB T}.

(** The template parameter [d]. *)
Variable d : nat.

Local Abbreviation HTB := (gsHTensorBasis TB HD).

Variable initialize_class : TB -> outcome HTB.
Variable update_structure : HTB -> outcome HTB.
Variable insert_box : list Z -> list Z -> Z -> HTB -> outcome HTB.
Variable needLevel : Z -> HTB -> outcome HTB.
(** [m_tree.query3] and [m_tree.insertBox]. *)
Variable tree_query3 : HD -> list Z -> list Z -> Z -> Z.
Variable tree_insertBox : HD -> list Z -> list Z -> Z -> outcome HD.

(** [gsHTensorBasis(tbasis, nlevels)]. *)
Definition ctor_uniform (tbasis : TB) (nlevels : Z) : outcome HTB :=
  ASSERT (0 <? nlevels) ELSE "Invalid number of levels." ;;
  s <- initialize_class tbasis ;;
  update_structure s.

(** [gsHTensorBasis(tbasis, nlevels, std::vector<unsigned> boxes)]: the
    boxes come as [2d+1] numbers each, the level and the two corners. *)
Definition ctor_index_boxes (tbasis : TB) (nlevels : Z) (boxes : list Z)
  : outcome HTB :=
  ASSERT (0 <? nlevels) ELSE "Invalid number of levels." ;;
  s <- initialize_class tbasis ;;
  ASSERT (Z.of_nat (length boxes) mod (2 * Z.of_nat d + 1) =? 0)
    ELSE "The points did not define boxes properly. The basis was created without any domain structure." ;;
  s <- for_loop (length boxes / (2 * d + 1))
         (fun i s =>
            let i1 := map (fun j => nth ((2 * d + 1) * i + j + 1) boxes 0)
                          (seq 0 d) in
            let i2 := map (fun j => nth ((2 * d + 1) * i + j + d + 1) boxes 0)
                          (seq 0 d) in
            insert_box i1 i2 (to_int (nth (i * (2 * d + 1)) boxes 0)) s)
         0%nat s ;;
  update_structure s.

(** One pass of the loop of the next constructor: the box in the columns
    [2i] and [2i+1] of [boxes]. *)
Definition insert_physical_box (boxes : gsMatrix T) (i : nat) (s : HTB)
  : outcome HTB :=
  match back (m_bases s) with
  | None => Undefined
  | Some finest =>
      let k1 := map (fun j => Uniquefindspan finest j (coeff boxes j (2 * i)))
                    (seq 0 d) in
      let k2 := map (fun j => uadd (Uniquefindspan finest j
                                      (coeff boxes j (2 * i + 1))) 1)
                    (seq 0 d) in
      let level :=
        tree_query3 (m_tree s) k1 k2 (Z.of_nat (length (m_bases s)) - 1) in
      match vec_at (m_bases s) (level + 1) with
      | None => Undefined
      | Some finer =>
          let k1 := map (fun j => Uniquefindspan finer j
                                    (coeff boxes j (2 * i)))
                        (seq 0 d) in
          let k2 := map (fun j => uadd (Uniquefindspan finer j
                                          (coeff boxes j (2 * i + 1))) 1)
                        (seq 0 d) in
          s' <- insert_box k1 k2 (level + 1) s ;;
          update_structure s'
      end
  end.

(** [gsHTensorBasis(tbasis, nlevels, gsMatrix<T> boxes)]: the boxes come
    as pairs of columns, the two corners in parameter coordinates. *)
Definition ctor_physical_boxes (tbasis : TB) (nlevels : Z)
           (boxes : gsMatrix T) : outcome HTB :=
  ASSERT (rows boxes =? Z.of_nat d)
    ELSE "Points in boxes need to be of dimension d." ;;
  ASSERT (Z.rem (cols boxes) 2 =? 0)
    ELSE "Each box needs two corners but you don't provied gsHTensorBasis constructor with them." ;;
  ASSERT (0 <? nlevels) ELSE "Invalid number of levels." ;;
  s <- initialize_class tbasis ;;
  for_loop (Z.to_nat (Z.quot (cols boxes) 2))
           (insert_physical_box boxes) 0%nat s.

(** [gsHTensorBasis(tbasis, nlevels, gsMatrix<T> boxes,
    std::vector<unsigned> levels)]: the level of every box is given. *)
Definition ctor_boxes_with_levels (tbasis : TB) (nlevels : Z)
           (boxes : gsMatrix T) (levels : list Z) : outcome HTB :=
  ASSERT (rows boxes =? Z.of_nat d)
    ELSE "Points in boxes need to be of dimension d." ;;
  ASSERT (Z.rem (cols boxes) 2 =? 0)
    ELSE "Each box needs two corners but you don't provied gsHTensorBasis constructor with them." ;;
  ASSERT (Z.quot (cols boxes) 2 mod UNSIGNED_MOD <=? Z.of_nat (length levels))
    ELSE "We don't have enough levels for the boxes." ;;
  s <- initialize_class tbasis ;;
  match levels with
  | [] => Undefined       (* [*std::max_element] of an empty range *)
  | l0 :: ls =>
      s <- needLevel (to_int (fold_right Z.max l0 ls)) s ;;
      for_loop (Z.to_nat (Z.quot (cols boxes) 2))
        (fun i s =>
           match vec_at levels (Z.of_nat i) with
           | None => Undefined
           | Some lvl =>
               match vec_at (m_bases s) lvl with
               | None => Undefined
               | Some tb =>
                   let k1 := map (fun j => Uniquefindspan tb j
                                             (coeff boxes j (2 * i)))
                                 (seq 0 d) in
                   let k2 := map (fun j => uadd (Uniquefindspan tb j
                                             (coeff boxes j (2 * i + 1))) 1)
                                 (seq 0 d) in
                   tree <- tree_insertBox (m_tree s) k1 k2 (to_int lvl) ;;
                   update_structure
                     {| m_bases := m_bases s;
                        m_xmatrix := m_xmatrix s;
                        m_tree := tree;
                        m_xmatrix_offset := m_xmatrix_offset s |}
               end
           end)
        0%nat s
  end.

End Constructors.

(** ** The member functions that the header only declares *)

Section Members.

Context {TB T : Type} `{TensorBasis TB T}.

Local Abbreviation HTB := (gsHTensorBasis TB gsHDomain).

Definition with_bases (s : HTB) (bases : list TB) : HTB :=
  {| m_bases := bases;
     m_xmatrix := m_xmatrix s;
     m_tree := m_tree s;
     m_xmatrix_offset := m_xmatrix_offset s |}.

Definition with_tree (s : HTB) (tree : gsHDomain) : HTB :=
  {| m_bases := m_bases s;
     m_xmatrix := m_xmatrix s;
     m_tree := tree;
     m_xmatrix_offset := m_xmatrix_offset s |}.

(** Modelled from the spec: [createMoreLevels(numLevels)] is defined in
    gsHTensorBasis.hpp, not in the header.  The levels are "stored in an
    ordered sequence indexed by level, append-only", and "level l+1 is a
    dyadic (or otherwise nested) refinement of level l": every new level
    is the refinement of the last one.  Without a level 0 there is no
    basis to refine. *)
Fixpoint more_levels (numLevels : nat) (bases : list TB) : list TB :=
  match numLevels with
  | O => bases
  | S n =>
      match back bases with
      | Some finest => more_levels n (bases ++ [uniformRefine finest])
      | None => bases
      end
  end.

Definition createMoreLevels (numLevels : nat) (s : HTB) : HTB :=
  with_bases s (more_levels numLevels (m_bases s)).

(** Modelled from the spec: [needLevel(maxLevel)] "makes sure that there
    are [maxLevel] grids computed in the hierarchy" ("created lazily up to
    the maximum ever requested"); "requesting an already-available level
    is a no-op". *)
Definition needLevel (maxLevel : Z) (s : HTB) : HTB :=
  let extraLevels := maxLevel + 1 - Z.of_nat (length (m_bases s)) in
  if 0 <? extraLevels then createMoreLevels (Z.to_nat extraLevels) s else s.

(** The calls that create levels, and a sequence of them. *)
Inductive level_call : Type :=
| call_needLevel (maxLevel : Z)
| call_createMoreLevels (numLevels : nat).

Definition run_level_call (c : level_call) (s : HTB) : HTB :=
  match c with
  | call_needLevel maxLevel => needLevel maxLevel s
  | call_createMoreLevels numLevels => createMoreLevels numLevels s
  end.

Definition run_level_calls (cs : list level_call) (s : HTB) : HTB :=
  fold_left (fun s c => run_level_call c s) cs s.

(** [tensorLevel(i)], from the header, with the basis after the call:
    [m_bases] is [mutable]. *)
Definition tensorLevel (i : Z) (s : HTB) : option TB * HTB :=
  let s' := needLevel i s in
  (vec_at (m_bases s') i, s').

(** Modelled from the spec: [insert_box(k1, k2, lvl)], "insert a domain
    into quadtree", is declared in the header only.  The insertion
    "fails (assert) if [level] exceeds the number of instantiated tensor
    bases minus one without a prior [needLevel] call". *)
Definition insert_box (k1 k2 : list Z) (lvl : Z) (s : HTB) : outcome HTB :=
  ASSERT (0 <=? lvl) && (lvl <=? Z.of_nat (length (m_bases s)) - 1)
    ELSE "The level of the box has no tensor basis." ;;
  Returned (with_tree s (insertBox (m_tree s) k1 k2 (Z.to_nat lvl))).

(** A function of the level [lvl] is selected when its "full support
    region is entirely covered by tree regions tagged exactly [lvl]". *)
Definition selected (tree : gsHDomain) (lvl : nat) (tb : TB) (i : nat)
  : bool :=
  covered_exactly tree lvl (box_at_index_level tree lvl (elementSupport tb i)).

Definition characteristic_matrix (tree : gsHDomain) (bases : list TB)
           (lvl : nat) : list Z :=
  match nth_error bases lvl with
  | Some tb =>
      map Z.of_nat (filter (selected tree lvl tb) (seq 0 (tb_size tb)))
  | None => []
  end.

(** Modelled from the spec: [update_structure()] is declared in the
    header only.  "For each level l from 0 to maxLevel, iterate all
    tensor-basis functions of level l and select those ...; assemble the
    characteristic matrix for l as the sorted set of such indices; compute
    offsets by prefix sum of matrix sizes."  [maxLevel()] is
    [m_tree.getMaxInsLevel()] in the header. *)
Definition update_structure (s : HTB) : HTB :=
  let xmatrix :=
    map (characteristic_matrix (m_tree s) (m_bases s))
        (seq 0 (S (getMaxInsLevel (m_tree s)))) in
  {| m_bases := m_bases s;
     m_xmatrix := xmatrix;
     m_tree := m_tree s;
     m_xmatrix_offset :=
       prefix_sums 0 (map (fun cm => Z.of_nat (length cm)) xmatrix) |}.

(** Modelled from the spec: [initialize_class(tbasis)] is declared in the
    header only.  "The HTB is constructed from an initial tensor basis":
    the basis of level 0 is [tbasis], the tree is one leaf of level 0 over
    the whole index domain.  The spec does not say how many levels and
    which index level a new basis starts with: [first_levels] further
    levels and the index level [index_level] are left open. *)
Definition initialize_class (index_level first_levels : nat) (tbasis : TB)
  : HTB :=
  let tree :=
    {| m_extent := map (fun n => (0, n * 2 ^ Z.of_nat index_level))
                       (numSpans tbasis);
       m_root := Leaf 0;
       m_indexLevel := index_level;
       m_maxInsLevel := 0 |} in
  {| m_bases := more_levels first_levels [tbasis];
     m_xmatrix := [];
     m_tree := tree;
     m_xmatrix_offset := [] |}.

(** One step of [refineElements]: a box goes into the tree and the
    structure is rebuilt ("both call [update_structure()] once per
    box"). *)
Definition insert_and_update (k1 k2 : list Z) (lvl : Z) (s : HTB)
  : outcome HTB :=
  s' <- insert_box k1 k2 lvl s ;;
  Returned (update_structure s').

End Members.

(** ** A tensor basis to compute with

    Modelled from the spec: a "tensor-product basis" in one direction, the
    B-splines of degree [ub_degree] on [ub_spans] equal knot spans of
    [0,1] with an open knot vector.  The function [i] lives on the spans
    [max 0 (i - degree) .. min spans (i + 1)); refinement halves every
    span. *)
Record uniformBSpline : Type := {
  ub_spans : nat;
  ub_degree : nat
}.

#[export] Instance uniformBSpline_basis : TensorBasis uniformBSpline Z := {
  tb_size b := (ub_spans b + ub_degree b)%nat;
  numSpans b := [Z.of_nat (ub_spans b)];
  elementSupport b i :=
    [(Z.of_nat (i - ub_degree b), Z.of_nat (Nat.min (ub_spans b) (i + 1)))];
  uniformRefine b := {| ub_spans := 2 * ub_spans b; ub_degree := ub_degree b |};
  (* the parameter [u] is given in 1024ths *)
  Uniquefindspan b j u :=
    Z.min (Z.of_nat (ub_spans b) - 1) (u * Z.of_nat (ub_spans b) / 1024)
}.

(** Degree 1 on four spans, with one further level and index level 2; and
    the same basis with the box [2,4) of level 1 inserted. *)
Definition basis_4spans : gsHTensorBasis uniformBSpline gsHDomain :=
  update_structure
    (initialize_class 2 1 {| ub_spans := 4; ub_degree := 1 |}).

Definition basis_4spans_refined : gsHTensorBasis uniformBSpline gsHDomain :=
  update_structure
    (with_tree basis_4spans (insertBox (m_tree basis_4spans) [2] [4] 1)).

(** The constructors on top of the member functions as modelled, for bases
    of one direction that start with two levels at index level 2. *)
Definition example_ctor_physical_boxes :=
  ctor_physical_boxes 1
    (fun tb : uniformBSpline => Returned (initialize_class 2 1 tb))
    (fun s => Returned (update_structure s))
    insert_box
    (fun t low high lvl => Z.of_nat (query3 t low high (Z.to_nat lvl))).

Definition example_ctor_boxes_with_levels :=
  ctor_boxes_with_levels 1
    (fun tb : uniformBSpline => Returned (initialize_class 2 1 tb))
    (fun s => Returned (update_structure s))
    (fun l s => Returned (needLevel l s))
    (fun t low high lvl => Returned (insertBox t low high (Z.to_nat lvl))).

(** One box, from 1/4 to 1/2 of the parameter line (in 1024ths). *)
Definition one_box : gsMatrix Z :=
  {| rows := 1;
     cols := 2;
     coeff := fun _ i => match i with O => 256 | _ => 512 end |}.

(** The same constructor for bases that start with three levels, its pass
    for one box, and the box of [one_box] given three times. *)
Definition basis_three_levels : gsHTensorBasis uniformBSpline gsHDomain :=
  initialize_class 2 2 {| ub_spans := 4; ub_degree := 1 |}.

Definition example_ctor_three_levels :=
  ctor_physical_boxes 1
    (fun tb : uniformBSpline => Returned (initialize_class 2 2 tb))
    (fun s => Returned (update_structure s))
    insert_box
    (fun t low high lvl => Z.of_nat (query3 t low high (Z.to_nat lvl))).

Definition same_box_thrice : gsMatrix Z :=
  {| rows := 1;
     cols := 6;
     coeff := fun _ i => if Nat.even i then 256 else 512 |}.

Definition example_pass_three_levels :=
  insert_physical_box 1
    (fun s : gsHTensorBasis uniformBSpline gsHDomain =>
       Returned (update_structure s))
    insert_box
    (fun t low high lvl => Z.of_nat (query3 t low high (Z.to_nat lvl)))
    same_box_thrice.

(** The basis of three levels after the box has gone in twice, at level 1
    and at level 2. *)
Definition basis_after_two_boxes : gsHTensorBasis uniformBSpline gsHDomain :=
  {| m_bases := [{| ub_spans := 4; ub_degree := 1 |};
                 {| ub_spans := 8; ub_degree := 1 |};
                 {| ub_spans := 16; ub_degree := 1 |}];
     m_xmatrix := [[0; 4]; []; [5; 6; 7; 8]];
     m_tree := {| m_extent := [(0, 16)];
                  m_root := Split 0 4 (Leaf 0)
                              (Split 0 10 (Split 0 9 (Leaf 2) (Leaf 1))
                                     (Leaf 0));
                  m_indexLevel := 2;
                  m_maxInsLevel := 2 |};
     m_xmatrix_offset := [0; 2; 2; 6] |}.

(** * Further members of the header *)

(** ** Anchors, element supports and degrees *)

(** [v[k] = x] for a position inside [v]. *)
Fixpoint replace_at {A : Type} (k : nat) (x : A) (v : list A) : list A :=
  match v, k with
  | [], _ => []
  | _ :: v', O => x :: v'
  | y :: v', S k' => y :: replace_at k' x v'
  end.

Section Anchors.

Context {TB HD T : Type}.

(** The template parameter [d]. *)
Variable d : nat.

(** [tensorIndex(i)] of a tensor basis, the index of the function [i] in
    every direction, and [knots(r).greville(j)], the Greville abscissa of
    the function [j] of direction [r]: both of gsTensorBSplineBasis. *)
Variable tensorIndex : TB -> Z -> list Z.
Variable greville : TB -> nat -> Z -> T.

(** A column of the result matrix: [d] entries, not yet written after
    [resize]. *)
Definition anchor_column (tb : TB) (t : Z) : list (option T) :=
  map (fun r => Some (greville tb r (nth r (tensorIndex tb t) 0))) (seq 0 d).

(** The inner loop of [anchors_into] over the matrix of one level; [k] is
    the running column.  [m_bases[i]] is read for every entry, [result] is
    written in column [k]: a missing basis or a column beyond the matrix is
    undefined behaviour. *)
Fixpoint anchors_of_level (tb : option TB) (cm : list Z) (k : nat)
         (result : list (list (option T)))
  : outcome (nat * list (list (option T))) :=
  match cm with
  | [] => Returned (k, result)
  | t :: rest =>
      match tb with
      | None => Undefined
      | Some tb' =>
          if (k <? length result)%nat
          then anchors_of_level tb rest (S k)
                 (replace_at k (anchor_column tb' t) result)
          else Undefined
      end
  end.

(** The outer loop, [i] from [0] to [m_xmatrix.size()]. *)
Fixpoint anchors_of_levels (bases : list TB) (xmatrix : list (list Z))
         (i k : nat) (result : list (list (option T)))
  : outcome (list (list (option T))) :=
  match xmatrix with
  | [] => Returned result
  | cm :: rest =>
      kr <- anchors_of_level (nth_error bases i) cm k result ;;
      anchors_of_levels bases rest (S i) (fst kr) (snd kr)
  end.

(** [anchors_into(result)]: the result has [d] rows and [size()] columns,
    given here column by column. *)
Definition anchors_into (b : gsHTensorBasis TB HD)
  : outcome (list (list (option T))) :=
  anchors_of_levels (m_bases b) (m_xmatrix b) 0 0
    (repeat (repeat None d) (Z.to_nat (size b))).

(** The degree of a tensor basis in a direction, [degree(k)] of
    gsTensorBSplineBasis. *)
Variable tb_degree : TB -> nat -> Z.

(** The number of passes of [for (unsigned k=1; k!=d; ++k)]. *)
Definition passes_from_1 : nat :=
  Z.to_nat ((Z.of_nat d - 1) mod UNSIGNED_MOD).

(** [maxDegree()] and [minDegree()], on the basis of level 0. *)
Definition maxDegree (b : gsHTensorBasis TB HD) : option Z :=
  match vec_at (m_bases b) 0 with
  | None => None
  | Some tb0 =>
      Some (fold_left (fun td k => Z.max td (tb_degree tb0 k))
                      (seq 1 passes_from_1) (tb_degree tb0 0))
  end.

Definition minDegree (b : gsHTensorBasis TB HD) : option Z :=
  match vec_at (m_bases b) 0 with
  | None => None
  | Some tb0 =>
      Some (fold_left (fun td k => Z.min td (tb_degree tb0 k))
                      (seq 1 passes_from_1) (tb_degree tb0 0))
  end.

(** [degree(i)]. *)
Definition degree (b : gsHTensorBasis TB HD) (i : nat) : option Z :=
  option_map (fun tb0 => tb_degree tb0 i) (vec_at (m_bases b) 0).

End Anchors.

Section ElementSupport.

Context {TB HD T : Type} `{TensorBasis TB T}.

(** An [int] stored in an [unsigned]. *)
Definition to_unsigned (x : Z) : Z := x mod UNSIGNED_MOD.

(** [elementSupport_into(i, result)]: the element support of the function
    with the global index [i], from the basis of its level. *)
Definition elementSupport_into (b : gsHTensorBasis TB HD) (i : Z)
  : option box :=
  let lvl := to_unsigned (levelOf b i) in
  match vec_at (m_bases b) lvl, vec_at (m_xmatrix b) lvl,
        vec_at (m_xmatrix_offset b) lvl with
  | Some tb, Some cm, Some offset =>
      option_map (fun t => elementSupport tb (Z.to_nat t))
                 (vec_at cm (usub i offset))
  | _, _, _ => None
  end.

End ElementSupport.

(** The characteristic matrices are [gsSortedVector]s: strictly
    increasing. *)
Definition matrices_sorted {TB HD : Type} (b : gsHTensorBasis TB HD) : Prop :=
  Forall (StronglySorted Z.lt) (m_xmatrix b).

(** ** Boxes as a flat vector

    The format of the constructor with a [std::vector<unsigned>] and of
    [refineElements]: for every box its level, the [d] indices of the lower
    corner and the [d] indices of the upper corner. *)

Definition index_box : Type := (Z * list Z * list Z)%type.

Definition encode_box (bx : index_box) : list Z :=
  match bx with (lvl, low, high) => lvl :: low ++ high end.

Definition encode_boxes (boxes : list index_box) : list Z :=
  concat (map encode_box boxes).

(** One call of [insert_box] after the other. *)
Fixpoint insert_boxes {S : Type}
         (insert_box : list Z -> list Z -> Z -> S -> outcome S)
         (boxes : list index_box) (s : S) : outcome S :=
  match boxes with
  | [] => Returned s
  | (lvl, low, high) :: rest =>
      s' <- insert_box low high (to_int lvl) s ;;
      insert_boxes insert_box rest s'
  end.

(** ** Knot vectors with their repetitions *)

Section KnotSequences.

Variable T : Type.
Variable T_eq_dec : forall x y : T, {x = y} + {x <> y}.

(** The knots of a compact knot vector written out, every knot as often as
    its multiplicity says. *)
Definition expand_knots (kv : gsCompactKnotVector T) : list T :=
  flat_map (fun e => repeat (fst e) (snd e)) kv.

(** No knot is more often in the coarse range than in the fine range. *)
Definition multiplicities_nested
           (ckv : gsCompactKnotVector T) (c_low c_high : nat)
           (fkv : gsCompactKnotVector T) (f_low f_high : nat) : Prop :=
  forall x : T,
    (multiplicity_in T_eq_dec (knot_range ckv c_low c_high) x
     <= multiplicity_in T_eq_dec (knot_range fkv f_low f_high) x)%nat.

End KnotSequences.

Arguments expand_knots {T} kv.
Arguments multiplicities_nested {T} T_eq_dec ckv c_low c_high fkv f_low f_high.

(** * File names: gsFileData and gsFileRepo (gsFileData.h) *)

(** ** std::string

    A [std::string] is the list of its characters.  Positions and lengths
    are [size_t], 64 bits, with [npos] the largest value. *)

Definition SIZE_MOD : Z := 2 ^ 64.
Definition npos : Z := SIZE_MOD - 1.

(** The character [c] is one of [chars]. *)
Definition is_one_of (chars : list ascii) (c : ascii) : bool :=
  existsb (Ascii.eqb c) chars.

(** The scan behind [find_last_of] and [rfind] of a single character: the
    last position, from [i] on, of a character of [chars]; [found] is the
    last one seen so far. *)
Fixpoint last_position (chars : list ascii) (s : list ascii) (i : nat)
         (found : option nat) : option nat :=
  match s with
  | [] => found
  | c :: s' =>
      last_position chars s' (S i)
                    (if is_one_of chars c then Some i else found)
  end.

(** [s.find_last_of(chars)]; [s.rfind(".")] is [find_last_of] of the one
    character. *)
Definition find_last_of (s : list ascii) (chars : list ascii) : Z :=
  match last_position chars s 0 None with
  | Some p => Z.of_nat p
  | None => npos
  end.

(** [s.substr(pos, len)]: throws [std::out_of_range] for [pos > size()],
    which is [None] here; otherwise the characters from [pos] on, at most
    [len] of them. *)
Definition substr (s : list ascii) (pos len : Z) : option (list ascii) :=
  if Z.of_nat (length s) <? pos then None
  else Some (firstn (Z.to_nat len) (skipn (Z.to_nat pos) s)).

(** [::tolower] in the C locale. *)
Definition tolower (c : ascii) : ascii :=
  let n := nat_of_ascii c in
  if ((65 <=? n) && (n <=? 90))%nat then ascii_of_nat (n + 32) else c.

(** ** The static helpers of gsFileData *)

(** [getExtension(fn)]. *)
Definition getExtension (fn : list ascii) : option (list ascii) :=
  if negb (find_last_of fn ["."%char] =? npos) then
    option_map (map tolower)
               (substr fn ((find_last_of fn ["."%char] + 1) mod SIZE_MOD) npos)
  else Some [].

(** [std::equal(first1, last1, first2)]: the first range against the
    beginning of the second, which has to be at least as long. *)
Fixpoint std_equal (range1 range2 : list ascii) : option bool :=
  match range1, range2 with
  | [], _ => Some true
  | _ :: _, [] => None
  | x :: r1, y :: r2 => if Ascii.eqb x y then std_equal r1 r2 else Some false
  end.

(** [ends_with(value, ending)]. *)
Definition ends_with (value ending : list ascii) : option bool :=
  if (length value <? length ending)%nat then Some false
  else std_equal (rev ending) (rev value).

(** The characters of ["/\\"]. *)
Definition slashes : list ascii := ["/"%char; "\"%char].

(** [getBasename(fn)]. *)
Definition getBasename (fn : list ascii) : option (list ascii) :=
  if negb (find_last_of fn ["."%char] =? npos) then
    let pos1 := find_last_of fn slashes in
    let pos2 := find_last_of fn ["."%char] in
    substr fn ((pos1 + 1) mod SIZE_MOD) ((pos2 - pos1 - 1) mod SIZE_MOD)
  else Some fn.

(** [getFilename(fn)]. *)
Definition getFilename (fn : list ascii) : option (list ascii) :=
  let pos1 := find_last_of fn slashes in
  if negb (pos1 =? npos) then substr fn ((pos1 + 1) mod SIZE_MOD) npos
  else Some fn.

(** No character of [s] is one of [chars]. *)
Definition free_of (chars : list ascii) (s : list ascii) : Prop :=
  Forall (fun c => is_one_of chars c = false) s.

(** ** gsFileRepo *)

Section FileRepo.

(** The macro [GISMO_PATH_SEPERATOR], defined by the build. *)
Variable GISMO_PATH_SEPERATOR : ascii.

(** The files that exist, as [fileExists] finds them. *)
Variable fileExists : list ascii -> bool.

(** What [registerPaths] does with the characters between two semicolons:
    nothing when there are none; otherwise the path is stored, closed by
    the separator if it does not end in it. *)
Definition push_path (p : list ascii) (m_paths : list (list ascii))
  : list (list ascii) :=
  match rev p with
  | [] => m_paths
  | c :: _ =>
      if Ascii.eqb c GISMO_PATH_SEPERATOR then m_paths ++ [p]
      else m_paths ++ [p ++ [GISMO_PATH_SEPERATOR]]
  end.

(** The two loops of [registerPaths]: the iterator [b] walks once over
    [paths]; [from_b] is what lies ahead of it and [segment] the
    characters between [a] and [b]. *)
Fixpoint registerPaths_scan (from_b segment : list ascii)
         (m_paths : list (list ascii)) : list (list ascii) :=
  match from_b with
  | [] => push_path segment m_paths
  | c :: rest =>
      if Ascii.eqb c ";"%char
      then registerPaths_scan rest [] (push_path segment m_paths)
      else registerPaths_scan rest (segment ++ [c]) m_paths
  end.

(** [registerPaths(paths)], with [m_paths] before and after. *)
Definition registerPaths (paths : list ascii) (m_paths : list (list ascii))
  : list (list ascii) :=
  registerPaths_scan paths [] m_paths.

(** [fn[i]]: the character, and the terminating zero at [i = size()]. *)
Definition char_at (fn : list ascii) (i : nat) : ascii := nth i fn zero.

(** The test of [find] for a name that "is considered as a fully qualified
    path". *)
Definition is_qualified (fn : list ascii) : bool :=
  Ascii.eqb (char_at fn 0) GISMO_PATH_SEPERATOR
  || (Ascii.eqb (char_at fn 0) "."%char
      && Ascii.eqb (char_at fn 1) GISMO_PATH_SEPERATOR)
  || (Ascii.eqb (char_at fn 0) "."%char
      && Ascii.eqb (char_at fn 1) "."%char
      && Ascii.eqb (char_at fn 2) GISMO_PATH_SEPERATOR).

(** The loop of [find] over the search paths. *)
Fixpoint find_in_paths (paths : list (list ascii)) (fn : list ascii)
  : bool * list ascii :=
  match paths with
  | [] => (false, fn)
  | p :: rest =>
      if fileExists (p ++ fn) then (true, p ++ fn)
      else find_in_paths rest fn
  end.

(** [gsFileRepo::find(fn)]: the value returned and [fn] after the call. *)
Definition gsFileRepo_find (m_paths : list (list ascii)) (fn : list ascii)
  : bool * list ascii :=
  if is_qualified fn then (fileExists fn, fn)
  else find_in_paths m_paths fn.

End FileRepo.

(** A file system with one file, [/data/surface.xml], and two search
    paths. *)
Definition one_file (fn : list ascii) : bool :=
  if list_eq_dec ascii_dec fn (list_ascii_of_string "/data/surface.xml")
  then true else false.

Definition two_paths : list (list ascii) :=
  [list_ascii_of_string "/tmp/"; list_ascii_of_string "/data/"].
(** * Properties *)

(** ** Sorted tables and the result of upper_bound *)

Section UpperBound.

Variable v : list Z.
Variable val : Z.
Hypothesis v_sorted : nondecreasing v.

(** What the loop keeps true, and so what it returns: everything left
    of the result is at most [val], everything from it on is larger. *)
Lemma upper_bound_loop_spec :
  forall len first : nat,
    (first + len <= length v)%nat ->
    (forall k, (k < first)%nat -> nth k v 0 <= val) ->
    (forall k, (first + len <= k < length v)%nat -> val < nth k v 0) ->
    (first <= upper_bound_loop v val first len <= first + len)%nat /\
    (forall k, (k < upper_bound_loop v val first len)%nat -> nth k v 0 <= val) /\
    (forall k, (upper_bound_loop v val first len <= k < length v)%nat ->
               val < nth k v 0).
Proof.
  induction len as [len IH] using lt_wf_ind.
  intros first Hlen Hlo Hhi.
  destruct len as [|n].
  - rewrite upper_bound_loop_equation_1.
    repeat split; try lia; auto.
    intros k Hk. apply Hhi. lia.
  - rewrite upper_bound_loop_equation_2.
    assert (Hhalf : (Nat.div2 (S n) < S n)%nat) by (apply Nat.lt_div2; lia).
    set (half := Nat.div2 (S n)) in *.
    destruct (Z.ltb_spec val (nth (first + half) v 0)) as [Hlt | Hge].
    + assert (Hup : forall k, (first + half <= k < length v)%nat ->
                              val < nth k v 0).
      { intros k Hk.
        assert (nth (first + half) v 0 <= nth k v 0)
          by (apply v_sorted; lia).
        lia. }
      destruct (IH half Hhalf first ltac:(lia) Hlo Hup) as (Hr & Hl & Hu).
      repeat split; try lia; auto.
    + assert (Hdown : forall k, (k < S (first + half))%nat ->
                                nth k v 0 <= val).
      { intros k Hk.
        assert (nth k v 0 <= nth (first + half) v 0)
          by (apply v_sorted; lia).
        lia. }
      assert (Hup : forall k,
                 (S (first + half) + (S n - half - 1) <= k < length v)%nat ->
                 val < nth k v 0).
      { intros k Hk. apply Hhi. lia. }
      destruct (IH (S n - half - 1)%nat ltac:(lia) (S (first + half))
                   ltac:(lia) Hdown Hup) as (Hr & Hl & Hu).
      repeat split; try lia; auto.
Qed.

Lemma upper_bound_spec :
  (upper_bound v val <= length v)%nat /\
  (forall k, (k < upper_bound v val)%nat -> nth k v 0 <= val) /\
  (forall k, (upper_bound v val <= k < length v)%nat -> val < nth k v 0).
Proof.
  unfold upper_bound.
  destruct (upper_bound_loop_spec (length v) 0) as (Hr & Hl & Hu);
    try lia.
  repeat split; try lia; auto.
Qed.

(** The result is the only position with that property. *)
Lemma upper_bound_unique (r : nat) :
  (r <= length v)%nat ->
  (forall k, (k < r)%nat -> nth k v 0 <= val) ->
  (forall k, (r <= k < length v)%nat -> val < nth k v 0) ->
  r = upper_bound v val.
Proof.
  intros Hr Hl Hu.
  destruct upper_bound_spec as (Hr' & Hl' & Hu').
  destruct (Nat.lt_trichotomy r (upper_bound v val)) as [H | [H | H]]; auto.
  - specialize (Hu r ltac:(lia)). specialize (Hl' r H). lia.
  - specialize (Hu' (upper_bound v val) ltac:(lia)).
    specialize (Hl (upper_bound v val) H). lia.
Qed.

End UpperBound.

(** ** Prefix sums *)

Lemma prefix_sums_length acc sizes :
  length (prefix_sums acc sizes) = S (length sizes).
Proof.
  revert acc. induction sizes as [|n rest IH]; intros acc; simpl; auto.
Qed.

Lemma prefix_sums_nth_0 acc sizes : nth 0 (prefix_sums acc sizes) 0 = acc.
Proof. destruct sizes; reflexivity. Qed.

Lemma prefix_sums_step acc sizes (l : nat) :
  (l < length sizes)%nat ->
  nth (S l) (prefix_sums acc sizes) 0 =
  nth l (prefix_sums acc sizes) 0 + nth l sizes 0.
Proof.
  revert acc l. induction sizes as [|n rest IH]; intros acc l Hl; simpl in Hl.
  - lia.
  - destruct l as [|l].
    + simpl. rewrite prefix_sums_nth_0. reflexivity.
    + change (nth (S (S l)) (prefix_sums acc (n :: rest)) 0)
        with (nth (S l) (prefix_sums (acc + n) rest) 0).
      change (nth (S l) (prefix_sums acc (n :: rest)) 0)
        with (nth l (prefix_sums (acc + n) rest) 0).
      simpl nth at 3. apply IH. lia.
Qed.

Lemma prefix_sums_nondecreasing acc sizes :
  Forall (fun n => 0 <= n) sizes -> nondecreasing (prefix_sums acc sizes).
Proof.
  intros Hpos i j [Hij Hj]. rewrite prefix_sums_length in Hj.
  induction j as [|j IH].
  - assert (i = 0%nat) by lia. subst. lia.
  - destruct (Nat.eq_dec i (S j)) as [-> | Hne]; [lia|].
    rewrite prefix_sums_step by lia.
    assert (0 <= nth j sizes 0).
    { rewrite Forall_forall in Hpos. apply Hpos. apply nth_In. lia. }
    specialize (IH ltac:(lia) ltac:(lia)). lia.
Qed.

Lemma prefix_sums_last acc sizes :
  last (prefix_sums acc sizes) 0 = nth (length sizes) (prefix_sums acc sizes) 0.
Proof.
  revert acc. induction sizes as [|n rest IH]; intros acc; auto.
  change (last (prefix_sums acc (n :: rest)) 0)
    with (last (acc :: prefix_sums (acc + n) rest) 0).
  change (nth (length (n :: rest)) (prefix_sums acc (n :: rest)) 0)
    with (nth (length rest) (prefix_sums (acc + n) rest) 0).
  rewrite <- IH.
  destruct rest; reflexivity.
Qed.

Lemma cmatrix_sizes_nonneg {TB HD : Type} (b : gsHTensorBasis TB HD) :
  Forall (fun n => 0 <= n) (cmatrix_sizes b).
Proof.
  unfold cmatrix_sizes. rewrite Forall_forall. intros n Hn.
  apply in_map_iff in Hn. destruct Hn as (cm & <- & _). lia.
Qed.

Lemma cmatrix_sizes_nth {TB HD : Type} (b : gsHTensorBasis TB HD) (l : nat) :
  nth l (cmatrix_sizes b) 0 = cmatrix_size b (Z.of_nat l).
Proof.
  unfold cmatrix_sizes, cmatrix_size. rewrite Nat2Z.id.
  change 0 with ((fun cm : CMatrix => Z.of_nat (length cm)) []).
  apply map_nth.
Qed.

(** ** levelOf on a well-formed offset table *)

Section Numbering.

Context {TB HD : Type}.
Variable b : gsHTensorBasis TB HD.
Hypothesis Hok : offsets_ok b.

Lemma offsets_length : length (m_xmatrix_offset b) = S (length (m_xmatrix b)).
Proof.
  destruct Hok as [-> _]. rewrite prefix_sums_length.
  unfold cmatrix_sizes. rewrite length_map. reflexivity.
Qed.

Lemma offsets_nondecreasing : nondecreasing (m_xmatrix_offset b).
Proof.
  destruct Hok as [-> _].
  apply prefix_sums_nondecreasing, cmatrix_sizes_nonneg.
Qed.

Lemma offset_at_0 : offset_at b 0 = 0.
Proof.
  unfold offset_at. destruct Hok as [-> _]. apply prefix_sums_nth_0.
Qed.

Lemma offset_at_succ (l : Z) :
  0 <= l < numLevels b ->
  offset_at b (l + 1) = offset_at b l + cmatrix_size b l.
Proof.
  intros Hl. unfold offset_at, numLevels in *.
  replace (Z.to_nat (l + 1)) with (S (Z.to_nat l)) by lia.
  destruct Hok as [-> _].
  rewrite prefix_sums_step.
  - rewrite cmatrix_sizes_nth. rewrite Z2Nat.id by lia. reflexivity.
  - unfold cmatrix_sizes. rewrite length_map. lia.
Qed.

Lemma size_is_last_offset : size b = offset_at b (numLevels b).
Proof.
  unfold size, offset_at, numLevels. rewrite Nat2Z.id.
  destruct Hok as [-> _]. rewrite prefix_sums_last.
  unfold cmatrix_sizes. rewrite length_map. reflexivity.
Qed.

Lemma offset_at_nonneg (l : Z) : 0 <= l <= numLevels b -> 0 <= offset_at b l.
Proof.
  intros Hl. rewrite <- offset_at_0. unfold offset_at.
  apply offsets_nondecreasing. rewrite offsets_length.
  unfold numLevels in Hl. lia.
Qed.

Lemma offset_at_le_size (l : Z) :
  0 <= l <= numLevels b -> offset_at b l <= size b.
Proof.
  intros Hl. rewrite size_is_last_offset. unfold offset_at.
  apply offsets_nondecreasing. rewrite offsets_length.
  unfold numLevels in *. lia.
Qed.

(** The level found for a valid index, and that no other level fits. *)
Lemma levelOf_in_range (i : Z) :
  0 <= i < size b ->
  0 <= levelOf b i < numLevels b /\
  offset_at b (levelOf b i) <= i < offset_at b (levelOf b i + 1).
Proof.
  intros Hi. unfold levelOf.
  destruct (upper_bound_spec (m_xmatrix_offset b) i offsets_nondecreasing)
    as (Hr & Hl & Hu).
  set (r := upper_bound (m_xmatrix_offset b) i) in *.
  rewrite offsets_length in Hr, Hu.
  assert (H1 : (1 <= r)%nat).
  { destruct (Nat.eq_dec r 0) as [E | E]; [|lia].
    specialize (Hu 0%nat ltac:(lia)).
    change (nth 0 (m_xmatrix_offset b) 0) with (offset_at b 0) in Hu.
    rewrite offset_at_0 in Hu. lia. }
  assert (H2 : (r <= length (m_xmatrix b))%nat).
  { destruct (le_lt_dec r (length (m_xmatrix b))) as [E | E]; [lia|].
    specialize (Hl (length (m_xmatrix b)) E).
    rewrite size_is_last_offset in Hi. unfold offset_at, numLevels in Hi.
    rewrite Nat2Z.id in Hi. lia. }
  unfold numLevels, offset_at. split; [lia|].
  replace (Z.to_nat (Z.of_nat r - 1)) with (r - 1)%nat by lia.
  replace (Z.to_nat (Z.of_nat r - 1 + 1)) with r by lia.
  split.
  - apply Hl. lia.
  - apply Hu. lia.
Qed.

Lemma levelOf_unique (i l : Z) :
  0 <= l < numLevels b ->
  offset_at b l <= i < offset_at b (l + 1) ->
  l = levelOf b i.
Proof.
  intros Hl [Hlo Hhi]. unfold levelOf.
  destruct (upper_bound_spec (m_xmatrix_offset b) i offsets_nondecreasing)
    as (Hr & Hl' & Hu).
  set (r := upper_bound (m_xmatrix_offset b) i) in *.
  rewrite offsets_length in Hr, Hu.
  unfold offset_at, numLevels in *.
  replace (Z.to_nat (l + 1)) with (S (Z.to_nat l)) in Hhi by lia.
  assert (Z.to_nat l < r)%nat.
  { destruct (le_lt_dec r (Z.to_nat l)) as [E | E]; [|lia].
    specialize (Hu (Z.to_nat l) ltac:(lia)). lia. }
  assert (r <= S (Z.to_nat l))%nat.
  { destruct (le_lt_dec r (S (Z.to_nat l))) as [E | E]; [lia|].
    specialize (Hl' (S (Z.to_nat l)) E). lia. }
  lia.
Qed.

(** The position inside the level's matrix: no wrap-around, and inside
    the matrix. *)
Lemma position_in_level (i : Z) :
  0 <= i < size b ->
  usub i (offset_at b (levelOf b i)) = i - offset_at b (levelOf b i) /\
  0 <= i - offset_at b (levelOf b i) < cmatrix_size b (levelOf b i).
Proof.
  intros Hi.
  destruct (levelOf_in_range i Hi) as (Hl & Hlo & Hhi).
  rewrite offset_at_succ in Hhi by lia.
  assert (offset_at b (levelOf b i + 1) <= size b)
    by (apply offset_at_le_size; lia).
  rewrite offset_at_succ in H by lia.
  assert (0 <= offset_at b (levelOf b i)) by (apply offset_at_nonneg; lia).
  destruct Hok as [_ Hsz].
  unfold usub. rewrite Z.mod_small by lia. lia.
Qed.

End Numbering.

(** C1.  Global numbering consistency.  When the offset table is the prefix
    sum of the sizes of the characteristic matrices, then for every valid
    global index [i] the level returned by [levelOf] is a level of the
    basis, it satisfies [offsets[l] <= i < offsets[l+1]], no other level
    does, the position [i - offsets[l]] lies inside that level's matrix,
    and adding the offset back to the position gives [i] again. *)
Theorem levelOf_global_numbering_consistent
        {TB HD : Type} (b : gsHTensorBasis TB HD) (i : Z) :
  offsets_ok b ->
  0 <= i < size b ->
  0 <= levelOf b i < numLevels b /\
  offset_at b (levelOf b i) <= i < offset_at b (levelOf b i + 1) /\
  (forall l, 0 <= l < numLevels b ->
             offset_at b l <= i < offset_at b (l + 1) -> l = levelOf b i) /\
  0 <= usub i (offset_at b (levelOf b i)) < cmatrix_size b (levelOf b i) /\
  uadd (offset_at b (levelOf b i)) (usub i (offset_at b (levelOf b i))) = i.
Proof.
  intros Hok Hi.
  destruct (levelOf_in_range b Hok i Hi) as (Hl & Hrange).
  destruct (position_in_level b Hok i Hi) as (Hsub & Hpos).
  split; [exact Hl|]. split; [exact Hrange|]. split.
  - intros l Hl' Hr. apply levelOf_unique; assumption.
  - rewrite Hsub. split; [exact Hpos|].
    unfold uadd.
    replace (offset_at b (levelOf b i) + (i - offset_at b (levelOf b i)))
      with i by ring.
    destruct Hok as [_ Hsz]. apply Z.mod_small. lia.
Qed.

Lemma levelOf_global_numbering_consistent_witness :
  0 <= levelOf numbering_example 4 < numLevels numbering_example /\
  offset_at numbering_example (levelOf numbering_example 4) <= 4
    < offset_at numbering_example (levelOf numbering_example 4 + 1) /\
  (forall l, 0 <= l < numLevels numbering_example ->
             offset_at numbering_example l <= 4
               < offset_at numbering_example (l + 1) ->
             l = levelOf numbering_example 4) /\
  0 <= usub 4 (offset_at numbering_example (levelOf numbering_example 4))
    < cmatrix_size numbering_example (levelOf numbering_example 4) /\
  uadd (offset_at numbering_example (levelOf numbering_example 4))
       (usub 4 (offset_at numbering_example (levelOf numbering_example 4))) = 4.
Proof.
  apply (levelOf_global_numbering_consistent numbering_example 4).
  - split; [reflexivity | vm_compute; reflexivity].
  - vm_compute. split; [discriminate | reflexivity].
Defined.

(** ** The two overloads of flatTensorIndexOf *)

Lemma vec_at_inside {A : Type} (v : list A) (i : Z) (d : A) :
  0 <= i < Z.of_nat (length v) -> vec_at v i = Some (nth (Z.to_nat i) v d).
Proof.
  intros Hi. unfold vec_at.
  destruct (Z.ltb_spec i 0) as [H | H]; [lia|].
  apply nth_error_nth'. lia.
Qed.

Lemma vec_at_outside {A : Type} (v : list A) (i : Z) :
  i < 0 \/ Z.of_nat (length v) <= i -> vec_at v i = None.
Proof.
  intros Hi. unfold vec_at.
  destruct (Z.ltb_spec i 0) as [H | H]; [reflexivity|].
  apply nth_error_None. lia.
Qed.

Lemma offset_at_monotone {TB HD : Type} (b : gsHTensorBasis TB HD) (l1 l2 : Z) :
  offsets_ok b ->
  0 <= l1 <= l2 -> l2 <= numLevels b ->
  offset_at b l1 <= offset_at b l2.
Proof.
  intros Hok H1 H2. unfold offset_at.
  apply offsets_nondecreasing; auto.
  rewrite offsets_length by assumption. unfold numLevels in H2. lia.
Qed.

Lemma flatTensorIndexOf_level_inside
      {TB HD : Type} (b : gsHTensorBasis TB HD) (i level : Z) :
  offsets_ok b ->
  0 <= level < numLevels b ->
  flatTensorIndexOf_level b i level =
  vec_at (nth (Z.to_nat level) (m_xmatrix b) []) (usub i (offset_at b level)).
Proof.
  intros Hok Hl. unfold flatTensorIndexOf_level.
  rewrite (vec_at_inside (m_xmatrix_offset b) level 0).
  - rewrite (vec_at_inside (m_xmatrix b) level []) by exact Hl.
    reflexivity.
  - rewrite offsets_length by assumption. unfold numLevels in Hl. lia.
Qed.

(** With a level of the basis other than the one of [i], the position
    computed by the unsigned subtraction is outside that level's matrix. *)
Lemma wrong_level_position_outside
      {TB HD : Type} (b : gsHTensorBasis TB HD) (i level : Z) :
  offsets_ok b ->
  0 <= i < size b ->
  0 <= level < numLevels b ->
  level <> levelOf b i ->
  cmatrix_size b level <= usub i (offset_at b level).
Proof.
  intros Hok Hi Hl Hne.
  destruct (levelOf_in_range b Hok i Hi) as (Hlev & Hlo & Hhi).
  pose proof (offset_at_succ b Hok level Hl) as Hsucc.
  assert (Hnn : 0 <= offset_at b level) by (apply offset_at_nonneg; auto; lia).
  assert (Htop : offset_at b (level + 1) <= size b)
    by (apply offset_at_le_size; auto; lia).
  pose proof (proj2 Hok) as Hsz.
  assert (Hcm : 0 <= cmatrix_size b level) by (unfold cmatrix_size; lia).
  unfold usub, UNSIGNED_MOD in *.
  change (2 ^ 32) with 4294967296 in *.
  destruct (Z_lt_le_dec level (levelOf b i)) as [Hlt | Hge].
  - assert (offset_at b (level + 1) <= offset_at b (levelOf b i))
      by (apply offset_at_monotone; auto; lia).
    rewrite Z.mod_small by lia. lia.
  - assert (offset_at b (levelOf b i + 1) <= offset_at b level)
      by (apply offset_at_monotone; auto; lia).
    replace (i - offset_at b level)
      with ((4294967296 + i - offset_at b level) + (-1) * 4294967296) by ring.
    rewrite Z.mod_add by lia.
    rewrite Z.mod_small by lia. lia.
Qed.

(** C10.  Agreement of the two overloads.  For a valid global index [i] the
    one-argument [flatTensorIndexOf(i)] returns what the two-argument
    overload returns at [level = levelOf(i)], and that is the entry at
    position [i - offsets[level]] of the level's characteristic matrix.
    For any other [level] the two-argument overload does not read an
    entry of a characteristic matrix at all: the position is outside the
    matrix of [level], or [level] is outside the tables. *)
Theorem flatTensorIndexOf_overloads_agree
        {TB HD : Type} (b : gsHTensorBasis TB HD) (i : Z) :
  offsets_ok b ->
  0 <= i < size b ->
  flatTensorIndexOf b i = flatTensorIndexOf_level b i (levelOf b i) /\
  flatTensorIndexOf b i =
    Some (nth (Z.to_nat (i - offset_at b (levelOf b i)))
              (nth (Z.to_nat (levelOf b i)) (m_xmatrix b) []) 0) /\
  (forall level, level <> levelOf b i ->
                 flatTensorIndexOf_level b i level = None).
Proof.
  intros Hok Hi.
  destruct (levelOf_in_range b Hok i Hi) as (Hlev & _).
  destruct (position_in_level b Hok i Hi) as (Hsub & Hpos).
  split; [reflexivity|]. split.
  - change (flatTensorIndexOf b i)
      with (flatTensorIndexOf_level b i (levelOf b i)).
    rewrite flatTensorIndexOf_level_inside by assumption.
    rewrite Hsub. apply vec_at_inside. exact Hpos.
  - intros level Hne.
    destruct (Z_lt_le_dec level 0) as [Hneg | Hnn].
    { unfold flatTensorIndexOf_level.
      rewrite vec_at_outside by lia. reflexivity. }
    destruct (Z_lt_le_dec level (numLevels b)) as [Hin | Hout].
    + rewrite flatTensorIndexOf_level_inside by (auto; lia).
      apply vec_at_outside. right.
      apply (wrong_level_position_outside b i level); auto; lia.
    + unfold flatTensorIndexOf_level.
      destruct (vec_at (m_xmatrix_offset b) level); [|reflexivity].
      rewrite (vec_at_outside (m_xmatrix b)); [reflexivity|].
      right. exact Hout.
Qed.

Lemma flatTensorIndexOf_overloads_agree_witness :
  flatTensorIndexOf numbering_example 4 =
    flatTensorIndexOf_level numbering_example 4 (levelOf numbering_example 4) /\
  flatTensorIndexOf numbering_example 4 =
    Some (nth (Z.to_nat (4 - offset_at numbering_example
                               (levelOf numbering_example 4)))
              (nth (Z.to_nat (levelOf numbering_example 4))
                   (m_xmatrix numbering_example) []) 0) /\
  (forall level, level <> levelOf numbering_example 4 ->
                 flatTensorIndexOf_level numbering_example 4 level = None).
Proof.
  apply (flatTensorIndexOf_overloads_agree numbering_example 4).
  - split; [reflexivity | vm_compute; reflexivity].
  - vm_compute. split; [discriminate | reflexivity].
Defined.

(** ** Indices at or beyond size() *)

(** An index that is not valid is beyond every offset: [levelOf] returns
    the number of levels, one more than the last level. *)
Lemma levelOf_beyond_size {TB HD : Type} (b : gsHTensorBasis TB HD) (i : Z) :
  offsets_ok b -> size b <= i -> levelOf b i = numLevels b.
Proof.
  intros Hok Hi. unfold levelOf, numLevels.
  rewrite <- (upper_bound_unique (m_xmatrix_offset b) i
                (offsets_nondecreasing b Hok) (S (length (m_xmatrix b)))).
  - lia.
  - rewrite offsets_length by assumption. lia.
  - intros k Hk.
    apply Z.le_trans with (size b); [|exact Hi].
    replace k with (Z.to_nat (Z.of_nat k)) by lia.
    apply (offset_at_le_size b Hok). unfold numLevels. lia.
  - rewrite offsets_length by assumption. lia.
Qed.

(** C6, as the header has it.  For an index [i >= size()] no assertion is
    reached: [levelOf(i)] returns, and its value is the number of levels,
    which is not a level of the basis; [flatTensorIndexOf(i)] then reads
    [m_xmatrix] one past its end, which is undefined behaviour and not a
    failed assertion. *)
Theorem out_of_range_index_not_checked
        {TB HD : Type} (b : gsHTensorBasis TB HD) (i : Z) :
  offsets_ok b ->
  size b <= i ->
  call_levelOf b i = Returned (numLevels b) /\
  call_flatTensorIndexOf b i = Undefined.
Proof.
  intros Hok Hi.
  pose proof (levelOf_beyond_size b i Hok Hi) as Hlev.
  split.
  - unfold call_levelOf. rewrite Hlev. reflexivity.
  - unfold call_flatTensorIndexOf, flatTensorIndexOf. rewrite Hlev.
    destruct (vec_at (m_xmatrix_offset b) (numLevels b)); [|reflexivity].
    rewrite (vec_at_outside (m_xmatrix b)); [reflexivity|].
    right. unfold numLevels. lia.
Qed.

Lemma out_of_range_index_not_checked_witness :
  call_levelOf numbering_example 5 = Returned (numLevels numbering_example) /\
  call_flatTensorIndexOf numbering_example 5 = Undefined.
Proof.
  apply (out_of_range_index_not_checked numbering_example 5).
  - split; [reflexivity | vm_compute; reflexivity].
  - vm_compute. discriminate.
Defined.

(** C6, as claimed, fails: with five functions, [levelOf(5)] returns 3. *)
Lemma out_of_range_levelOf_returns :
  ~ (forall i, size numbering_example <= i ->
               exists msg, call_levelOf numbering_example i = Aborted msg).
Proof.
  intros H. destruct (H 5) as [msg Hmsg].
  - vm_compute. discriminate.
  - vm_compute in Hmsg. discriminate.
Qed.

(** ** The difference of two knot vectors *)

Section KnotDifference.

Variable T : Type.
Variable T_eq_dec : forall x y : T, {x = y} + {x <> y}.

(** The order of the knots.  The distinct knots of a compact knot vector
    are stored in increasing order. *)
Variable Tlt : T -> T -> Prop.
Hypothesis Tlt_irrefl : forall x, ~ Tlt x x.
Hypothesis Tlt_trans : forall x y z, Tlt x y -> Tlt y z -> Tlt x z.

Local Abbreviation diff_loop := (difference_loop T_eq_dec).
Local Abbreviation mult_in := (multiplicity_in T_eq_dec).
Local Abbreviation excess := (excess_knots T_eq_dec).
Local Abbreviation Tle := (knot_le Tlt).
Local Abbreviation increasing := (increasing_knots Tlt).

(** *** The loop on the remaining parts of the two vectors *)

Lemma difference_loop_shift :
  forall todo (ckv fkv : gsCompactKnotVector T) c_index f_index knots,
    diff_loop ckv fkv todo c_index f_index knots =
    diff_loop (skipn c_index ckv) (skipn f_index fkv) todo 0 0 knots.
Proof.
  assert (Hnth : forall (kv : gsCompactKnotVector T) i,
             nth_error (skipn i kv) 0 = nth_error kv i).
  { intros kv i. rewrite nth_error_skipn, Nat.add_0_r. reflexivity. }
  assert (Hskip : forall (kv : gsCompactKnotVector T) i,
             skipn 1 (skipn i kv) = skipn (S i) kv).
  { intros kv i. rewrite skipn_skipn. reflexivity. }
  induction todo as [|todo IH]; intros ckv fkv c_index f_index knots;
    [reflexivity|].
  cbn [difference_loop]. unfold uValue, u_multiplicityIndex.
  rewrite !Hnth.
  destruct (nth_error fkv f_index) as [[fk fm]|]; [|reflexivity].
  destruct (nth_error ckv c_index) as [[ck cm]|]; [|reflexivity].
  cbn [option_map fst snd].
  destruct (T_eq_dec fk ck) as [E | E].
  - rewrite (IH ckv fkv).
    rewrite (IH (skipn c_index ckv) (skipn f_index fkv) 1%nat 1%nat).
    rewrite !Hskip. reflexivity.
  - rewrite (IH ckv fkv).
    rewrite (IH (skipn c_index ckv) (skipn f_index fkv) 0%nat 1%nat).
    rewrite !Hskip. reflexivity.
Qed.

Lemma multiplicity_in_head (x : T) (m : nat) (cs : gsCompactKnotVector T) :
  mult_in ((x, m) :: cs) x = m.
Proof.
  unfold multiplicity_in. cbn [find fst].
  destruct (T_eq_dec x x); [reflexivity | congruence].
Qed.

Lemma multiplicity_in_skip (c x : T) (m : nat) (cs : gsCompactKnotVector T) :
  c <> x -> mult_in ((c, m) :: cs) x = mult_in cs x.
Proof.
  intros Hne. unfold multiplicity_in. cbn [find fst].
  destruct (T_eq_dec c x); [congruence | reflexivity].
Qed.

Lemma multiplicity_in_absent (x : T) (cs : gsCompactKnotVector T) :
  ~ In x (map fst cs) -> mult_in cs x = O.
Proof.
  induction cs as [|[c m] cs IH]; intros Hx; [reflexivity|].
  rewrite multiplicity_in_skip.
  - apply IH. intros H. apply Hx. right. exact H.
  - intros ->. apply Hx. left. reflexivity.
Qed.

Lemma multiplicity_in_app_absent (x : T) (pre cs : gsCompactKnotVector T) :
  ~ In x (map fst pre) -> mult_in (pre ++ cs) x = mult_in cs x.
Proof.
  induction pre as [|[c m] pre IH]; intros Hx; [reflexivity|].
  cbn [app]. rewrite multiplicity_in_skip.
  - apply IH. intros H. apply Hx. right. exact H.
  - intros ->. apply Hx. left. reflexivity.
Qed.

Lemma excess_knots_ext (fs cs cs' : gsCompactKnotVector T) :
  (forall x, In x (map fst fs) -> mult_in cs x = mult_in cs' x) ->
  excess fs cs = excess fs cs'.
Proof.
  intros H. unfold excess_knots.
  induction fs as [|[x m] fs IH]; [reflexivity|].
  cbn [flat_map fst snd]. rewrite H by (left; reflexivity).
  f_equal. apply IH. intros y Hy. apply H. right. exact Hy.
Qed.

Lemma increasing_head_lt (x : T) (m : nat) (kv : gsCompactKnotVector T)
      (y : T) :
  increasing ((x, m) :: kv) -> In y (map fst kv) -> Tlt x y.
Proof.
  unfold increasing. cbn [map fst]. intros Hs Hy.
  apply StronglySorted_inv in Hs. destruct Hs as [_ Hall].
  rewrite Forall_forall in Hall. apply Hall. exact Hy.
Qed.

Lemma increasing_tail (e : T * nat) (kv : gsCompactKnotVector T) :
  increasing (e :: kv) -> increasing kv.
Proof.
  unfold increasing. cbn [map]. intros Hs.
  apply StronglySorted_inv in Hs. tauto.
Qed.

(** The loop on lists: [cs] is what is left of the coarse vector, [fs]
    the fine knots still to visit.  [cs] has a knot at position [m]
    which is the largest knot of [fs], and the coarse knots up to it are
    knots of [fs]. *)
Lemma difference_loop_aligned :
  forall (fs cs : gsCompactKnotVector T) (m : nat) (top : T) (knots : list T),
    increasing fs -> increasing cs ->
    uValue cs m = Some top ->
    (forall x, In x (map fst fs) -> Tle x top) ->
    (forall k x, (k <= m)%nat -> uValue cs k = Some x -> In x (map fst fs)) ->
    diff_loop cs fs (length fs) 0 0 knots = Some (knots ++ excess fs cs).
Proof.
  induction fs as [|[fk fm] fs IH];
    intros cs m top knots Hfs Hcs Htop Hmax Hsub.
  - cbn. rewrite app_nil_r. reflexivity.
  - destruct cs as [|[ck cm] cs].
    { destruct m; discriminate Htop. }
    cbn [length difference_loop uValue u_multiplicityIndex nth_error
         option_map fst snd].
    assert (Hck : In ck (map fst ((fk, fm) :: fs))).
    { apply (Hsub 0%nat); [lia | reflexivity]. }
    destruct (T_eq_dec fk ck) as [E | E].
    + subst ck.
      assert (Hout : (if (cm <? fm)%nat
                      then knots ++ repeat fk (fm - cm) else knots)
                     = knots ++ repeat fk (fm - cm)).
      { destruct (Nat.ltb_spec cm fm) as [H | H]; [reflexivity|].
        replace (fm - cm)%nat with O by lia.
        cbn. rewrite app_nil_r. reflexivity. }
      rewrite Hout. clear Hout.
      rewrite difference_loop_shift. cbn [skipn].
      assert (Hrest : excess ((fk, fm) :: fs) ((fk, cm) :: cs)
                      = repeat fk (fm - cm) ++ excess fs cs).
      { unfold excess_knots at 1. cbn [flat_map fst snd].
        rewrite multiplicity_in_head. f_equal.
        apply excess_knots_ext. intros x Hx.
        apply multiplicity_in_skip. intros ->.
        apply (Tlt_irrefl x).
        apply (increasing_head_lt x fm fs x Hfs Hx). }
      rewrite Hrest, app_assoc.
      destruct m as [|m].
      * (* the last coarse knot of the range: no fine knot is left *)
        cbn in Htop. injection Htop as <-.
        destruct fs as [|[x xm] fs].
        -- cbn. rewrite app_nil_r. reflexivity.
        -- exfalso.
           assert (Hlt : Tlt fk x).
           { apply (increasing_head_lt fk fm ((x, xm) :: fs) x Hfs).
             left. reflexivity. }
           destruct (Hmax x) as [Hx | Hx].
           ++ right. left. reflexivity.
           ++ subst x. exact (Tlt_irrefl fk Hlt).
           ++ exact (Tlt_irrefl fk (Tlt_trans _ _ _ Hlt Hx)).
      * apply (IH cs m top).
        -- exact (increasing_tail _ _ Hfs).
        -- exact (increasing_tail _ _ Hcs).
        -- exact Htop.
        -- intros x Hx. apply Hmax. right. exact Hx.
        -- intros k x Hk Hx.
           assert (Hin : In x (map fst ((fk, fm) :: fs))).
           { apply (Hsub (S k)); [lia | exact Hx]. }
           destruct Hin as [Hin | Hin]; [|exact Hin].
           cbn in Hin. subst x. exfalso.
           apply (Tlt_irrefl fk).
           apply (increasing_head_lt fk cm cs fk Hcs).
           unfold uValue in Hx.
           destruct (nth_error cs k) as [e|] eqn:Hnth; [|discriminate].
           cbn in Hx. injection Hx as <-.
           apply in_map. eapply nth_error_In. exact Hnth.
    + (* the fine knot is smaller than every coarse knot that is left *)
      assert (Hlt : Tlt fk ck).
      { destruct Hck as [Hck | Hck]; [cbn in Hck; congruence|].
        apply (increasing_head_lt fk fm fs ck Hfs Hck). }
      rewrite difference_loop_shift. cbn [skipn].
      assert (Hrest : excess ((fk, fm) :: fs) ((ck, cm) :: cs)
                      = repeat fk fm ++ excess fs ((ck, cm) :: cs)).
      { unfold excess_knots at 1. cbn [flat_map fst snd].
        rewrite multiplicity_in_absent.
        - rewrite Nat.sub_0_r. reflexivity.
        - cbn [map fst]. intros [Hin | Hin]; [congruence|].
          apply (Tlt_irrefl fk).
          apply (Tlt_trans _ _ _ Hlt).
          apply (increasing_head_lt ck cm cs fk Hcs Hin). }
      rewrite Hrest, app_assoc.
      apply (IH ((ck, cm) :: cs) m top).
      * exact (increasing_tail _ _ Hfs).
      * exact Hcs.
      * exact Htop.
      * intros x Hx. apply Hmax. right. exact Hx.
      * intros k x Hk Hx.
        assert (Hin : In x (map fst ((fk, fm) :: fs))).
        { apply (Hsub k); [lia | exact Hx]. }
        destruct Hin as [Hin | Hin]; [|exact Hin].
        cbn in Hin. subst x. exfalso.
        unfold uValue in Hx.
        destruct (nth_error ((ck, cm) :: cs) k) as [e|] eqn:Hnth;
          [|discriminate].
        cbn in Hx. injection Hx as Hx.
        apply nth_error_In in Hnth.
        destruct Hnth as [He | He].
        -- subst e. cbn in Hx. congruence.
        -- apply (Tlt_irrefl fk).
           apply (Tlt_trans _ _ _ Hlt).
           apply (increasing_head_lt ck cm cs fk Hcs).
           rewrite <- Hx. apply in_map. exact He.
Qed.

(** *** From the lists back to the index ranges *)

Lemma difference_loop_firstn (cs : gsCompactKnotVector T) :
  forall todo (fkv : gsCompactKnotVector T) c_index f_index knots,
    diff_loop cs fkv todo c_index f_index knots =
    diff_loop cs (firstn (f_index + todo) fkv) todo c_index f_index knots.
Proof.
  induction todo as [|todo IH]; intros fkv c_index f_index knots;
    [reflexivity|].
  cbn [difference_loop]. unfold uValue, u_multiplicityIndex.
  rewrite nth_error_firstn.
  destruct (Nat.ltb_spec f_index (f_index + S todo)) as [_ | H]; [|lia].
  destruct (nth_error fkv f_index) as [[fk fm]|]; [|reflexivity].
  destruct (nth_error cs c_index) as [[ck cm]|]; [|reflexivity].
  cbn [option_map fst snd].
  replace (f_index + S todo)%nat with (S f_index + todo)%nat by lia.
  destruct (T_eq_dec fk ck); rewrite (IH fkv); reflexivity.
Qed.

Lemma increasing_uValue (kv : gsCompactKnotVector T) :
  increasing kv ->
  forall i j x y, (i < j)%nat ->
                  uValue kv i = Some x -> uValue kv j = Some y -> Tlt x y.
Proof.
  induction kv as [|[k m] kv IH]; intros Hs i j x y Hij Hi Hj.
  - destruct i; discriminate Hi.
  - destruct j as [|j]; [lia|].
    destruct i as [|i].
    + cbn in Hi. injection Hi as <-.
      apply (increasing_head_lt k m kv y Hs).
      unfold uValue in Hj. cbn [nth_error] in Hj.
      destruct (nth_error kv j) as [e|] eqn:Hnth; [|discriminate].
      cbn in Hj. injection Hj as <-.
      apply in_map. eapply nth_error_In. exact Hnth.
    + apply (IH (increasing_tail _ _ Hs) i j); auto. lia.
Qed.

Lemma increasing_skipn (kv : gsCompactKnotVector T) (i : nat) :
  increasing kv -> increasing (skipn i kv).
Proof.
  revert kv. induction i as [|i IH]; intros kv Hs; [exact Hs|].
  destruct kv as [|e kv]; [exact Hs|].
  cbn [skipn]. apply IH. exact (increasing_tail _ _ Hs).
Qed.

Lemma firstn_incl (kv : gsCompactKnotVector T) (n : nat) (e : T * nat) :
  In e (firstn n kv) -> In e kv.
Proof.
  intros He. rewrite <- (firstn_skipn n kv).
  apply in_or_app. left. exact He.
Qed.

Lemma increasing_firstn (kv : gsCompactKnotVector T) (n : nat) :
  increasing kv -> increasing (firstn n kv).
Proof.
  revert kv. induction n as [|n IH]; intros kv Hs.
  - constructor.
  - destruct kv as [|[k m] kv]; [exact Hs|].
    cbn [firstn]. unfold increasing_knots. cbn [map fst].
    constructor.
    + apply IH. exact (increasing_tail _ _ Hs).
    + rewrite Forall_forall. intros y Hy.
      apply (increasing_head_lt k m kv y Hs).
      rewrite in_map_iff in Hy. destruct Hy as (e & <- & He).
      apply in_map. eapply firstn_incl. exact He.
Qed.

Lemma uValue_skipn (kv : gsCompactKnotVector T) (i k : nat) :
  uValue (skipn i kv) k = uValue kv (i + k).
Proof. unfold uValue. rewrite nth_error_skipn. reflexivity. Qed.

(** The knots listed by [knot_range] are those with an index in the
    range. *)
Lemma knot_range_values (kv : gsCompactKnotVector T) (low high : nat) (x : T) :
  In x (map fst (knot_range kv low high)) <->
  exists j, (low <= j <= high)%nat /\ uValue kv j = Some x.
Proof.
  unfold knot_range, uValue. split.
  - intros Hin. apply In_nth_error in Hin. destruct Hin as [k Hk].
    rewrite nth_error_map, nth_error_firstn in Hk.
    destruct (Nat.ltb_spec k (S high - low)) as [Hlt | Hge];
      [|discriminate].
    rewrite nth_error_skipn in Hk.
    exists (low + k)%nat. split; [lia | exact Hk].
  - intros (j & Hj & Hx).
    destruct (nth_error kv j) as [e|] eqn:Hnth; [|discriminate].
    cbn in Hx. injection Hx as <-.
    apply in_map. apply (nth_error_In _ (j - low)).
    rewrite nth_error_firstn.
    destruct (Nat.ltb_spec (j - low) (S high - low)) as [_ | H]; [|lia].
    rewrite nth_error_skipn.
    replace (low + (j - low))%nat with j by lia. exact Hnth.
Qed.

Lemma firstn_values (kv : gsCompactKnotVector T) (n : nat) (x : T) :
  In x (map fst (firstn n kv)) ->
  exists k, (k < n)%nat /\ uValue kv k = Some x.
Proof.
  intros Hin. apply In_nth_error in Hin. destruct Hin as [k Hk].
  rewrite nth_error_map, nth_error_firstn in Hk.
  destruct (Nat.ltb_spec k n) as [Hlt | Hge]; [|discriminate].
  exists k. split; [exact Hlt | exact Hk].
Qed.

(** *** The output is in nondecreasing order *)

Lemma repeat_app_sorted (x : T) (n : nat) (l : list T) :
  StronglySorted Tle l -> Forall (Tle x) l ->
  StronglySorted Tle (repeat x n ++ l).
Proof.
  intros Hs Hall. induction n as [|n IH]; [exact Hs|].
  cbn [repeat app]. constructor; [exact IH|].
  apply Forall_app. split; [|exact Hall].
  rewrite Forall_forall. intros y Hy.
  apply repeat_spec in Hy. subst y. left. reflexivity.
Qed.

Lemma excess_knots_values (fs cs : gsCompactKnotVector T) (y : T) :
  In y (excess fs cs) -> In y (map fst fs).
Proof.
  unfold excess_knots. rewrite in_flat_map.
  intros (e & He & Hy). apply repeat_spec in Hy. subst y.
  apply in_map. exact He.
Qed.

Lemma excess_knots_sorted (fs cs : gsCompactKnotVector T) :
  increasing fs -> StronglySorted Tle (excess fs cs).
Proof.
  induction fs as [|[x m] fs IH]; intros Hs; [constructor|].
  change (excess ((x, m) :: fs) cs)
    with (repeat x (m - mult_in cs x) ++ excess fs cs).
  apply repeat_app_sorted.
  - apply IH. exact (increasing_tail _ _ Hs).
  - rewrite Forall_forall. intros y Hy. right.
    apply (increasing_head_lt x m fs y Hs).
    exact (excess_knots_values _ _ _ Hy).
Qed.

(** C5, with the two index ranges on the same stretch of the parameter
    line.  For two compact knot vectors with increasing distinct knots,
    index ranges [[c_low, c_high]] and [[f_low, f_high]] that begin at the
    same knot value and end at the same knot value, and the coarse knots
    of the range among the fine knots of the range, the call appends to
    [knots] the fine knots with indices in [[f_low, f_high]], in their
    order, each as often as its fine multiplicity exceeds its multiplicity
    in the coarse vector (its full fine multiplicity when the coarse
    vector does not have it); what is appended is in nondecreasing
    order. *)
Theorem difference_between_knot_vectors
        (ckv fkv : gsCompactKnotVector T)
        (c_low c_high f_low f_high : nat) (knots : list T) :
  increasing ckv -> increasing fkv ->
  same_range ckv c_low c_high fkv f_low f_high ->
  nested_in_range ckv c_low c_high fkv f_low f_high ->
  _differenceBetweenKnotVectors T_eq_dec ckv c_low c_high fkv f_low f_high
                                knots
  = Some (knots ++ excess (knot_range fkv f_low f_high) ckv) /\
  StronglySorted Tle (excess (knot_range fkv f_low f_high) ckv).
Proof.
  intros Hc Hf (Hcr & Hfr & Hlow & Hhigh) Hnest.
  assert (Hfs : increasing (knot_range fkv f_low f_high)).
  { apply increasing_firstn, increasing_skipn. exact Hf. }
  split; [|apply excess_knots_sorted; exact Hfs].
  destruct (uValue ckv c_high) as [top|] eqn:Htop.
  2:{ unfold uValue in Htop.
      destruct (nth_error ckv c_high) eqn:E; [discriminate|].
      apply nth_error_None in E. lia. }
  unfold _differenceBetweenKnotVectors.
  rewrite difference_loop_shift.
  rewrite difference_loop_firstn. cbn [Nat.add].
  fold (knot_range fkv f_low f_high).
  assert (Hlen : length (knot_range fkv f_low f_high)
                 = (S f_high - f_low)%nat).
  { unfold knot_range. rewrite length_firstn, length_skipn. lia. }
  rewrite <- Hlen.
  rewrite (difference_loop_aligned (knot_range fkv f_low f_high)
             (skipn c_low ckv) (c_high - c_low) top knots).
  - f_equal. f_equal.
    rewrite <- (firstn_skipn c_low ckv) at 2.
    apply excess_knots_ext. intros x Hx. symmetry.
    apply multiplicity_in_app_absent. intros Hpre.
    apply firstn_values in Hpre. destruct Hpre as (k & Hk & Hkx).
    apply knot_range_values in Hx. destruct Hx as (j & Hj & Hjx).
    destruct (uValue ckv c_low) as [bottom|] eqn:Hbot.
    2:{ unfold uValue in Hbot.
        destruct (nth_error ckv c_low) eqn:E; [discriminate|].
        apply nth_error_None in E. lia. }
    assert (H1 : Tlt x bottom)
      by (apply (increasing_uValue ckv Hc k c_low); auto).
    destruct (Nat.eq_dec j f_low) as [-> | Hne].
    + rewrite <- Hlow in Hjx. injection Hjx as ->.
      exact (Tlt_irrefl _ H1).
    + assert (H2 : Tlt bottom x).
      { apply (increasing_uValue fkv Hf f_low j); auto. lia. }
      exact (Tlt_irrefl _ (Tlt_trans _ _ _ H1 H2)).
  - exact Hfs.
  - apply increasing_skipn. exact Hc.
  - rewrite uValue_skipn.
    replace (c_low + (c_high - c_low))%nat with c_high by lia. exact Htop.
  - intros x Hx.
    apply knot_range_values in Hx. destruct Hx as (j & Hj & Hjx).
    destruct (Nat.eq_dec j f_high) as [-> | Hne].
    + left. rewrite <- Hhigh in Hjx. congruence.
    + right. apply (increasing_uValue fkv Hf j f_high); auto. lia.
  - intros k x Hk Hx. rewrite uValue_skipn in Hx.
    apply knot_range_values.
    apply (Hnest (c_low + k)%nat x); [lia | exact Hx].
Qed.

End KnotDifference.

Lemma difference_between_knot_vectors_witness :
  _differenceBetweenKnotVectors Z.eq_dec coarse_024 0 2 fine_01234 0 4 [7]
  = Some ([7] ++ excess_knots Z.eq_dec (knot_range fine_01234 0 4) coarse_024)
  /\
  StronglySorted (knot_le Z.lt)
                 (excess_knots Z.eq_dec (knot_range fine_01234 0 4) coarse_024).
Proof.
  apply (difference_between_knot_vectors Z Z.eq_dec Z.lt Z.lt_irrefl
           Z.lt_trans coarse_024 fine_01234 0 2 0 4 [7]).
  - unfold increasing_knots, coarse_024. cbn [map fst].
    repeat (constructor; [|repeat (constructor; try lia)]). constructor.
  - unfold increasing_knots, fine_01234. cbn [map fst].
    repeat (constructor; [|repeat (constructor; try lia)]). constructor.
  - unfold same_range. cbn. repeat split; lia.
  - intros k x Hk Hx.
    assert (Hcases : k = 0%nat \/ k = 1%nat \/ k = 2%nat) by lia.
    destruct Hcases as [-> | [-> | ->]]; cbn in Hx; injection Hx as <-.
    + exists 0%nat. split; [lia | reflexivity].
    + exists 2%nat. split; [lia | reflexivity].
    + exists 4%nat. split; [lia | reflexivity].
Defined.

(** C5 as claimed, with only the coarse knots of the range among the fine
    knots of the range, fails.  With the knots 0, 1, 2, 3 as coarse and as
    fine vector, the coarse range 1..2 and the fine range 0..3, the call
    appends the knot 0: the loop starts comparing at the coarse knot 1 and
    never looks at [c_high].  The knot 0 has the same multiplicity in both
    vectors, so the claim gives the empty list; counting the coarse
    multiplicity only inside the coarse range, it gives 0 and 3.  And with
    the coarse knots 0, 1 and the fine range 0..2 of the knots 0, 1, 2, 3,
    the loop asks the coarse vector for a third knot, which it does not
    have, where the claim gives the knot 2. *)
Lemma difference_needs_same_range :
  (nested_in_range knots_0123 1 2 knots_0123 0 3 /\
   _differenceBetweenKnotVectors Z.eq_dec knots_0123 1 2 knots_0123 0 3 []
   = Some [0] /\
   excess_knots Z.eq_dec (knot_range knots_0123 0 3) knots_0123 = [] /\
   excess_knots Z.eq_dec (knot_range knots_0123 0 3) (knot_range knots_0123 1 2)
   = [0; 3]) /\
  (nested_in_range knots_01 0 1 knots_0123 0 2 /\
   _differenceBetweenKnotVectors Z.eq_dec knots_01 0 1 knots_0123 0 2 []
   = None /\
   excess_knots Z.eq_dec (knot_range knots_0123 0 2) knots_01 = [2]).
Proof.
  split.
  - split; [|repeat split; reflexivity].
    intros k x Hk Hx. exists k. split; [lia | exact Hx].
  - split; [|split; reflexivity].
    intros k x Hk Hx. exists k. split; [lia|].
    assert (Hcases : k = 0%nat \/ k = 1%nat) by lia.
    destruct Hcases as [-> | ->]; cbn in Hx; injection Hx as <-; reflexivity.
Qed.

(** ** Inserting a box into the tree twice *)

Lemma below_app (pre : box) (l h : Z) (e : box) (pos : Z) :
  below (pre ++ (l, h) :: e) (length pre) pos = pre ++ (l, pos) :: e.
Proof.
  induction pre as [|[pl ph] pre IH]; [reflexivity|].
  cbn [app length below]. rewrite IH. reflexivity.
Qed.

Lemma above_app (pre : box) (l h : Z) (e : box) (pos : Z) :
  above (pre ++ (l, h) :: e) (length pre) pos = pre ++ (pos, h) :: e.
Proof.
  induction pre as [|[pl ph] pre IH]; [reflexivity|].
  cbn [app length above]. rewrite IH. reflexivity.
Qed.

(** Two boxes that miss each other in one direction do not overlap. *)
Lemma overlaps_miss (pre bpre : box) (el eh bl bh : Z) (e b : box) :
  length pre = length bpre ->
  Z.min eh bh <= Z.max el bl ->
  overlaps (pre ++ (el, eh) :: e) (bpre ++ (bl, bh) :: b) = false.
Proof.
  revert bpre.
  induction pre as [|[pl ph] pre IH]; intros [|[ql qh] bpre] Hlen Hmiss;
    try discriminate Hlen.
  - cbn [app overlaps].
    destruct (Z.ltb_spec (Z.max el bl) (Z.min eh bh)); [lia | reflexivity].
  - cbn [app overlaps]. rewrite IH by (auto; cbn in Hlen; lia).
    apply andb_false_r.
Qed.

Lemma insert_node_Split (e b : box) (lvl axis : nat) (pos : Z)
      (lower upper : node) :
  insert_node e b lvl (Split axis pos lower upper) =
  Split axis pos (insert_node (below e axis pos) b lvl lower)
                 (insert_node (above e axis pos) b lvl upper).
Proof. reflexivity. Qed.

(** What [carve] built is left alone by a second insertion of the box. *)
Lemma insert_node_carve (lvl old : nat) :
  (old < lvl)%nat ->
  forall (e b pre bpre : box),
    length pre = length bpre ->
    insert_node (pre ++ e) (bpre ++ b) lvl (carve (length pre) e b lvl old)
    = carve (length pre) e b lvl old.
Proof.
  intros Hold.
  assert (Hleaf : forall ext bx, overlaps ext bx = false ->
                                 insert_node ext bx lvl (Leaf old) = Leaf old).
  { intros ext bx Hov. cbn [insert_node].
    destruct (Nat.leb_spec lvl old); [reflexivity|].
    rewrite Hov. reflexivity. }
  induction e as [|[el eh] e IH]; intros b pre bpre Hlen.
  - cbn [carve insert_node]. rewrite Nat.leb_refl. reflexivity.
  - destruct b as [|[bl bh] b].
    + cbn [carve insert_node]. rewrite Nat.leb_refl. reflexivity.
    + cbn [carve].
      set (inner := carve (S (length pre)) e b lvl old).
      assert (Hinner : forall x y,
                 insert_node (pre ++ (x, y) :: e) (bpre ++ (bl, bh) :: b)
                             lvl inner = inner).
      { intros x y. unfold inner.
        specialize (IH b (pre ++ [(x, y)]) (bpre ++ [(bl, bh)])).
        rewrite <- !app_assoc in IH. cbn [app] in IH.
        rewrite !length_app in IH. cbn [length] in IH.
        rewrite Nat.add_1_r in IH. apply IH. lia. }
      set (upper := if bh <? eh
                    then Split (length pre) bh inner (Leaf old) else inner).
      assert (Hupper : forall x,
                 insert_node (pre ++ (x, eh) :: e) (bpre ++ (bl, bh) :: b)
                             lvl upper = upper).
      { intros x. unfold upper.
        destruct (Z.ltb_spec bh eh) as [Hlt | Hge]; [|apply Hinner].
        rewrite insert_node_Split, below_app, above_app, Hinner.
        rewrite Hleaf; [reflexivity|].
        apply overlaps_miss; [exact Hlen | lia]. }
      destruct (Z.ltb_spec el bl) as [Hlt | Hge]; [|apply Hupper].
      rewrite insert_node_Split, below_app, above_app, Hupper.
      rewrite Hleaf; [reflexivity|].
      apply overlaps_miss; [exact Hlen | lia].
Qed.

Lemma insert_node_idempotent (b : box) (lvl : nat) (n : node) :
  forall e : box,
    insert_node e b lvl (insert_node e b lvl n) = insert_node e b lvl n.
Proof.
  induction n as [old | axis pos lower IHl upper IHu]; intros e.
  - cbn [insert_node].
    destruct (Nat.leb_spec lvl old) as [Hle | Hlt].
    + cbn [insert_node].
      destruct (Nat.leb_spec lvl old); [reflexivity | lia].
    + destruct (overlaps e b) eqn:Hov.
      * apply (insert_node_carve lvl old Hlt e b [] []). reflexivity.
      * cbn [insert_node].
        destruct (Nat.leb_spec lvl old); [lia|].
        rewrite Hov. reflexivity.
  - cbn [insert_node]. rewrite IHl, IHu. reflexivity.
Qed.

Lemma insertBox_idempotent (t : gsHDomain) (low high : list Z) (lvl : nat) :
  insertBox (insertBox t low high lvl) low high lvl = insertBox t low high lvl.
Proof.
  unfold insertBox. cbn [m_extent m_root m_indexLevel m_maxInsLevel].
  f_equal.
  - unfold box_at_index_level, to_index_level.
    cbn [m_indexLevel]. apply insert_node_idempotent.
  - lia.
Qed.

Section Reinsertion.

Context {TB T : Type} `{TensorBasis TB T}.

(** C8.  Idempotent re-insertion.  Whatever the basis, the box and the
    level: when the box has been inserted and the structure rebuilt, then
    the same insertion once more succeeds and leaves the tree, all
    characteristic matrices and [size()] as they are (and with them the
    levels and the offsets: the basis is the same). *)
Theorem reinsertion_idempotent
        (s s1 : gsHTensorBasis TB gsHDomain) (k1 k2 : list Z) (lvl : Z) :
  insert_and_update k1 k2 lvl s = Returned s1 ->
  exists s2,
    insert_and_update k1 k2 lvl s1 = Returned s2 /\
    m_tree s2 = m_tree s1 /\
    m_xmatrix s2 = m_xmatrix s1 /\
    size s2 = size s1 /\
    s2 = s1.
Proof.
  unfold insert_and_update, insert_box, GISMO_ASSERT.
  destruct ((0 <=? lvl) && (lvl <=? Z.of_nat (length (m_bases s)) - 1))
    eqn:Hlvl; cbn [bind]; [|discriminate].
  intros Hs1. injection Hs1 as <-.
  cbn [update_structure with_tree m_bases m_tree].
  rewrite Hlvl. cbn [bind].
  rewrite insertBox_idempotent.
  eexists. split; [reflexivity|].
  repeat split; reflexivity.
Qed.

End Reinsertion.

Lemma reinsertion_idempotent_witness :
  exists s2,
    insert_and_update [2] [4] 1 basis_4spans_refined = Returned s2 /\
    m_tree s2 = m_tree basis_4spans_refined /\
    m_xmatrix s2 = m_xmatrix basis_4spans_refined /\
    size s2 = size basis_4spans_refined /\
    s2 = basis_4spans_refined.
Proof.
  apply (reinsertion_idempotent basis_4spans basis_4spans_refined [2] [4] 1).
  vm_compute. reflexivity.
Defined.

(** ** Levels created on demand *)

Section LazyLevels.

Context {TB T : Type} `{TensorBasis TB T}.

Local Abbreviation HTB := (gsHTensorBasis TB gsHDomain).

(** New levels are appended: the levels that were there stay. *)
Lemma more_levels_prefix (numLevels : nat) :
  forall bases : list TB,
    exists added, more_levels numLevels bases = bases ++ added.
Proof.
  induction numLevels as [|n IH]; intros bases.
  - exists []. cbn. rewrite app_nil_r. reflexivity.
  - cbn [more_levels]. destruct (back bases) as [finest|].
    + destruct (IH (bases ++ [uniformRefine finest])) as [added ->].
      exists ([uniformRefine finest] ++ added).
      rewrite app_assoc. reflexivity.
    + exists []. rewrite app_nil_r. reflexivity.
Qed.

Lemma createMoreLevels_prefix (numLevels : nat) (s : HTB) :
  exists added, m_bases (createMoreLevels numLevels s) = m_bases s ++ added.
Proof. apply more_levels_prefix. Qed.

Lemma needLevel_prefix (maxLevel : Z) (s : HTB) :
  exists added, m_bases (needLevel maxLevel s) = m_bases s ++ added.
Proof.
  unfold needLevel.
  destruct (0 <? maxLevel + 1 - Z.of_nat (length (m_bases s))).
  - apply createMoreLevels_prefix.
  - exists []. rewrite app_nil_r. reflexivity.
Qed.

Lemma run_level_call_prefix (c : level_call) (s : HTB) :
  exists added, m_bases (run_level_call c s) = m_bases s ++ added.
Proof.
  destruct c; [apply needLevel_prefix | apply createMoreLevels_prefix].
Qed.

Lemma run_level_calls_prefix (cs : list level_call) :
  forall s : HTB,
    exists added, m_bases (run_level_calls cs s) = m_bases s ++ added.
Proof.
  induction cs as [|c cs IH]; intros s.
  - exists []. cbn. rewrite app_nil_r. reflexivity.
  - cbn [run_level_calls fold_left].
    destruct (IH (run_level_call c s)) as [added Hadded].
    destruct (run_level_call_prefix c s) as [added' Hadded'].
    exists (added' ++ added).
    unfold run_level_calls in Hadded. rewrite Hadded, Hadded', app_assoc.
    reflexivity.
Qed.

(** Enough levels are there after [needLevel], when there is a level 0. *)
Lemma more_levels_length (numLevels : nat) :
  forall bases : list TB,
    bases <> [] ->
    length (more_levels numLevels bases) = (length bases + numLevels)%nat.
Proof.
  induction numLevels as [|n IH]; intros bases Hne.
  - cbn. lia.
  - cbn [more_levels]. unfold back.
    destruct (nth_error bases (length bases - 1)) as [finest|] eqn:E.
    + rewrite IH.
      * rewrite length_app. cbn. lia.
      * destruct bases; discriminate.
    + apply nth_error_None in E. destruct bases; [congruence | cbn in E; lia].
Qed.

(** C9.  Lazy level creation is idempotent and monotonic.  [needLevel(n)]
    for a level [n] that is there returns the basis as it is, which is
    also what [tensorLevel(n)] leaves behind; and after any sequence of
    calls of [needLevel] and [createMoreLevels] the levels that were
    there are still there, followed by the new ones, so the sequence of
    levels is not shorter than before. *)
Theorem lazy_levels_idempotent_monotonic (s : HTB) :
  (forall n, n < Z.of_nat (length (m_bases s)) ->
             needLevel n s = s /\ snd (tensorLevel n s) = s) /\
  (forall calls,
      firstn (length (m_bases s)) (m_bases (run_level_calls calls s))
      = m_bases s /\
      (length (m_bases s) <= length (m_bases (run_level_calls calls s)))%nat).
Proof.
  split.
  - intros n Hn.
    assert (Hneed : needLevel n s = s).
    { unfold needLevel.
      destruct (Z.ltb_spec 0 (n + 1 - Z.of_nat (length (m_bases s))));
        [lia | reflexivity]. }
    split; [exact Hneed|]. unfold tensorLevel. cbn [snd]. exact Hneed.
  - intros calls.
    destruct (run_level_calls_prefix calls s) as [added ->].
    split.
    + rewrite firstn_app, Nat.sub_diag, firstn_all. cbn [firstn].
      apply app_nil_r.
    + rewrite length_app. lia.
Qed.

(** What [needLevel] is for: with a level 0, the requested level is there
    afterwards. *)
Lemma needLevel_provides (n : Z) (s : HTB) :
  m_bases s <> [] ->
  n < Z.of_nat (length (m_bases (needLevel n s))).
Proof.
  intros Hne. unfold needLevel.
  destruct (Z.ltb_spec 0 (n + 1 - Z.of_nat (length (m_bases s)))); [|lia].
  unfold createMoreLevels, with_bases. cbn [m_bases].
  rewrite more_levels_length by exact Hne. lia.
Qed.

End LazyLevels.

Lemma lazy_levels_idempotent_monotonic_witness :
  needLevel 1 basis_4spans = basis_4spans /\
  snd (tensorLevel 1 basis_4spans) = basis_4spans.
Proof.
  apply (proj1 (lazy_levels_idempotent_monotonic basis_4spans) 1).
  vm_compute. reflexivity.
Defined.

(** ** The checks of the constructors *)

Section ConstructorChecks.

Context {TB HD T : Type} `{TensorBasis TB T}.

Variable d : nat.

Local Abbreviation HTB := (gsHTensorBasis TB HD).

Variable initialize_class : TB -> outcome HTB.
Variable update_structure : HTB -> outcome HTB.
Variable insert_box : list Z -> list Z -> Z -> HTB -> outcome HTB.
Variable needLevel : Z -> HTB -> outcome HTB.
Variable tree_query3 : HD -> list Z -> list Z -> Z -> Z.
Variable tree_insertBox : HD -> list Z -> list Z -> Z -> outcome HD.

(** Three constructors stop at a level count that is not positive. *)
Lemma ctor_uniform_checks_nlevels (tbasis : TB) (nlevels : Z) :
  nlevels <= 0 ->
  ctor_uniform initialize_class update_structure tbasis nlevels
  = Aborted "Invalid number of levels.".
Proof.
  intros Hn. unfold ctor_uniform, GISMO_ASSERT.
  destruct (Z.ltb_spec 0 nlevels); [lia | reflexivity].
Qed.

Lemma ctor_index_boxes_checks_nlevels (tbasis : TB) (nlevels : Z)
      (boxes : list Z) :
  nlevels <= 0 ->
  ctor_index_boxes d initialize_class update_structure insert_box
                   tbasis nlevels boxes
  = Aborted "Invalid number of levels.".
Proof.
  intros Hn. unfold ctor_index_boxes, GISMO_ASSERT.
  destruct (Z.ltb_spec 0 nlevels); [lia | reflexivity].
Qed.

Lemma ctor_physical_boxes_checks_nlevels (tbasis : TB) (nlevels : Z)
      (boxes : gsMatrix T) :
  rows boxes = Z.of_nat d -> Z.rem (cols boxes) 2 = 0 ->
  nlevels <= 0 ->
  ctor_physical_boxes d initialize_class update_structure insert_box
                      tree_query3 tbasis nlevels boxes
  = Aborted "Invalid number of levels.".
Proof.
  intros Hr Hc Hn. unfold ctor_physical_boxes, GISMO_ASSERT.
  rewrite Hr, Hc, Z.eqb_refl. cbn [Z.eqb bind].
  destruct (Z.ltb_spec 0 nlevels); [lia | reflexivity].
Qed.

(** A flat vector of boxes whose length is no multiple of [2d+1] stops
    the constructor, once the basis is initialised. *)
Lemma ctor_index_boxes_checks_length (tbasis : TB) (nlevels : Z)
      (boxes : list Z) (s : HTB) :
  0 < nlevels ->
  initialize_class tbasis = Returned s ->
  Z.of_nat (length boxes) mod (2 * Z.of_nat d + 1) <> 0 ->
  ctor_index_boxes d initialize_class update_structure insert_box
                   tbasis nlevels boxes
  = Aborted "The points did not define boxes properly. The basis was created without any domain structure.".
Proof.
  intros Hn Hinit Hlen. unfold ctor_index_boxes, GISMO_ASSERT.
  destruct (Z.ltb_spec 0 nlevels); [|lia]. cbn [bind].
  rewrite Hinit. cbn [bind].
  destruct (Z.eqb_spec (Z.of_nat (length boxes) mod (2 * Z.of_nat d + 1)) 0);
    [contradiction | reflexivity].
Qed.

(** A box matrix with the wrong number of rows or an odd number of
    columns stops both constructors that take one. *)
Lemma ctor_physical_boxes_checks_shape (tbasis : TB) (nlevels : Z)
      (boxes : gsMatrix T) :
  rows boxes <> Z.of_nat d \/ Z.rem (cols boxes) 2 <> 0 ->
  exists msg,
    ctor_physical_boxes d initialize_class update_structure insert_box
                        tree_query3 tbasis nlevels boxes
    = Aborted msg.
Proof.
  intros Hshape. unfold ctor_physical_boxes, GISMO_ASSERT.
  destruct (Z.eqb_spec (rows boxes) (Z.of_nat d)) as [Hr | Hr];
    [|eexists; reflexivity].
  destruct (Z.eqb_spec (Z.rem (cols boxes) 2) 0) as [Hc | Hc];
    [|eexists; reflexivity].
  destruct Hshape; contradiction.
Qed.

Lemma ctor_boxes_with_levels_checks_shape (tbasis : TB) (nlevels : Z)
      (boxes : gsMatrix T) (levels : list Z) :
  rows boxes <> Z.of_nat d \/ Z.rem (cols boxes) 2 <> 0 ->
  exists msg,
    ctor_boxes_with_levels d initialize_class update_structure needLevel
                           tree_insertBox tbasis nlevels boxes levels
    = Aborted msg.
Proof.
  intros Hshape. unfold ctor_boxes_with_levels, GISMO_ASSERT.
  destruct (Z.eqb_spec (rows boxes) (Z.of_nat d)) as [Hr | Hr];
    [|eexists; reflexivity].
  destruct (Z.eqb_spec (Z.rem (cols boxes) 2) 0) as [Hc | Hc];
    [|eexists; reflexivity].
  destruct Hshape; contradiction.
Qed.

(** The constructor with a level for every box never looks at
    [nlevels]. *)
Lemma ctor_boxes_with_levels_any_nlevels (tbasis : TB) (nlevels nlevels' : Z)
      (boxes : gsMatrix T) (levels : list Z) :
  ctor_boxes_with_levels d initialize_class update_structure needLevel
                         tree_insertBox tbasis nlevels boxes levels
  = ctor_boxes_with_levels d initialize_class update_structure needLevel
                           tree_insertBox tbasis nlevels' boxes levels.
Proof. reflexivity. Qed.

(** *** The level at which a box in parameter coordinates is inserted *)

Lemma corners_nth (f : nat -> Z) (j : nat) :
  (j < d)%nat -> nth j (map f (seq 0 d)) 0 = f j.
Proof.
  intros Hj.
  rewrite (nth_indep _ 0 (f 0%nat)) by (rewrite length_map, length_seq; lia).
  rewrite map_nth, seq_nth by lia. reflexivity.
Qed.

(** The loop of the constructor is one pass per box, in the order of the
    columns. *)
Lemma for_loop_passes {A : Type} (body : nat -> A -> outcome A) (n : nat) :
  forall (i : nat) (s : A),
    for_loop n body i s = passes_in_order body (seq i n) s.
Proof.
  induction n as [|n IH]; intros i s; [reflexivity|].
  cbn [for_loop seq passes_in_order].
  destruct (body i s) as [s' | msg |]; cbn [bind]; [apply IH | | ];
    reflexivity.
Qed.

Lemma passes_in_order_app {A : Type} (pass : nat -> A -> outcome A)
      (done todo : list nat) (s : A) :
  passes_in_order pass (done ++ todo) s
  = (s' <- passes_in_order pass done s ;; passes_in_order pass todo s').
Proof.
  revert s. induction done as [|i done IH]; intros s; [reflexivity|].
  cbn [app passes_in_order].
  destruct (pass i s) as [s' | msg |]; cbn [bind]; [apply IH | | ];
    reflexivity.
Qed.

Lemma seq_around (i n : nat) :
  (i < n)%nat -> seq 0 n = seq 0 i ++ i :: seq (S i) (n - S i).
Proof.
  intros Hi. replace n with (i + S (n - S i))%nat at 1 by lia.
  rewrite seq_app. reflexivity.
Qed.

(** What the pass for the box [i] does once [m_bases.back()] is there:
    [query3] on the corners in the finest level, then the read of
    [m_bases[level+1]]. *)
Lemma insert_physical_box_pass (boxes : gsMatrix T) (i : nat) (s : HTB)
      (finest : TB) :
  back (m_bases s) = Some finest ->
  insert_physical_box d update_structure insert_box tree_query3 boxes i s
  = match
      vec_at (m_bases s)
        (tree_query3 (m_tree s)
           (map (fun j => Uniquefindspan finest j (coeff boxes j (2 * i)))
                (seq 0 d))
           (map (fun j => uadd (Uniquefindspan finest j
                                  (coeff boxes j (2 * i + 1))) 1)
                (seq 0 d))
           (Z.of_nat (length (m_bases s)) - 1) + 1)
    with
    | Some finer =>
        s' <- insert_box
                (map (fun j => Uniquefindspan finer j (coeff boxes j (2 * i)))
                     (seq 0 d))
                (map (fun j => uadd (Uniquefindspan finer j
                                       (coeff boxes j (2 * i + 1))) 1)
                     (seq 0 d))
                (tree_query3 (m_tree s)
                   (map (fun j => Uniquefindspan finest j
                                    (coeff boxes j (2 * i)))
                        (seq 0 d))
                   (map (fun j => uadd (Uniquefindspan finest j
                                          (coeff boxes j (2 * i + 1))) 1)
                        (seq 0 d))
                   (Z.of_nat (length (m_bases s)) - 1) + 1) s ;;
        update_structure s'
    | None => Undefined
    end.
Proof.
  intros Hback. unfold insert_physical_box. rewrite Hback. reflexivity.
Qed.

(** C4.  Insertion level for boxes in parameter coordinates.  The
    constructor has passed its checks, has initialised the basis and has
    dealt with the boxes before the box [i], in the columns [2i] and
    [2i+1].  With [k1], [k2] the corners of this box in the knot spans of
    the finest level that is there ([k2] one past the span of the upper
    corner), [level] is what [query3] answers on [k1], [k2] with the bound
    [m_bases.size()-1].  When [m_bases[level+1]] is there, the corners are
    computed again in its knot spans, the box is inserted with them at
    [level+1], [update_structure] follows and the constructor goes on to
    the next box.  When it is not, and so whenever [query3] answers its
    bound, the finest level, the constructor has read [m_bases] past its
    end before any insertion: no level is created here, as [tensorLevel]
    and the constructor with a level for every box do with [needLevel]. *)
Theorem physical_box_insertion_level
        (tbasis : TB) (nlevels : Z) (boxes : gsMatrix T) (s0 : HTB)
        (i : nat) (s : HTB) (finest : TB) (level : Z) (k1 k2 : list Z) :
  rows boxes = Z.of_nat d -> Z.rem (cols boxes) 2 = 0 -> 0 < nlevels ->
  initialize_class tbasis = Returned s0 ->
  (i < Z.to_nat (Z.quot (cols boxes) 2))%nat ->
  passes_in_order
    (insert_physical_box d update_structure insert_box tree_query3 boxes)
    (seq 0 i) s0 = Returned s ->
  back (m_bases s) = Some finest ->
  length k1 = d -> length k2 = d ->
  (forall j, (j < d)%nat ->
             nth j k1 0 = Uniquefindspan finest j (coeff boxes j (2 * i)) /\
             nth j k2 0 =
               uadd (Uniquefindspan finest j (coeff boxes j (2 * i + 1))) 1) ->
  level = tree_query3 (m_tree s) k1 k2 (Z.of_nat (length (m_bases s)) - 1) ->
  (level = Z.of_nat (length (m_bases s)) - 1 ->
   ctor_physical_boxes d initialize_class update_structure insert_box
                       tree_query3 tbasis nlevels boxes
   = Undefined) /\
  match vec_at (m_bases s) (level + 1) with
  | Some finer =>
      exists k1' k2',
        length k1' = d /\ length k2' = d /\
        (forall j, (j < d)%nat ->
           nth j k1' 0 = Uniquefindspan finer j (coeff boxes j (2 * i)) /\
           nth j k2' 0 =
             uadd (Uniquefindspan finer j (coeff boxes j (2 * i + 1))) 1) /\
        ctor_physical_boxes d initialize_class update_structure insert_box
                            tree_query3 tbasis nlevels boxes
        = (s' <- insert_box k1' k2' (level + 1) s ;;
           s'' <- update_structure s' ;;
           passes_in_order
             (insert_physical_box d update_structure insert_box tree_query3
                                  boxes)
             (seq (S i) (Z.to_nat (Z.quot (cols boxes) 2) - S i)) s'')
  | None =>
      ctor_physical_boxes d initialize_class update_structure insert_box
                          tree_query3 tbasis nlevels boxes
      = Undefined
  end.
Proof.
  intros Hr Hc Hn Hinit Hi Hreached Hback Hk1 Hk2 Hk Hlevel.
  assert (Ek1 : k1 = map (fun j => Uniquefindspan finest j
                                     (coeff boxes j (2 * i))) (seq 0 d)).
  { apply (nth_ext _ _ 0 0).
    - rewrite length_map, length_seq. exact Hk1.
    - intros j Hj. rewrite Hk1 in Hj. rewrite corners_nth by exact Hj.
      apply Hk. exact Hj. }
  assert (Ek2 : k2 = map (fun j => uadd (Uniquefindspan finest j
                                     (coeff boxes j (2 * i + 1))) 1)
                         (seq 0 d)).
  { apply (nth_ext _ _ 0 0).
    - rewrite length_map, length_seq. exact Hk2.
    - intros j Hj. rewrite Hk2 in Hj. rewrite corners_nth by exact Hj.
      apply Hk. exact Hj. }
  assert (Hctor :
            ctor_physical_boxes d initialize_class update_structure insert_box
                                tree_query3 tbasis nlevels boxes
            = (s' <- insert_physical_box d update_structure insert_box
                       tree_query3 boxes i s ;;
               passes_in_order
                 (insert_physical_box d update_structure insert_box
                                      tree_query3 boxes)
                 (seq (S i) (Z.to_nat (Z.quot (cols boxes) 2) - S i)) s')).
  { unfold ctor_physical_boxes, GISMO_ASSERT.
    rewrite Hr, Hc, Z.eqb_refl. cbn [Z.eqb bind].
    destruct (Z.ltb_spec 0 nlevels); [|lia]. cbn [bind].
    rewrite Hinit. cbn [bind].
    rewrite for_loop_passes, (seq_around i _ Hi), passes_in_order_app.
    rewrite Hreached. reflexivity. }
  rewrite (insert_physical_box_pass boxes i s finest Hback) in Hctor.
  rewrite <- Ek1, <- Ek2, <- Hlevel in Hctor.
  assert (Hnone : vec_at (m_bases s) (level + 1) = None ->
                  ctor_physical_boxes d initialize_class update_structure
                                      insert_box tree_query3 tbasis nlevels
                                      boxes
                  = Undefined).
  { intros Hv. rewrite Hv in Hctor. exact Hctor. }
  split.
  - intros Hfinest. apply Hnone. apply vec_at_outside. lia.
  - destruct (vec_at (m_bases s) (level + 1)) as [finer|] eqn:Hfiner;
      [|apply Hnone; reflexivity].
    exists (map (fun j => Uniquefindspan finer j (coeff boxes j (2 * i)))
                (seq 0 d)),
           (map (fun j => uadd (Uniquefindspan finer j
                                  (coeff boxes j (2 * i + 1))) 1)
                (seq 0 d)).
    split; [rewrite length_map, length_seq; reflexivity|].
    split; [rewrite length_map, length_seq; reflexivity|].
    split.
    + intros j Hj. rewrite !corners_nth by exact Hj. split; reflexivity.
    + rewrite Hctor.
      destruct (insert_box _ _ (level + 1) s) as [s' | msg |];
        reflexivity.
Qed.

End ConstructorChecks.

Lemma physical_box_insertion_level_witness :
  (exists k1' k2',
      length k1' = 1%nat /\ length k2' = 1%nat /\
      (forall j, (j < 1)%nat ->
         nth j k1' 0
         = Uniquefindspan {| ub_spans := 8; ub_degree := 1 |} j
                          (coeff same_box_thrice j (2 * 0)) /\
         nth j k2' 0
         = uadd (Uniquefindspan {| ub_spans := 8; ub_degree := 1 |} j
                                (coeff same_box_thrice j (2 * 0 + 1))) 1) /\
      example_ctor_three_levels {| ub_spans := 4; ub_degree := 1 |} 1
                                same_box_thrice
      = (s' <- insert_box k1' k2' (0 + 1) basis_three_levels ;;
         s'' <- Returned (update_structure s') ;;
         passes_in_order example_pass_three_levels
                         (seq 1 (Z.to_nat (Z.quot 6 2) - 1)) s'')) /\
  example_ctor_three_levels {| ub_spans := 4; ub_degree := 1 |} 1
                            same_box_thrice
  = Undefined.
Proof.
  split.
  - exact (proj2 (physical_box_insertion_level 1
             (fun tb : uniformBSpline => Returned (initialize_class 2 2 tb))
             (fun s => Returned (update_structure s))
             insert_box
             (fun t low high lvl =>
                Z.of_nat (query3 t low high (Z.to_nat lvl)))
             {| ub_spans := 4; ub_degree := 1 |} 1 same_box_thrice
             basis_three_levels 0 basis_three_levels
             {| ub_spans := 16; ub_degree := 1 |} 0 [4] [9]
             eq_refl eq_refl eq_refl eq_refl
             ltac:(vm_compute; lia) eq_refl eq_refl eq_refl eq_refl
             ltac:(intros j Hj; assert (j = 0%nat) by lia; subst j;
                   split; vm_compute; reflexivity)
             ltac:(vm_compute; reflexivity))).
  - apply (proj1 (physical_box_insertion_level 1
             (fun tb : uniformBSpline => Returned (initialize_class 2 2 tb))
             (fun s => Returned (update_structure s))
             insert_box
             (fun t low high lvl =>
                Z.of_nat (query3 t low high (Z.to_nat lvl)))
             {| ub_spans := 4; ub_degree := 1 |} 1 same_box_thrice
             basis_three_levels 2 basis_after_two_boxes
             {| ub_spans := 16; ub_degree := 1 |} 2 [4] [9]
             eq_refl eq_refl eq_refl eq_refl
             ltac:(vm_compute; lia)
             ltac:(vm_compute; reflexivity) eq_refl eq_refl eq_refl
             ltac:(intros j Hj; assert (j = 0%nat) by lia; subst j;
                   split; vm_compute; reflexivity)
             ltac:(vm_compute; reflexivity))).
    reflexivity.
Defined.

(** C7, the constructor that misses the check.  The constructor with a
    level for every box is given the level count 0, a box matrix of the
    right shape and the level 1 for its one box: none of its three
    assertions is about [nlevels], and it builds a basis, the same as for
    any other level count. *)
Theorem ctor_boxes_with_levels_accepts_zero_levels :
  example_ctor_boxes_with_levels {| ub_spans := 4; ub_degree := 1 |} 0
                                 one_box [1]
  = Returned
      {| m_bases := [{| ub_spans := 4; ub_degree := 1 |};
                     {| ub_spans := 8; ub_degree := 1 |}];
         m_xmatrix := [[0; 4]; [3; 4]];
         m_tree := {| m_extent := [(0, 16)];
                      m_root := Split 0 4 (Leaf 0) (Split 0 10 (Leaf 1) (Leaf 0));
                      m_indexLevel := 2;
                      m_maxInsLevel := 1 |};
         m_xmatrix_offset := [0; 2; 4] |} /\
  example_ctor_physical_boxes {| ub_spans := 4; ub_degree := 1 |} 0 one_box
  = Aborted "Invalid number of levels.".
Proof. split; vm_compute; reflexivity. Qed.

(** * Further properties *)

(** ** The global numbering is the concatenation of the matrices *)

Lemma concat_firstn_succ (xs : list (list Z)) :
  forall l : nat,
    (l < length xs)%nat ->
    length (concat (firstn (S l) xs))
    = (length (concat (firstn l xs)) + length (nth l xs []))%nat.
Proof.
  induction xs as [|cm xs IH]; intros l Hl; [cbn in Hl; lia|].
  destruct l as [|l].
  - cbn. rewrite app_nil_r. reflexivity.
  - change (firstn (S (S l)) (cm :: xs)) with (cm :: firstn (S l) xs).
    change (firstn (S l) (cm :: xs)) with (cm :: firstn l xs).
    cbn [concat nth]. rewrite !length_app.
    rewrite IH by (cbn in Hl; lia). lia.
Qed.

Lemma concat_nth (xs : list (list Z)) :
  forall l p : nat,
    (l < length xs)%nat ->
    (p < length (nth l xs []))%nat ->
    nth (length (concat (firstn l xs)) + p) (concat xs) 0
    = nth p (nth l xs []) 0.
Proof.
  induction xs as [|cm xs IH]; intros l p Hl Hp; [cbn in Hl; lia|].
  destruct l as [|l].
  - cbn [firstn concat length nth Nat.add] in *.
    apply app_nth1. exact Hp.
  - change (firstn (S l) (cm :: xs)) with (cm :: firstn l xs).
    cbn [concat nth] in *. rewrite length_app.
    rewrite app_nth2 by lia.
    replace (length cm + length (concat (firstn l xs)) + p - length cm)%nat
      with (length (concat (firstn l xs)) + p)%nat by lia.
    apply IH; [cbn in Hl; lia | exact Hp].
Qed.

Lemma strongly_sorted_nth (cm : list Z) :
  StronglySorted Z.lt cm ->
  forall p q : nat, (p < q < length cm)%nat -> nth p cm 0 < nth q cm 0.
Proof.
  induction 1 as [|a cm Hs IH Hall]; intros p q Hpq; [cbn in Hpq; lia|].
  destruct q as [|q]; [lia|].
  destruct p as [|p].
  - cbn [nth]. rewrite Forall_forall in Hall. apply Hall.
    apply nth_In. cbn in Hpq. lia.
  - cbn [nth]. apply IH. cbn in Hpq. lia.
Qed.

Section NumberingOrder.

Context {TB HD : Type}.
Variable b : gsHTensorBasis TB HD.
Hypothesis Hok : offsets_ok b.

(** The offset of a level is the number of entries of the matrices before
    it. *)
Lemma offset_at_concat (l : nat) :
  (l <= length (m_xmatrix b))%nat ->
  offset_at b (Z.of_nat l)
  = Z.of_nat (length (concat (firstn l (m_xmatrix b)))).
Proof.
  induction l as [|l IH]; intros Hl.
  - change (Z.of_nat 0) with 0. rewrite (offset_at_0 b Hok). reflexivity.
  - replace (Z.of_nat (S l)) with (Z.of_nat l + 1) by lia.
    rewrite (offset_at_succ b Hok) by (unfold numLevels; lia).
    rewrite IH by lia. rewrite concat_firstn_succ by lia.
    unfold cmatrix_size. rewrite Nat2Z.id. lia.
Qed.

Lemma size_concat : size b = Z.of_nat (length (concat (m_xmatrix b))).
Proof.
  rewrite (size_is_last_offset b Hok). unfold numLevels.
  rewrite offset_at_concat by lia. rewrite firstn_all. reflexivity.
Qed.

(** What [flatTensorIndexOf] returns for a valid index. *)
Lemma flatTensorIndexOf_value (i : Z) :
  0 <= i < size b ->
  flatTensorIndexOf b i
  = Some (nth (Z.to_nat (i - offset_at b (levelOf b i)))
              (nth (Z.to_nat (levelOf b i)) (m_xmatrix b) []) 0).
Proof.
  intros Hi.
  destruct (levelOf_in_range b Hok i Hi) as (Hlev & _).
  destruct (position_in_level b Hok i Hi) as (Hsub & Hpos).
  change (flatTensorIndexOf b i)
    with (flatTensorIndexOf_level b i (levelOf b i)).
  rewrite flatTensorIndexOf_level_inside by assumption.
  rewrite Hsub. apply vec_at_inside. exact Hpos.
Qed.

(** X1.  The global numbering is the concatenation of the characteristic
    matrices in the order of the levels: [size()] is the number of all
    their entries, and for a valid global index [i], [flatTensorIndexOf(i)]
    is the [i]-th entry of the concatenation. *)
Theorem numbering_is_concatenation (i : Z) :
  0 <= i < size b ->
  size b = Z.of_nat (length (concat (m_xmatrix b))) /\
  flatTensorIndexOf b i = nth_error (concat (m_xmatrix b)) (Z.to_nat i).
Proof.
  intros Hi. split; [exact size_concat|].
  rewrite (flatTensorIndexOf_value i Hi).
  destruct (levelOf_in_range b Hok i Hi) as (Hlev & Hlo & _).
  destruct (position_in_level b Hok i Hi) as (_ & Hpos).
  unfold numLevels in Hlev. unfold cmatrix_size in Hpos.
  remember (Z.to_nat (levelOf b i)) as l eqn:El.
  assert (Hoff : offset_at b (levelOf b i)
                 = Z.of_nat (length (concat (firstn l (m_xmatrix b))))).
  { rewrite <- offset_at_concat by lia.
    rewrite El, Z2Nat.id by lia. reflexivity. }
  assert (Hsplit : Z.to_nat i
                   = (length (concat (firstn l (m_xmatrix b)))
                      + Z.to_nat (i - offset_at b (levelOf b i)))%nat) by lia.
  rewrite Hsplit.
  rewrite <- (concat_nth (m_xmatrix b) l) by lia.
  symmetry. apply nth_error_nth'.
  rewrite size_concat in Hi. lia.
Qed.

(** The level never decreases along the global numbering. *)
Lemma levelOf_monotone (i j : Z) :
  0 <= i -> i <= j -> j < size b -> levelOf b i <= levelOf b j.
Proof.
  intros Hi Hij Hj.
  destruct (levelOf_in_range b Hok i ltac:(lia)) as (Hli & Hlo & _).
  destruct (levelOf_in_range b Hok j ltac:(lia)) as (Hlj & _ & Hhi).
  destruct (Z_le_gt_dec (levelOf b i) (levelOf b j)) as [H | H]; [exact H|].
  assert (offset_at b (levelOf b j + 1) <= offset_at b (levelOf b i))
    by (apply offset_at_monotone; auto; lia).
  lia.
Qed.

(** X2.  The global numbering is sorted by level and, inside a level, by
    tensor index: for valid global indices [i < j], either the level of
    [i] is below the level of [j], or the levels agree and the tensor
    index of [i] is below the one of [j].  So two global indices never
    stand for the same function of the same level. *)
Theorem numbering_is_lexicographic (i j : Z) :
  matrices_sorted b ->
  0 <= i -> i < j -> j < size b ->
  exists ti tj,
    flatTensorIndexOf b i = Some ti /\
    flatTensorIndexOf b j = Some tj /\
    (levelOf b i < levelOf b j \/
     (levelOf b i = levelOf b j /\ ti < tj)).
Proof.
  intros Hsorted Hi Hij Hj.
  rewrite (flatTensorIndexOf_value i) by lia.
  rewrite (flatTensorIndexOf_value j) by lia.
  eexists. eexists. split; [reflexivity|]. split; [reflexivity|].
  pose proof (levelOf_monotone i j Hi ltac:(lia) Hj) as Hmono.
  destruct (Z.eq_dec (levelOf b i) (levelOf b j)) as [Heq | Hne];
    [right | left; lia].
  split; [exact Heq|].
  destruct (levelOf_in_range b Hok j ltac:(lia)) as (Hlj & _).
  destruct (position_in_level b Hok i ltac:(lia)) as (_ & Hpi).
  destruct (position_in_level b Hok j ltac:(lia)) as (_ & Hpj).
  rewrite Heq in *. unfold cmatrix_size in *.
  apply strongly_sorted_nth; [|lia].
  unfold matrices_sorted in Hsorted. rewrite Forall_forall in Hsorted.
  apply Hsorted. apply nth_In. unfold numLevels in Hlj. lia.
Qed.

End NumberingOrder.

Lemma numbering_is_concatenation_witness :
  size numbering_example
  = Z.of_nat (length (concat (m_xmatrix numbering_example))) /\
  flatTensorIndexOf numbering_example 4
  = nth_error (concat (m_xmatrix numbering_example)) (Z.to_nat 4).
Proof.
  apply (numbering_is_concatenation numbering_example).
  - split; [reflexivity | vm_compute; reflexivity].
  - vm_compute. split; [discriminate | reflexivity].
Defined.

Lemma numbering_is_lexicographic_witness :
  exists ti tj,
    flatTensorIndexOf numbering_example 2 = Some ti /\
    flatTensorIndexOf numbering_example 3 = Some tj /\
    (levelOf numbering_example 2 < levelOf numbering_example 3 \/
     (levelOf numbering_example 2 = levelOf numbering_example 3 /\ ti < tj)).
Proof.
  apply (numbering_is_lexicographic numbering_example).
  - split; [reflexivity | vm_compute; reflexivity].
  - unfold matrices_sorted. cbn [m_xmatrix numbering_example].
    repeat constructor.
  - lia.
  - lia.
  - vm_compute. reflexivity.
Defined.

(** ** The anchors follow the global numbering *)

Lemma length_replace_at {A : Type} (x : A) (v : list A) :
  forall k : nat, length (replace_at k x v) = length v.
Proof.
  induction v as [|y v IH]; intros k; [destruct k; reflexivity|].
  destruct k; cbn [replace_at length]; [reflexivity|].
  rewrite IH. reflexivity.
Qed.

Lemma nth_replace_at_same {A : Type} (x d : A) (v : list A) :
  forall k : nat, (k < length v)%nat -> nth k (replace_at k x v) d = x.
Proof.
  induction v as [|y v IH]; intros k Hk; [cbn in Hk; lia|].
  destruct k; cbn [replace_at nth]; [reflexivity|].
  apply IH. cbn in Hk. lia.
Qed.

Lemma nth_replace_at_other {A : Type} (x d : A) (v : list A) :
  forall k j : nat, j <> k -> nth j (replace_at k x v) d = nth j v d.
Proof.
  induction v as [|y v IH]; intros k j Hjk; [destruct k; reflexivity|].
  destruct k, j; cbn [replace_at nth]; try reflexivity; try lia.
  apply IH. lia.
Qed.

Section AnchorsOrder.

Context {TB HD T : Type}.
Variable d : nat.
Variable tensorIndex : TB -> Z -> list Z.
Variable greville : TB -> nat -> Z -> T.

Local Abbreviation column := (anchor_column d tensorIndex greville).
Local Abbreviation of_level := (anchors_of_level d tensorIndex greville).
Local Abbreviation of_levels := (anchors_of_levels d tensorIndex greville).

(** The inner loop writes the columns [k .. k + |cm|) and nothing else. *)
Lemma anchors_of_level_spec (tb : TB) (cm : list Z) :
  forall (k : nat) (result : list (list (option T))),
    (k + length cm <= length result)%nat ->
    exists r',
      of_level (Some tb) cm k result = Returned ((k + length cm)%nat, r') /\
      length r' = length result /\
      (forall p, (p < length cm)%nat ->
                 nth (k + p) r' [] = column tb (nth p cm 0)) /\
      (forall j, (j < k)%nat -> nth j r' [] = nth j result []).
Proof.
  induction cm as [|t cm IH]; intros k result Hlen.
  - exists result. cbn [anchors_of_level length].
    rewrite Nat.add_0_r. repeat split; auto. intros p Hp. cbn in Hp. lia.
  - cbn [anchors_of_level length] in *.
    destruct (Nat.ltb_spec k (length result)) as [Hk | Hk]; [|lia].
    destruct (IH (S k) (replace_at k (column tb t) result)) as
      (r' & Hrun & Hlen' & Hcols & Hbefore).
    { rewrite length_replace_at. lia. }
    exists r'. rewrite Hrun.
    replace (S k + length cm)%nat with (k + S (length cm))%nat by lia.
    split; [reflexivity|]. split; [rewrite Hlen'; apply length_replace_at|].
    split.
    + intros p Hp. destruct p as [|p].
      * rewrite Nat.add_0_r, Hbefore by lia.
        cbn [nth]. apply nth_replace_at_same. exact Hk.
      * replace (k + S p)%nat with (S k + p)%nat by lia.
        cbn [nth]. apply Hcols. lia.
    + intros j Hj. rewrite Hbefore by lia.
      apply nth_replace_at_other. lia.
Qed.

(** The outer loop writes, level after level, the columns of the
    concatenated matrices. *)
Lemma anchors_of_levels_spec (bases : list TB) (xmatrix : list (list Z)) :
  forall (i k : nat) (result : list (list (option T))),
    (i + length xmatrix <= length bases)%nat ->
    (k + length (concat xmatrix) <= length result)%nat ->
    exists r',
      of_levels bases xmatrix i k result = Returned r' /\
      length r' = length result /\
      (forall l p tb,
          (l < length xmatrix)%nat ->
          (p < length (nth l xmatrix []))%nat ->
          nth_error bases (i + l) = Some tb ->
          nth (k + length (concat (firstn l xmatrix)) + p) r' []
          = column tb (nth p (nth l xmatrix []) 0)) /\
      (forall j, (j < k)%nat -> nth j r' [] = nth j result []).
Proof.
  induction xmatrix as [|cm xmatrix IH]; intros i k result Hbases Hlen.
  - exists result. cbn [anchors_of_levels]. repeat split; auto.
    intros l p tb Hl. cbn in Hl. lia.
  - cbn [anchors_of_levels length concat] in *. rewrite length_app in Hlen.
    destruct (nth_error bases i) as [tb0|] eqn:Htb0.
    2:{ apply nth_error_None in Htb0. lia. }
    destruct (anchors_of_level_spec tb0 cm k result ltac:(lia))
      as (r1 & Hrun1 & Hlen1 & Hcols1 & Hbefore1).
    rewrite Hrun1. cbn [bind fst snd].
    destruct (IH (S i) (k + length cm)%nat r1 ltac:(lia) ltac:(lia))
      as (r' & Hrun & Hlen' & Hcols & Hbefore).
    exists r'. split; [exact Hrun|]. split; [lia|]. split.
    + intros l p tb Hl Hp Htb. destruct l as [|l].
      * cbn [firstn concat length nth] in *.
        rewrite Nat.add_0_r in *. rewrite Htb0 in Htb. injection Htb as <-.
        rewrite Hbefore by lia. apply Hcols1. exact Hp.
      * change (firstn (S l) (cm :: xmatrix)) with (cm :: firstn l xmatrix).
        cbn [concat nth] in *. rewrite length_app.
        replace (k + (length cm + length (concat (firstn l xmatrix))) + p)%nat
          with (k + length cm + length (concat (firstn l xmatrix)) + p)%nat
          by lia.
        apply Hcols; [lia | exact Hp|].
        replace (S i + l)%nat with (i + S l)%nat by lia. exact Htb.
    + intros j Hj. rewrite Hbefore by lia. apply Hbefore1. exact Hj.
Qed.

(** X3.  [anchors_into] follows the global numbering.  With a basis for
    every level that has a characteristic matrix, the call returns, all
    its reads and writes inside the vectors and the result; the result has
    [size()] columns, and its column [k] holds the Greville abscissae, in
    the [d] directions, of the function that [levelOf(k)] and
    [flatTensorIndexOf(k)] give for the global index [k]. *)
Theorem anchors_into_follows_numbering (b : gsHTensorBasis TB HD) :
  offsets_ok b ->
  (length (m_xmatrix b) <= length (m_bases b))%nat ->
  exists cols,
    anchors_into d tensorIndex greville b = Returned cols /\
    Z.of_nat (length cols) = size b /\
    (forall k tb t,
        0 <= k < size b ->
        vec_at (m_bases b) (levelOf b k) = Some tb ->
        flatTensorIndexOf b k = Some t ->
        nth (Z.to_nat k) cols []
        = map (fun r => Some (greville tb r (nth r (tensorIndex tb t) 0)))
              (seq 0 d)).
Proof.
  intros Hok Hbases. unfold anchors_into.
  pose proof (size_concat b Hok) as Hsize.
  destruct (anchors_of_levels_spec (m_bases b) (m_xmatrix b) 0 0
              (repeat (repeat None d) (Z.to_nat (size b))))
    as (cols & Hrun & Hlen & Hcols & _).
  { lia. }
  { rewrite repeat_length. lia. }
  exists cols. split; [exact Hrun|]. rewrite repeat_length in Hlen.
  split; [lia|].
  intros k tb t Hk Htb Ht.
  destruct (levelOf_in_range b Hok k Hk) as (Hlev & _).
  destruct (position_in_level b Hok k Hk) as (_ & Hpos).
  rewrite (flatTensorIndexOf_value b Hok k Hk) in Ht. injection Ht as <-.
  unfold numLevels in Hlev. unfold cmatrix_size in Hpos.
  remember (Z.to_nat (levelOf b k)) as l eqn:El.
  assert (Hoff : offset_at b (levelOf b k)
                 = Z.of_nat (length (concat (firstn l (m_xmatrix b))))).
  { rewrite <- (offset_at_concat b Hok) by lia.
    rewrite El, Z2Nat.id by lia. reflexivity. }
  replace (Z.to_nat k)
    with (0 + length (concat (firstn l (m_xmatrix b)))
          + Z.to_nat (k - offset_at b (levelOf b k)))%nat by lia.
  apply Hcols; [lia | lia |].
  unfold vec_at in Htb.
  destruct (Z.ltb_spec (levelOf b k) 0); [discriminate|].
  rewrite <- El in Htb. exact Htb.
Qed.

End AnchorsOrder.

Lemma anchors_into_follows_numbering_witness :
  exists cols,
    anchors_into 2 (fun (_ : unit) t => [t; t + 1])
                 (fun (_ : unit) r j => 10 * j + Z.of_nat r)
                 numbering_example = Returned cols /\
    Z.of_nat (length cols) = size numbering_example /\
    (forall k tb t,
        0 <= k < size numbering_example ->
        vec_at (m_bases numbering_example) (levelOf numbering_example k)
        = Some tb ->
        flatTensorIndexOf numbering_example k = Some t ->
        nth (Z.to_nat k) cols []
        = map (fun r => Some (10 * nth r [t; t + 1] 0 + Z.of_nat r))
              (seq 0 2)).
Proof.
  apply (anchors_into_follows_numbering 2 (fun (_ : unit) t => [t; t + 1])
           (fun (_ : unit) r j => 10 * j + Z.of_nat r) numbering_example).
  - split; [reflexivity | vm_compute; reflexivity].
  - cbn. lia.
Defined.

(** ** The element support of a global index *)

Section ElementSupportOfIndex.

Context {TB HD T : Type} `{TensorBasis TB T}.

(** X4.  [elementSupport_into(i, result)] for a valid global index reads
    inside its vectors, when every level with a characteristic matrix has
    a basis, and gives the element support that the basis of the level
    [levelOf(i)] has for the tensor index [flatTensorIndexOf(i)].  For an
    index at or beyond [size()] it reads [m_xmatrix] one past its end. *)
Theorem elementSupport_into_of_index (b : gsHTensorBasis TB HD) (i : Z) :
  offsets_ok b ->
  (length (m_xmatrix b) <= length (m_bases b))%nat ->
  numLevels b < UNSIGNED_MOD ->
  (0 <= i < size b ->
   exists tb t,
     vec_at (m_bases b) (levelOf b i) = Some tb /\
     flatTensorIndexOf b i = Some t /\
     elementSupport_into b i = Some (elementSupport tb (Z.to_nat t))) /\
  (size b <= i -> elementSupport_into b i = None).
Proof.
  intros Hok Hbases Hfit. split.
  - intros Hi.
    destruct (levelOf_in_range b Hok i Hi) as (Hlev & _).
    destruct (position_in_level b Hok i Hi) as (Hsub & Hpos).
    unfold numLevels in Hlev, Hfit.
    assert (Hlvl : to_unsigned (levelOf b i) = levelOf b i).
    { unfold to_unsigned. apply Z.mod_small. lia. }
    destruct (nth_error (m_bases b) (Z.to_nat (levelOf b i))) as [tb|] eqn:Htb.
    2:{ apply nth_error_None in Htb. lia. }
    assert (Hvec : vec_at (m_bases b) (levelOf b i) = Some tb).
    { unfold vec_at. destruct (Z.ltb_spec (levelOf b i) 0); [lia | exact Htb]. }
    exists tb. eexists. split; [exact Hvec|].
    split; [apply (flatTensorIndexOf_value b Hok i Hi)|].
    unfold elementSupport_into. rewrite Hlvl, Hvec.
    rewrite (vec_at_inside (m_xmatrix b) (levelOf b i) []) by lia.
    rewrite (vec_at_inside (m_xmatrix_offset b) (levelOf b i) 0)
      by (rewrite (offsets_length b Hok); lia).
    fold (offset_at b (levelOf b i)). rewrite Hsub.
    rewrite (vec_at_inside _ _ 0) by exact Hpos. reflexivity.
  - intros Hi. unfold elementSupport_into.
    rewrite (levelOf_beyond_size b i Hok Hi).
    assert (Hlvl : to_unsigned (numLevels b) = numLevels b).
    { unfold to_unsigned. apply Z.mod_small. unfold numLevels in *. lia. }
    rewrite Hlvl.
    rewrite (vec_at_outside (m_xmatrix b)) by (right; unfold numLevels; lia).
    destruct (vec_at (m_bases b) (numLevels b)); reflexivity.
Qed.

End ElementSupportOfIndex.

(** ** The largest and the smallest degree *)

Lemma fold_max_spec (f : nat -> Z) (l : list nat) :
  forall a : Z,
    a <= fold_left (fun td k => Z.max td (f k)) l a /\
    (forall k, In k l -> f k <= fold_left (fun td k => Z.max td (f k)) l a) /\
    (fold_left (fun td k => Z.max td (f k)) l a = a \/
     exists k, In k l /\ fold_left (fun td k => Z.max td (f k)) l a = f k).
Proof.
  induction l as [|k0 l IH]; intros a.
  - cbn. repeat split; [lia | intros k [] | left; reflexivity].
  - cbn [fold_left]. destruct (IH (Z.max a (f k0))) as (Ha & Hall & Hex).
    split; [lia|]. split.
    + intros k [<- | Hk]; [lia | apply Hall; exact Hk].
    + destruct Hex as [Heq | (k & Hk & Heq)].
      * destruct (Z.max_spec a (f k0)) as [[_ E] | [_ E]].
        -- right. exists k0. split; [left; reflexivity|].
           rewrite Heq. exact E.
        -- left. rewrite Heq. exact E.
      * right. exists k. split; [right; exact Hk | exact Heq].
Qed.

Lemma fold_min_spec (f : nat -> Z) (l : list nat) :
  forall a : Z,
    fold_left (fun td k => Z.min td (f k)) l a <= a /\
    (forall k, In k l -> fold_left (fun td k => Z.min td (f k)) l a <= f k) /\
    (fold_left (fun td k => Z.min td (f k)) l a = a \/
     exists k, In k l /\ fold_left (fun td k => Z.min td (f k)) l a = f k).
Proof.
  induction l as [|k0 l IH]; intros a.
  - cbn. repeat split; [lia | intros k [] | left; reflexivity].
  - cbn [fold_left]. destruct (IH (Z.min a (f k0))) as (Ha & Hall & Hex).
    split; [lia|]. split.
    + intros k [<- | Hk]; [lia | apply Hall; exact Hk].
    + destruct Hex as [Heq | (k & Hk & Heq)].
      * destruct (Z.min_spec a (f k0)) as [[_ E] | [_ E]].
        -- left. rewrite Heq. exact E.
        -- right. exists k0. split; [left; reflexivity|].
           rewrite Heq. exact E.
      * right. exists k. split; [right; exact Hk | exact Heq].
Qed.

Section Degrees.

Context {TB HD : Type}.
Variable d : nat.
Variable tb_degree : TB -> nat -> Z.

(** X5.  [maxDegree()] is the largest and [minDegree()] the smallest of the
    degrees of the [d] directions of the basis of level 0: each is the
    degree of some direction, and every direction lies between them. *)
Theorem maxDegree_minDegree_bounds (b : gsHTensorBasis TB HD) (tb0 : TB) :
  (1 <= d)%nat -> Z.of_nat d < UNSIGNED_MOD ->
  vec_at (m_bases b) 0 = Some tb0 ->
  exists M m,
    maxDegree d tb_degree b = Some M /\
    minDegree d tb_degree b = Some m /\
    (forall k, (k < d)%nat -> m <= tb_degree tb0 k <= M) /\
    (exists k, (k < d)%nat /\ M = tb_degree tb0 k) /\
    (exists k, (k < d)%nat /\ m = tb_degree tb0 k).
Proof.
  intros Hd Hfit Htb0. unfold maxDegree, minDegree. rewrite Htb0.
  assert (Hpasses : passes_from_1 d = (d - 1)%nat).
  { unfold passes_from_1. rewrite Z.mod_small by lia. lia. }
  rewrite Hpasses.
  destruct (fold_max_spec (tb_degree tb0) (seq 1 (d - 1)) (tb_degree tb0 0))
    as (Ha & Hall & Hex).
  destruct (fold_min_spec (tb_degree tb0) (seq 1 (d - 1)) (tb_degree tb0 0))
    as (Ha' & Hall' & Hex').
  eexists. eexists. split; [reflexivity|]. split; [reflexivity|].
  split; [|split].
  - intros k Hk. destruct k as [|k].
    + lia.
    + assert (Hin : In (S k) (seq 1 (d - 1))) by (apply in_seq; lia).
      specialize (Hall _ Hin). specialize (Hall' _ Hin). lia.
  - destruct Hex as [Heq | (k & Hk & Heq)].
    + exists 0%nat. split; [lia | exact Heq].
    + exists k. apply in_seq in Hk. split; [lia | exact Heq].
  - destruct Hex' as [Heq | (k & Hk & Heq)].
    + exists 0%nat. split; [lia | exact Heq].
    + exists k. apply in_seq in Hk. split; [lia | exact Heq].
Qed.

End Degrees.

Lemma elementSupport_into_of_index_witness :
  (0 <= 1 < size basis_4spans_refined ->
   exists tb t,
     vec_at (m_bases basis_4spans_refined) (levelOf basis_4spans_refined 1)
     = Some tb /\
     flatTensorIndexOf basis_4spans_refined 1 = Some t /\
     elementSupport_into basis_4spans_refined 1
     = Some (elementSupport tb (Z.to_nat t))) /\
  (size basis_4spans_refined <= 1 ->
   elementSupport_into basis_4spans_refined 1 = None).
Proof.
  apply (elementSupport_into_of_index basis_4spans_refined 1).
  - split; vm_compute; reflexivity.
  - vm_compute. lia.
  - vm_compute. reflexivity.
Defined.

Lemma maxDegree_minDegree_bounds_witness :
  exists M m,
    maxDegree 3 (fun (_ : unit) k => nth k [2; 3; 1] 0) numbering_example
    = Some M /\
    minDegree 3 (fun (_ : unit) k => nth k [2; 3; 1] 0) numbering_example
    = Some m /\
    (forall k, (k < 3)%nat -> m <= nth k [2; 3; 1] 0 <= M) /\
    (exists k, (k < 3)%nat /\ M = nth k [2; 3; 1] 0) /\
    (exists k, (k < 3)%nat /\ m = nth k [2; 3; 1] 0).
Proof.
  apply (maxDegree_minDegree_bounds 3 (fun (_ : unit) k => nth k [2; 3; 1] 0)
           numbering_example tt).
  - lia.
  - vm_compute. reflexivity.
  - reflexivity.
Defined.

(** ** What the constructors do with their boxes *)

Lemma length_encode_boxes (d : nat) (boxes : list index_box) :
  Forall (fun bx : index_box =>
            length (snd (fst bx)) = d /\ length (snd bx) = d) boxes ->
  length (encode_boxes boxes) = (length boxes * (2 * d + 1))%nat.
Proof.
  induction 1 as [|[[lvl low] high] boxes [Hl Hh] _ IH]; [reflexivity|].
  cbn [fst snd] in Hl, Hh.
  unfold encode_boxes in *. cbn [map concat encode_box] in *.
  rewrite length_app. cbn [length]. rewrite length_app, IH, Hl, Hh. lia.
Qed.

Lemma map_seq_is (f : nat -> Z) (l : list Z) :
  (forall j, (j < length l)%nat -> f j = nth j l 0) ->
  map f (seq 0 (length l)) = l.
Proof.
  intros Hf. apply (nth_ext _ _ 0 0).
  - rewrite length_map, length_seq. reflexivity.
  - intros j Hj. rewrite length_map, length_seq in Hj.
    rewrite (nth_indep _ 0 (f 0%nat)) by (rewrite length_map, length_seq; lia).
    rewrite map_nth, seq_nth by lia. apply Hf. exact Hj.
Qed.

Section ConstructorBoxes.

Context {TB HD T : Type} `{TensorBasis TB T}.

Variable d : nat.

Local Abbreviation HTB := (gsHTensorBasis TB HD).

Variable initialize_class : TB -> outcome HTB.
Variable update_structure : HTB -> outcome HTB.
Variable insert_box : list Z -> list Z -> Z -> HTB -> outcome HTB.
Variable needLevel : Z -> HTB -> outcome HTB.
Variable tree_query3 : HD -> list Z -> list Z -> Z -> Z.
Variable tree_insertBox : HD -> list Z -> list Z -> Z -> outcome HD.

(** The loop over a flat vector that holds the boxes [rest] after
    [i] boxes before them. *)
Lemma index_boxes_loop (rest : list index_box) :
  forall (pre : list Z) (i : nat) (s : HTB),
    Forall (fun bx : index_box =>
              length (snd (fst bx)) = d /\ length (snd bx) = d) rest ->
    length pre = (i * (2 * d + 1))%nat ->
    for_loop (length rest)
      (fun i s =>
         let i1 := map (fun j => nth ((2 * d + 1) * i + j + 1)
                                     (pre ++ encode_boxes rest) 0)
                       (seq 0 d) in
         let i2 := map (fun j => nth ((2 * d + 1) * i + j + d + 1)
                                     (pre ++ encode_boxes rest) 0)
                       (seq 0 d) in
         insert_box i1 i2
           (to_int (nth (i * (2 * d + 1)) (pre ++ encode_boxes rest) 0)) s)
      i s
    = insert_boxes insert_box rest s.
Proof.
  induction rest as [|[[lvl low] high] rest IH]; intros pre i s Hok Hpre;
    [reflexivity|].
  apply Forall_cons_iff in Hok. destruct Hok as [[Hl Hh] Hok].
  cbn [fst snd] in Hl, Hh.
  cbn [length for_loop insert_boxes].
  unfold encode_boxes. cbn [map concat encode_box].
  fold (encode_boxes rest).
  assert (Hlvl : nth (i * (2 * d + 1))
                     (pre ++ (lvl :: low ++ high) ++ encode_boxes rest) 0
                 = lvl).
  { rewrite app_nth2 by lia. rewrite Hpre, Nat.sub_diag. reflexivity. }
  assert (Hlow : map (fun j => nth ((2 * d + 1) * i + j + 1)
                          (pre ++ (lvl :: low ++ high) ++ encode_boxes rest) 0)
                     (seq 0 d) = low).
  { rewrite <- Hl at 1. apply map_seq_is. intros j Hj.
    rewrite app_nth2 by lia.
    replace ((2 * d + 1) * i + j + 1 - length pre)%nat with (S j) by lia.
    cbn [app nth]. rewrite <- app_assoc. apply app_nth1. exact Hj. }
  assert (Hhigh : map (fun j => nth ((2 * d + 1) * i + j + d + 1)
                          (pre ++ (lvl :: low ++ high) ++ encode_boxes rest) 0)
                      (seq 0 d) = high).
  { rewrite <- Hh at 1. apply map_seq_is. intros j Hj.
    rewrite app_nth2 by lia.
    replace ((2 * d + 1) * i + j + d + 1 - length pre)%nat
      with (S (length low + j)) by lia.
    cbn [app nth]. rewrite <- app_assoc.
    rewrite app_nth2 by lia.
    replace (length low + j - length low)%nat with j by lia.
    apply app_nth1. exact Hj. }
  cbv zeta. rewrite Hlvl, Hlow, Hhigh.
  destruct (insert_box low high (to_int lvl) s) as [s' | msg |];
    cbn [bind]; try reflexivity.
  specialize (IH (pre ++ (lvl :: low ++ high)) (S i) s' Hok).
  rewrite <- app_assoc in IH. apply IH.
  rewrite length_app. cbn [length]. rewrite length_app. lia.
Qed.

(** X6.  The constructor with a flat vector of boxes decodes the format
    "level, lower corner, upper corner": given the encoding of a list of
    boxes with corners of [d] indices each and a positive level count, it
    initialises the basis, calls [insert_box] for the boxes in their order,
    each with its corners and its level, and calls [update_structure] once
    at the end. *)
Theorem ctor_index_boxes_decodes (tbasis : TB) (nlevels : Z)
        (boxes : list index_box) :
  0 < nlevels ->
  Forall (fun bx : index_box =>
            length (snd (fst bx)) = d /\ length (snd bx) = d) boxes ->
  ctor_index_boxes d initialize_class update_structure insert_box
                   tbasis nlevels (encode_boxes boxes)
  = (s <- initialize_class tbasis ;;
     s <- insert_boxes insert_box boxes s ;;
     update_structure s).
Proof.
  intros Hn Hok. unfold ctor_index_boxes, GISMO_ASSERT.
  destruct (Z.ltb_spec 0 nlevels); [|lia]. cbn [bind].
  destruct (initialize_class tbasis) as [s | msg |]; cbn [bind];
    try reflexivity.
  rewrite (length_encode_boxes d boxes Hok).
  replace (Z.of_nat (length boxes * (2 * d + 1)))
    with (Z.of_nat (length boxes) * (2 * Z.of_nat d + 1)) by lia.
  rewrite Z.mod_mul by lia. cbn [Z.eqb bind].
  rewrite Nat.div_mul by lia.
  rewrite <- (index_boxes_loop boxes [] 0 s Hok eq_refl).
  reflexivity.
Qed.

(** X7.  The constructor with boxes in parameter coordinates checks its
    input in a fixed order before anything is built: the number of rows of
    the box matrix, then the parity of its number of columns, then the
    level count; the first check that fails gives the message. *)
Theorem ctor_physical_boxes_first_failure (tbasis : TB) (nlevels : Z)
        (boxes : gsMatrix T) :
  (rows boxes <> Z.of_nat d ->
   ctor_physical_boxes d initialize_class update_structure insert_box
                       tree_query3 tbasis nlevels boxes
   = Aborted "Points in boxes need to be of dimension d.") /\
  (rows boxes = Z.of_nat d -> Z.rem (cols boxes) 2 <> 0 ->
   ctor_physical_boxes d initialize_class update_structure insert_box
                       tree_query3 tbasis nlevels boxes
   = Aborted "Each box needs two corners but you don't provied gsHTensorBasis constructor with them.") /\
  (rows boxes = Z.of_nat d -> Z.rem (cols boxes) 2 = 0 -> nlevels <= 0 ->
   ctor_physical_boxes d initialize_class update_structure insert_box
                       tree_query3 tbasis nlevels boxes
   = Aborted "Invalid number of levels.").
Proof.
  unfold ctor_physical_boxes, GISMO_ASSERT. repeat split.
  - intros Hr.
    destruct (Z.eqb_spec (rows boxes) (Z.of_nat d)); [contradiction|].
    reflexivity.
  - intros Hr Hc. rewrite Hr, Z.eqb_refl. cbn [bind].
    destruct (Z.eqb_spec (Z.rem (cols boxes) 2) 0); [contradiction|].
    reflexivity.
  - intros Hr Hc Hn. rewrite Hr, Hc, Z.eqb_refl. cbn [Z.eqb bind].
    destruct (Z.ltb_spec 0 nlevels); [lia | reflexivity].
Qed.

(** X8.  The constructor with a level for every box and an empty vector
    of levels never builds a basis: with at least one box it stops in the
    assertion that there are enough levels, and without boxes it
    initialises the basis and then takes the maximum of the empty vector,
    which is undefined. *)
Theorem ctor_boxes_with_levels_empty_levels (tbasis : TB) (nlevels : Z)
        (boxes : gsMatrix T) (s0 : HTB) :
  rows boxes = Z.of_nat d ->
  Z.rem (cols boxes) 2 = 0 ->
  0 <= cols boxes < UNSIGNED_MOD ->
  initialize_class tbasis = Returned s0 ->
  (2 <= cols boxes ->
   ctor_boxes_with_levels d initialize_class update_structure needLevel
                          tree_insertBox tbasis nlevels boxes []
   = Aborted "We don't have enough levels for the boxes.") /\
  (cols boxes = 0 ->
   ctor_boxes_with_levels d initialize_class update_structure needLevel
                          tree_insertBox tbasis nlevels boxes []
   = Undefined).
Proof.
  intros Hr Hc Hcols Hinit. unfold ctor_boxes_with_levels, GISMO_ASSERT.
  rewrite Hr, Hc, Z.eqb_refl. cbn [Z.eqb bind length].
  split.
  - intros H2.
    assert (Hq : 1 <= Z.quot (cols boxes) 2).
    { rewrite Z.quot_div_nonneg by lia.
      apply Z.div_le_lower_bound; lia. }
    assert (Hq' : Z.quot (cols boxes) 2 < UNSIGNED_MOD).
    { rewrite Z.quot_div_nonneg by lia.
      apply Z.div_lt_upper_bound; [lia|]. unfold UNSIGNED_MOD in *. lia. }
    rewrite Z.mod_small by lia.
    destruct (Z.leb_spec (Z.quot (cols boxes) 2) (Z.of_nat 0)); [lia|].
    reflexivity.
  - intros H0. rewrite H0. cbn. rewrite Hinit. reflexivity.
Qed.

End ConstructorBoxes.

Lemma ctor_index_boxes_decodes_witness :
  ctor_index_boxes 1
    (fun tb : uniformBSpline => Returned (initialize_class 2 1 tb))
    (fun s => Returned (update_structure s)) insert_box
    {| ub_spans := 4; ub_degree := 1 |} 1 (encode_boxes [(1, [2], [4])])
  = (s <- Returned (initialize_class 2 1 {| ub_spans := 4; ub_degree := 1 |}) ;;
     s <- insert_boxes insert_box [(1, [2], [4])] s ;;
     Returned (update_structure s)).
Proof.
  apply (ctor_index_boxes_decodes 1
           (fun tb : uniformBSpline => Returned (initialize_class 2 1 tb))
           (fun s => Returned (update_structure s)) insert_box
           {| ub_spans := 4; ub_degree := 1 |} 1 [(1, [2], [4])]).
  - lia.
  - repeat constructor.
Defined.

Lemma ctor_boxes_with_levels_empty_levels_witness :
  (2 <= cols one_box ->
   example_ctor_boxes_with_levels {| ub_spans := 4; ub_degree := 1 |} 1
                                  one_box []
   = Aborted "We don't have enough levels for the boxes.") /\
  (cols one_box = 0 ->
   example_ctor_boxes_with_levels {| ub_spans := 4; ub_degree := 1 |} 1
                                  one_box []
   = Undefined).
Proof.
  apply (ctor_boxes_with_levels_empty_levels 1
           (fun tb : uniformBSpline => Returned (initialize_class 2 1 tb))
           (fun s => Returned (update_structure s))
           (fun l s => Returned (needLevel l s))
           (fun t low high lvl =>
              Returned (insertBox t low high (Z.to_nat lvl)))
           {| ub_spans := 4; ub_degree := 1 |} 1 one_box
           (initialize_class 2 1 {| ub_spans := 4; ub_degree := 1 |})).
  - reflexivity.
  - reflexivity.
  - vm_compute. split; [discriminate | reflexivity].
  - reflexivity.
Defined.

(** ** More on the difference of two knot vectors *)

Section KnotDifferenceMore.

Variable T : Type.
Variable T_eq_dec : forall x y : T, {x = y} + {x <> y}.

Local Abbreviation diff_loop := (difference_loop T_eq_dec).
Local Abbreviation mult_in := (multiplicity_in T_eq_dec).
Local Abbreviation excess := (excess_knots T_eq_dec).

Lemma difference_loop_appends (ckv fkv : gsCompactKnotVector T) :
  forall (todo c_index f_index : nat) (knots out : list T),
    diff_loop ckv fkv todo c_index f_index knots = Some out ->
    exists added,
      out = knots ++ added /\
      Forall (fun x => exists j, (f_index <= j < f_index + todo)%nat /\
                                 uValue fkv j = Some x) added.
Proof.
  induction todo as [|todo IH]; intros c_index f_index knots out Hrun.
  - cbn in Hrun. injection Hrun as <-. exists [].
    rewrite app_nil_r. split; [reflexivity | constructor].
  - cbn [difference_loop] in Hrun.
    destruct (uValue fkv f_index) as [fk|] eqn:Hfk; [|discriminate].
    destruct (uValue ckv c_index) as [ck|]; [|discriminate].
    destruct (u_multiplicityIndex fkv f_index) as [fm|]; [|discriminate].
    assert (Hrep : forall n, Forall (fun x => exists j,
                       (f_index <= j < f_index + S todo)%nat /\
                       uValue fkv j = Some x) (repeat fk n)).
    { intros n. rewrite Forall_forall. intros x Hx.
      apply repeat_spec in Hx. subst x.
      exists f_index. split; [lia | exact Hfk]. }
    assert (Hweak : forall added,
               Forall (fun x => exists j,
                         (S f_index <= j < S f_index + todo)%nat /\
                         uValue fkv j = Some x) added ->
               Forall (fun x => exists j,
                         (f_index <= j < f_index + S todo)%nat /\
                         uValue fkv j = Some x) added).
    { intros added. apply Forall_impl. intros x (j & Hj & Hx).
      exists j. split; [lia | exact Hx]. }
    destruct (T_eq_dec fk ck) as [E | E].
    + destruct (u_multiplicityIndex ckv c_index) as [cm|]; [|discriminate].
      apply IH in Hrun. destruct Hrun as (added & -> & Hadded).
      destruct (cm <? fm)%nat.
      * exists (repeat fk (fm - cm) ++ added). rewrite app_assoc.
        split; [reflexivity|]. apply Forall_app. split; [apply Hrep|].
        apply Hweak. exact Hadded.
      * exists added. split; [reflexivity | apply Hweak; exact Hadded].
    + apply IH in Hrun. destruct Hrun as (added & -> & Hadded).
      exists (repeat fk fm ++ added). rewrite app_assoc.
      split; [reflexivity|]. apply Forall_app. split; [apply Hrep|].
      apply Hweak. exact Hadded.
Qed.

(** X9.  Whatever the two knot vectors and the ranges: when the call
    returns, the old content of [knots] is still there, in front and
    unchanged, and every knot that was appended is a knot of the fine
    vector with an index in [[f_low, f_high]]. *)
Theorem difference_only_appends_fine_knots
        (ckv fkv : gsCompactKnotVector T)
        (c_low c_high f_low f_high : nat) (knots out : list T) :
  _differenceBetweenKnotVectors T_eq_dec ckv c_low c_high fkv f_low f_high
                                knots = Some out ->
  exists added,
    out = knots ++ added /\
    Forall (fun x => exists j, (f_low <= j <= f_high)%nat /\
                               uValue fkv j = Some x) added.
Proof.
  unfold _differenceBetweenKnotVectors. intros Hrun.
  apply difference_loop_appends in Hrun.
  destruct Hrun as (added & -> & Hadded).
  exists added. split; [reflexivity|].
  revert Hadded. apply Forall_impl. intros x (j & Hj & Hx).
  exists j. split; [lia | exact Hx].
Qed.

Lemma difference_loop_same (kv : gsCompactKnotVector T) (knots : list T) :
  forall todo i : nat,
    (i + todo <= length kv)%nat ->
    diff_loop kv kv todo i i knots = Some knots.
Proof.
  induction todo as [|todo IH]; intros i Hi; [reflexivity|].
  cbn [difference_loop]. unfold uValue, u_multiplicityIndex.
  destruct (nth_error kv i) as [[k m]|] eqn:Hnth.
  2:{ apply nth_error_None in Hnth. lia. }
  cbn [option_map fst snd].
  destruct (T_eq_dec k k) as [_ | Hne]; [|congruence].
  rewrite Nat.ltb_irrefl. apply IH. lia.
Qed.

(** X10.  The difference of a knot vector and itself, on one range, is
    empty: the call returns [knots] as it was. *)
Theorem difference_with_itself_is_empty
        (kv : gsCompactKnotVector T) (low high c_high : nat) (knots : list T) :
  (high < length kv)%nat ->
  _differenceBetweenKnotVectors T_eq_dec kv low c_high kv low high knots
  = Some knots.
Proof.
  intros Hhigh. unfold _differenceBetweenKnotVectors.
  destruct (le_lt_dec low (S high)) as [Hle | Hgt].
  - apply difference_loop_same. lia.
  - replace (S high - low)%nat with O by lia. reflexivity.
Qed.

End KnotDifferenceMore.

Lemma difference_only_appends_fine_knots_witness :
  exists added,
    [7; 1; 2; 3] = [7] ++ added /\
    Forall (fun x => exists j, (0 <= j <= 4)%nat /\
                               uValue fine_01234 j = Some x) added.
Proof.
  apply (difference_only_appends_fine_knots Z Z.eq_dec coarse_024 fine_01234
           0 2 0 4 [7] [7; 1; 2; 3]).
  reflexivity.
Defined.

Lemma difference_with_itself_is_empty_witness :
  _differenceBetweenKnotVectors Z.eq_dec fine_01234 1 0 fine_01234 1 3 [7]
  = Some [7].
Proof.
  apply (difference_with_itself_is_empty Z Z.eq_dec fine_01234 1 3 0 [7]).
  cbn. lia.
Defined.

(** ** The difference completes the coarse knots to the fine knots *)

Section KnotDifferenceMerge.

Variable T : Type.
Variable T_eq_dec : forall x y : T, {x = y} + {x <> y}.
Variable Tlt : T -> T -> Prop.
Hypothesis Tlt_irrefl : forall x, ~ Tlt x x.
Hypothesis Tlt_trans : forall x y z, Tlt x y -> Tlt y z -> Tlt x z.

Local Abbreviation mult_in := (multiplicity_in T_eq_dec).
Local Abbreviation excess := (excess_knots T_eq_dec).
Local Abbreviation increasing := (increasing_knots Tlt).

Lemma count_expand_knots (kv : gsCompactKnotVector T) (x : T) :
  increasing kv ->
  count_occ T_eq_dec (expand_knots kv) x = mult_in kv x.
Proof.
  induction kv as [|[k n] kv IH]; intros Hs; [reflexivity|].
  unfold expand_knots in *. cbn [flat_map fst snd].
  rewrite count_occ_app, IH by exact (increasing_tail T Tlt _ _ Hs).
  destruct (T_eq_dec k x) as [-> | Hne].
  - rewrite count_occ_repeat_eq by reflexivity.
    rewrite multiplicity_in_head, multiplicity_in_absent; [lia|].
    intros Hin. apply (Tlt_irrefl x).
    exact (increasing_head_lt T Tlt x n kv x Hs Hin).
  - rewrite count_occ_repeat_neq by congruence.
    rewrite multiplicity_in_skip by exact Hne. reflexivity.
Qed.

Lemma count_excess_knots (fs cs : gsCompactKnotVector T) (x : T) :
  increasing fs ->
  count_occ T_eq_dec (excess fs cs) x = (mult_in fs x - mult_in cs x)%nat.
Proof.
  induction fs as [|[k n] fs IH]; intros Hs; [reflexivity|].
  change (excess ((k, n) :: fs) cs)
    with (repeat k (n - mult_in cs k) ++ excess fs cs).
  rewrite count_occ_app.
  destruct (T_eq_dec k x) as [-> | Hne].
  - rewrite count_occ_repeat_eq by reflexivity.
    rewrite multiplicity_in_head.
    rewrite (proj1 (count_occ_not_In T_eq_dec (excess fs cs) x)); [lia|].
    intros Hin. apply excess_knots_values in Hin.
    apply (Tlt_irrefl x).
    exact (increasing_head_lt T Tlt x n fs x Hs Hin).
  - rewrite count_occ_repeat_neq by congruence.
    rewrite multiplicity_in_skip by exact Hne.
    apply IH. exact (increasing_tail T Tlt _ _ Hs).
Qed.

Lemma multiplicity_in_prefix (x : T) (pre cs : gsCompactKnotVector T) :
  In x (map fst pre) -> mult_in (pre ++ cs) x = mult_in pre x.
Proof.
  induction pre as [|[c m] pre IH]; intros Hin; [destruct Hin|].
  cbn [app]. destruct (T_eq_dec c x) as [-> | Hne].
  - rewrite !multiplicity_in_head. reflexivity.
  - rewrite !multiplicity_in_skip by exact Hne.
    apply IH. destruct Hin as [Hin | Hin]; [cbn in Hin; congruence | exact Hin].
Qed.

Lemma skipn_values (kv : gsCompactKnotVector T) (n : nat) (x : T) :
  In x (map fst (skipn n kv)) ->
  exists k, (n <= k)%nat /\ uValue kv k = Some x.
Proof.
  intros Hin. apply In_nth_error in Hin. destruct Hin as [k Hk].
  rewrite nth_error_map, nth_error_skipn in Hk.
  exists (n + k)%nat. split; [lia | exact Hk].
Qed.

(** X11.  Together with the coarse knots of the range, the knots that the
    call appends are the fine knots of the range.  For increasing knot
    vectors, index ranges on the same stretch of the parameter line, the
    coarse knots of the range among the fine knots of the range and no knot
    more often in the coarse than in the fine range: the coarse knots of
    the range, written out with their multiplicities, and the appended
    knots are a rearrangement of the fine knots of the range written out
    with their multiplicities. *)
Theorem difference_completes_coarse_knots
        (ckv fkv : gsCompactKnotVector T)
        (c_low c_high f_low f_high : nat) (knots : list T) :
  increasing ckv -> increasing fkv ->
  same_range ckv c_low c_high fkv f_low f_high ->
  nested_in_range ckv c_low c_high fkv f_low f_high ->
  multiplicities_nested T_eq_dec ckv c_low c_high fkv f_low f_high ->
  exists added,
    _differenceBetweenKnotVectors T_eq_dec ckv c_low c_high fkv f_low f_high
                                  knots
    = Some (knots ++ added) /\
    Permutation (expand_knots (knot_range ckv c_low c_high) ++ added)
                (expand_knots (knot_range fkv f_low f_high)).
Proof.
  intros Hc Hf (Hcr & Hfr & Hlow & Hhigh) Hnest Hmult.
  assert (Hfs : increasing (knot_range fkv f_low f_high)).
  { apply increasing_firstn, increasing_skipn. exact Hf. }
  assert (Hcs : increasing (skipn c_low ckv)).
  { apply increasing_skipn. exact Hc. }
  assert (Hcin : increasing (knot_range ckv c_low c_high)).
  { apply increasing_firstn. exact Hcs. }
  destruct (uValue ckv c_high) as [top|] eqn:Htop.
  2:{ unfold uValue in Htop.
      destruct (nth_error ckv c_high) eqn:E; [discriminate|].
      apply nth_error_None in E. lia. }
  assert (Hmax : forall x, In x (map fst (knot_range fkv f_low f_high)) ->
                           knot_le Tlt x top).
  { intros x Hx.
    apply knot_range_values in Hx. destruct Hx as (j & Hj & Hjx).
    destruct (Nat.eq_dec j f_high) as [-> | Hne].
    - left. rewrite <- Hhigh in Hjx. congruence.
    - right. apply (increasing_uValue T Tlt fkv Hf j f_high); auto. lia. }
  exists (excess (knot_range fkv f_low f_high) (skipn c_low ckv)).
  split.
  - unfold _differenceBetweenKnotVectors.
    rewrite difference_loop_shift.
    rewrite difference_loop_firstn. cbn [Nat.add].
    fold (knot_range fkv f_low f_high).
    assert (Hlen : length (knot_range fkv f_low f_high)
                   = (S f_high - f_low)%nat).
    { unfold knot_range. rewrite length_firstn, length_skipn. lia. }
    rewrite <- Hlen.
    apply (difference_loop_aligned T T_eq_dec Tlt Tlt_irrefl Tlt_trans
             (knot_range fkv f_low f_high) (skipn c_low ckv)
             (c_high - c_low) top knots); auto.
    + rewrite uValue_skipn.
      replace (c_low + (c_high - c_low))%nat with c_high by lia. exact Htop.
    + intros k x Hk Hx. rewrite uValue_skipn in Hx.
      apply knot_range_values.
      apply (Hnest (c_low + k)%nat x); [lia | exact Hx].
  - apply (Permutation_count_occ T_eq_dec). intros x.
    rewrite count_occ_app, !count_expand_knots, count_excess_knots by auto.
    specialize (Hmult x).
    assert (Hsplit : skipn c_low ckv
                     = knot_range ckv c_low c_high
                       ++ skipn (S c_high - c_low) (skipn c_low ckv)).
    { unfold knot_range. symmetry. apply firstn_skipn. }
    destruct (in_dec T_eq_dec x (map fst (knot_range ckv c_low c_high)))
      as [Hin | Hout].
    + rewrite Hsplit at 1. rewrite multiplicity_in_prefix by exact Hin. lia.
    + rewrite (multiplicity_in_absent T T_eq_dec x
                 (knot_range ckv c_low c_high)) in * by exact Hout.
      destruct (in_dec T_eq_dec x (map fst (knot_range fkv f_low f_high)))
        as [Hfin | Hfout].
      * rewrite (multiplicity_in_absent T T_eq_dec x (skipn c_low ckv));
          [lia|].
        intros Hx. rewrite Hsplit, map_app in Hx.
        apply in_app_or in Hx. destruct Hx as [Hx | Hx]; [contradiction|].
        apply skipn_values in Hx. destruct Hx as (k & Hk & Hkx).
        rewrite uValue_skipn in Hkx.
        assert (Hlt : Tlt top x).
        { apply (increasing_uValue T Tlt ckv Hc c_high (c_low + k)); auto.
          lia. }
        destruct (Hmax x Hfin) as [-> | Hle].
        -- exact (Tlt_irrefl _ Hlt).
        -- exact (Tlt_irrefl _ (Tlt_trans _ _ _ Hlt Hle)).
      * rewrite (multiplicity_in_absent T T_eq_dec x
                   (knot_range fkv f_low f_high)) by exact Hfout.
        lia.
Qed.

End KnotDifferenceMerge.

Lemma difference_completes_coarse_knots_witness :
  exists added,
    _differenceBetweenKnotVectors Z.eq_dec coarse_024 0 2 fine_01234 0 4 [7]
    = Some ([7] ++ added) /\
    Permutation (expand_knots (knot_range coarse_024 0 2) ++ added)
                (expand_knots (knot_range fine_01234 0 4)).
Proof.
  apply (difference_completes_coarse_knots Z Z.eq_dec Z.lt Z.lt_irrefl
           Z.lt_trans coarse_024 fine_01234 0 2 0 4 [7]).
  - unfold increasing_knots, coarse_024. cbn [map fst].
    repeat (constructor; [|repeat (constructor; try lia)]). constructor.
  - unfold increasing_knots, fine_01234. cbn [map fst].
    repeat (constructor; [|repeat (constructor; try lia)]). constructor.
  - unfold same_range. cbn. repeat split; lia.
  - intros k x Hk Hx.
    assert (Hcases : k = 0%nat \/ k = 1%nat \/ k = 2%nat) by lia.
    destruct Hcases as [-> | [-> | ->]]; cbn in Hx; injection Hx as <-.
    + exists 0%nat. split; [lia | reflexivity].
    + exists 2%nat. split; [lia | reflexivity].
    + exists 4%nat. split; [lia | reflexivity].
  - intros x. unfold multiplicity_in. cbn [knot_range coarse_024 fine_01234
      firstn skipn Nat.sub find fst snd].
    repeat (destruct (Z.eq_dec _ x); cbn [find fst snd]; try lia).
Defined.

(** * File names *)

(** ** The last position of a character *)

Lemma last_position_app (chars a : list ascii) :
  forall (b : list ascii) (i : nat) (found : option nat),
    last_position chars (a ++ b) i found
    = last_position chars b (i + length a) (last_position chars a i found).
Proof.
  induction a as [|c a IH]; intros b i found.
  - cbn. rewrite Nat.add_0_r. reflexivity.
  - cbn [app last_position length]. rewrite IH.
    replace (S i + length a)%nat with (i + S (length a))%nat by lia.
    reflexivity.
Qed.

Lemma last_position_free (chars s : list ascii) :
  free_of chars s ->
  forall (i : nat) (found : option nat), last_position chars s i found = found.
Proof.
  induction 1 as [|c s Hc _ IH]; intros i found; [reflexivity|].
  cbn [last_position]. rewrite Hc. apply IH.
Qed.

Lemma find_last_of_free (chars s : list ascii) :
  free_of chars s -> find_last_of s chars = npos.
Proof.
  intros Hfree. unfold find_last_of.
  rewrite last_position_free by exact Hfree. reflexivity.
Qed.

Lemma find_last_of_split (chars pre post : list ascii) (c : ascii) :
  is_one_of chars c = true ->
  free_of chars post ->
  find_last_of (pre ++ c :: post) chars = Z.of_nat (length pre).
Proof.
  intros Hc Hpost. unfold find_last_of.
  rewrite last_position_app. cbn [last_position]. rewrite Hc.
  rewrite last_position_free by exact Hpost. reflexivity.
Qed.

(** A string has no character of [chars], or a last one. *)
Lemma last_split (chars s : list ascii) :
  free_of chars s \/
  exists pre c post,
    s = pre ++ c :: post /\ is_one_of chars c = true /\ free_of chars post.
Proof.
  induction s as [|c s IH]; [left; constructor|].
  destruct IH as [Hfree | (pre & c' & post & -> & Hc' & Hpost)].
  - destruct (is_one_of chars c) eqn:Hc.
    + right. exists [], c, s. repeat split; auto.
    + left. constructor; assumption.
  - right. exists (c :: pre), c', post. repeat split; auto.
Qed.

Lemma free_of_app (chars a b : list ascii) :
  free_of chars (a ++ b) <-> free_of chars a /\ free_of chars b.
Proof. apply Forall_app. Qed.

Lemma substr_tail (pre post : list ascii) (len : Z) :
  Z.of_nat (length post) <= len ->
  substr (pre ++ post) (Z.of_nat (length pre)) len = Some post.
Proof.
  intros Hlen. unfold substr. rewrite length_app.
  destruct (Z.ltb_spec (Z.of_nat (length pre + length post))
                       (Z.of_nat (length pre))) as [H | H]; [lia|].
  rewrite Nat2Z.id, skipn_app, Nat.sub_diag, skipn_all.
  cbn [skipn app]. rewrite firstn_all2 by lia. reflexivity.
Qed.

Lemma substr_middle (pre mid post : list ascii) :
  substr (pre ++ mid ++ post) (Z.of_nat (length pre)) (Z.of_nat (length mid))
  = Some mid.
Proof.
  unfold substr. rewrite !length_app.
  destruct (Z.ltb_spec
              (Z.of_nat (length pre + (length mid + length post)))
              (Z.of_nat (length pre))) as [H | H]; [lia|].
  rewrite !Nat2Z.id, skipn_app, Nat.sub_diag, skipn_all.
  cbn [skipn app]. rewrite firstn_app, Nat.sub_diag, firstn_all.
  cbn [firstn]. rewrite app_nil_r. reflexivity.
Qed.

(** ** ends_with *)

Lemma std_equal_spec (range1 : list ascii) :
  forall range2 : list ascii,
    (length range1 <= length range2)%nat ->
    exists b, std_equal range1 range2 = Some b /\
              (b = true <-> exists rest, range2 = range1 ++ rest).
Proof.
  induction range1 as [|x r1 IH]; intros range2 Hlen.
  - exists true. split; [reflexivity|]. split; [|reflexivity].
    intros _. exists range2. reflexivity.
  - destruct range2 as [|y r2]; [cbn in Hlen; lia|].
    cbn [std_equal]. destruct (Ascii.eqb_spec x y) as [-> | Hne].
    + destruct (IH r2) as (b & Hb & Hiff); [cbn in Hlen; lia|].
      exists b. split; [exact Hb|]. rewrite Hiff. split.
      * intros (rest & ->). exists rest. reflexivity.
      * intros (rest & Hrest). injection Hrest as ->. exists rest. reflexivity.
    + exists false. split; [reflexivity|]. split; [discriminate|].
      intros (rest & Hrest). injection Hrest as E _. congruence.
Qed.

(** X12.  [ends_with(value, ending)] says whether [ending] is the end of
    [value]: it always returns, reading inside both strings, and returns
    true exactly when [value] is some string followed by [ending]. *)
Theorem ends_with_is_suffix (value ending : list ascii) :
  exists b, ends_with value ending = Some b /\
            (b = true <-> exists front, value = front ++ ending).
Proof.
  unfold ends_with.
  destruct (Nat.ltb_spec (length value) (length ending)) as [Hshort | Hlong].
  - exists false. split; [reflexivity|]. split; [discriminate|].
    intros (front & ->). rewrite length_app in Hshort. lia.
  - destruct (std_equal_spec (rev ending) (rev value)) as (b & Hb & Hiff).
    { rewrite !length_rev. exact Hlong. }
    exists b. split; [exact Hb|]. rewrite Hiff. split.
    + intros (rest & Hrest). exists (rev rest).
      rewrite <- (rev_involutive value), Hrest, rev_app_distr.
      rewrite rev_involutive. reflexivity.
    + intros (front & ->). exists (rev front). apply rev_app_distr.
Qed.

(** ** getExtension, getFilename and getBasename *)

Lemma dot_is_dot (c : ascii) : is_one_of ["."%char] c = true -> c = "."%char.
Proof.
  unfold is_one_of. cbn [existsb]. rewrite orb_false_r.
  intros Hc. apply Ascii.eqb_eq. exact Hc.
Qed.

Lemma dot_is_no_slash : is_one_of slashes "."%char = false.
Proof. reflexivity. Qed.

(** X13.  [getExtension(fn)] is what follows the last dot of [fn], in lower
    case, and the empty string when [fn] has no dot.  The last dot counts
    wherever it is: a dot in a directory name gives an "extension" that
    holds the rest of the path. *)
Theorem getExtension_after_last_dot (fn : list ascii) :
  Z.of_nat (length fn) < npos ->
  (free_of ["."%char] fn -> getExtension fn = Some []) /\
  (forall stem ext,
      fn = stem ++ "."%char :: ext ->
      free_of ["."%char] ext ->
      getExtension fn = Some (map tolower ext)).
Proof.
  intros Hlen. unfold getExtension. split.
  - intros Hfree. rewrite find_last_of_free by exact Hfree.
    rewrite Z.eqb_refl. reflexivity.
  - intros stem ext -> Hext.
    rewrite find_last_of_split by (auto; reflexivity).
    rewrite length_app in Hlen. cbn [length] in Hlen.
    unfold npos, SIZE_MOD in *.
    change (2 ^ 64) with 18446744073709551616 in *.
    destruct (Z.eqb_spec (Z.of_nat (length stem))
                         (18446744073709551616 - 1)) as [H | H]; [lia|].
    cbn [negb]. rewrite Z.mod_small by lia.
    replace (stem ++ "."%char :: ext) with ((stem ++ ["."%char]) ++ ext)
      by (rewrite <- app_assoc; reflexivity).
    replace (Z.of_nat (length stem) + 1)
      with (Z.of_nat (length (stem ++ ["."%char])))
      by (rewrite length_app; cbn [length]; lia).
    rewrite substr_tail by lia. reflexivity.
Qed.

(** X14.  [getFilename(fn)] cuts [fn] behind its last slash or backslash:
    [fn] is a directory part, empty or ending in a separator, followed by
    the result; the result has no separator, and [getFilename] of the
    result is the result. *)
Theorem getFilename_after_last_slash (fn : list ascii) :
  Z.of_nat (length fn) < npos ->
  exists dir name,
    fn = dir ++ name /\
    getFilename fn = Some name /\
    free_of slashes name /\
    (dir = [] \/
     exists dir' c, dir = dir' ++ [c] /\ is_one_of slashes c = true) /\
    getFilename name = Some name.
Proof.
  intros Hlen.
  assert (Hsame : forall name, free_of slashes name ->
                               getFilename name = Some name).
  { intros name Hfree. unfold getFilename.
    rewrite find_last_of_free by exact Hfree.
    rewrite Z.eqb_refl. reflexivity. }
  destruct (last_split slashes fn)
    as [Hfree | (pre & c & post & -> & Hc & Hpost)].
  - exists [], fn. repeat split; auto.
  - exists (pre ++ [c]), post. rewrite <- app_assoc.
    split; [reflexivity|]. split.
    + unfold getFilename. rewrite find_last_of_split by assumption.
      rewrite length_app in Hlen. cbn [length] in Hlen.
      unfold npos, SIZE_MOD in *.
      change (2 ^ 64) with 18446744073709551616 in *.
      destruct (Z.eqb_spec (Z.of_nat (length pre))
                           (18446744073709551616 - 1)) as [H | H]; [lia|].
      cbn [negb]. rewrite Z.mod_small by lia.
      change (pre ++ [c] ++ post) with (pre ++ c :: post).
      replace (pre ++ c :: post) with ((pre ++ [c]) ++ post)
        by (rewrite <- app_assoc; reflexivity).
      replace (Z.of_nat (length pre) + 1)
        with (Z.of_nat (length (pre ++ [c])))
        by (rewrite length_app; cbn [length]; lia).
      apply substr_tail. lia.
    + split; [exact Hpost|]. split; [|apply Hsame; exact Hpost].
      right. exists pre, c. split; [reflexivity | exact Hc].
Qed.

Lemma slash_is_no_dot (c : ascii) :
  is_one_of slashes c = true -> is_one_of ["."%char] c = false.
Proof.
  unfold is_one_of, slashes. cbn [existsb]. rewrite !orb_false_r.
  intros Hc. apply orb_prop in Hc.
  destruct Hc as [Hc | Hc]; apply Ascii.eqb_eq in Hc; subst c; reflexivity.
Qed.

(** X15.  [getBasename(fn)] in its three cases.  Without a dot in [fn] the
    result is [fn] itself, directories and all.  With the last dot behind
    the last separator, the result is what stands between the two, the name
    without directory and without extension.  With the last dot before the
    last separator, in a directory name, the result is everything behind
    that separator.  No case throws. *)
Theorem getBasename_cases (fn : list ascii) :
  Z.of_nat (length fn) < npos ->
  (free_of ["."%char] fn -> getBasename fn = Some fn) /\
  (forall dir name ext,
      fn = dir ++ name ++ "."%char :: ext ->
      (dir = [] \/
       exists dir' c, dir = dir' ++ [c] /\ is_one_of slashes c = true) ->
      free_of slashes name -> free_of slashes ext ->
      free_of ["."%char] ext ->
      getBasename fn = Some name) /\
  (forall dir c name,
      fn = dir ++ c :: name ->
      is_one_of slashes c = true ->
      free_of slashes name -> free_of ["."%char] name ->
      ~ free_of ["."%char] dir ->
      getBasename fn = Some name).
Proof.
  intros Hlen. unfold getBasename. split; [|split].
  - intros Hfree. rewrite find_last_of_free by exact Hfree.
    rewrite Z.eqb_refl. reflexivity.
  - intros dir name ext -> Hdir Hname Hext Hdot.
    assert (Hpos2 : find_last_of (dir ++ name ++ "."%char :: ext) ["."%char]
                    = Z.of_nat (length (dir ++ name))).
    { rewrite app_assoc. apply find_last_of_split; [reflexivity | exact Hdot]. }
    assert (Htail : free_of slashes (name ++ "."%char :: ext)).
    { apply free_of_app. split; [exact Hname|].
      constructor; [exact dot_is_no_slash | exact Hext]. }
    rewrite Hpos2. rewrite !length_app in *. cbn [length] in Hlen.
    unfold npos, SIZE_MOD in *.
    change (2 ^ 64) with 18446744073709551616 in *.
    destruct (Z.eqb_spec (Z.of_nat (length dir + length name))
                         (18446744073709551616 - 1)) as [H | H]; [lia|].
    cbn [negb].
    destruct Hdir as [-> | (dir' & c & -> & Hc)].
    + cbn [app length] in *.
      rewrite (find_last_of_free slashes) by exact Htail.
      unfold npos, SIZE_MOD. change (2 ^ 64) with 18446744073709551616.
      replace (18446744073709551616 - 1 + 1)
        with (0 + 1 * 18446744073709551616) by lia.
      rewrite Z.mod_add, Z.mod_0_l by lia.
      replace (Z.of_nat (0 + length name) - (18446744073709551616 - 1) - 1)
        with (Z.of_nat (length name) + (-1) * 18446744073709551616) by lia.
      rewrite Z.mod_add, Z.mod_small by lia.
      apply (substr_middle [] name ("."%char :: ext)).
    + rewrite <- app_assoc. cbn [app].
      rewrite (find_last_of_split slashes dir' (name ++ "."%char :: ext) c)
        by assumption.
      rewrite length_app in *. cbn [length] in *.
      rewrite Z.mod_small by lia.
      replace ((Z.of_nat (length dir' + 1 + length name)
                - Z.of_nat (length dir') - 1) mod 18446744073709551616)
        with (Z.of_nat (length name)) by (rewrite Z.mod_small; lia).
      replace (Z.of_nat (length dir') + 1)
        with (Z.of_nat (length (dir' ++ [c])))
        by (rewrite length_app; cbn [length]; lia).
      replace (dir' ++ c :: name ++ "."%char :: ext)
        with ((dir' ++ [c]) ++ name ++ "."%char :: ext)
        by (rewrite <- app_assoc; reflexivity).
      apply substr_middle.
  - intros dir c name -> Hc Hname Hnodot Hdir.
    destruct (last_split ["."%char] dir)
      as [Hfree | (p & c' & q & -> & Hc' & Hq)]; [contradiction|].
    apply dot_is_dot in Hc'. subst c'.
    assert (Hpos2 : find_last_of ((p ++ "."%char :: q) ++ c :: name)
                                 ["."%char]
                    = Z.of_nat (length p)).
    { rewrite <- app_assoc. cbn [app].
      apply find_last_of_split; [reflexivity|].
      apply free_of_app. split; [exact Hq|].
      constructor; [apply slash_is_no_dot; exact Hc | exact Hnodot]. }
    rewrite Hpos2.
    rewrite (find_last_of_split slashes (p ++ "."%char :: q) name c)
      by assumption.
    rewrite !length_app in *. cbn [length] in *.
    unfold npos, SIZE_MOD in *.
    change (2 ^ 64) with 18446744073709551616 in *.
    destruct (Z.eqb_spec (Z.of_nat (length p))
                         (18446744073709551616 - 1)) as [H | H]; [lia|].
    cbn [negb]. rewrite Z.mod_small by lia.
    replace ((p ++ "."%char :: q) ++ c :: name)
      with (((p ++ "."%char :: q) ++ [c]) ++ name)
      by (rewrite <- (app_assoc _ [c]); reflexivity).
    replace (Z.of_nat (length p + S (length q)) + 1)
      with (Z.of_nat (length ((p ++ "."%char :: q) ++ [c])))
      by (rewrite !length_app; cbn [length]; lia).
    apply substr_tail.
    replace (Z.of_nat (length p) - Z.of_nat (length p + S (length q)) - 1)
      with (18446744073709551616 - Z.of_nat (length q) - 2
            + (-1) * 18446744073709551616) by lia.
    rewrite Z.mod_add, Z.mod_small by lia. lia.
Qed.

Lemma getExtension_after_last_dot_witness :
  (free_of ["."%char] (list_ascii_of_string "dir.d/File.XML") ->
   getExtension (list_ascii_of_string "dir.d/File.XML") = Some []) /\
  (forall stem ext,
      list_ascii_of_string "dir.d/File.XML" = stem ++ "."%char :: ext ->
      free_of ["."%char] ext ->
      getExtension (list_ascii_of_string "dir.d/File.XML")
      = Some (map tolower ext)).
Proof.
  apply (getExtension_after_last_dot (list_ascii_of_string "dir.d/File.XML")).
  vm_compute. reflexivity.
Defined.

Lemma getFilename_after_last_slash_witness :
  exists dir name,
    list_ascii_of_string "a/b\c.txt" = dir ++ name /\
    getFilename (list_ascii_of_string "a/b\c.txt") = Some name /\
    free_of slashes name /\
    (dir = [] \/
     exists dir' c, dir = dir' ++ [c] /\ is_one_of slashes c = true) /\
    getFilename name = Some name.
Proof.
  apply (getFilename_after_last_slash (list_ascii_of_string "a/b\c.txt")).
  vm_compute. reflexivity.
Defined.

Lemma getBasename_cases_witness :
  (free_of ["."%char] (list_ascii_of_string "a.b/c") ->
   getBasename (list_ascii_of_string "a.b/c")
   = Some (list_ascii_of_string "a.b/c")) /\
  (forall dir name ext,
      list_ascii_of_string "a.b/c" = dir ++ name ++ "."%char :: ext ->
      (dir = [] \/
       exists dir' c, dir = dir' ++ [c] /\ is_one_of slashes c = true) ->
      free_of slashes name -> free_of slashes ext ->
      free_of ["."%char] ext ->
      getBasename (list_ascii_of_string "a.b/c") = Some name) /\
  (forall dir c name,
      list_ascii_of_string "a.b/c" = dir ++ c :: name ->
      is_one_of slashes c = true ->
      free_of slashes name -> free_of ["."%char] name ->
      ~ free_of ["."%char] dir ->
      getBasename (list_ascii_of_string "a.b/c") = Some name).
Proof.
  apply (getBasename_cases (list_ascii_of_string "a.b/c")).
  vm_compute. reflexivity.
Defined.

(** ** The search paths of gsFileRepo *)

Section FileRepoPaths.

Variable SEP : ascii.

Local Abbreviation push := (push_path SEP).
Local Abbreviation scan := (registerPaths_scan SEP).

Lemma push_path_appends (p : list ascii) (m_paths : list (list ascii)) :
  exists added,
    push p m_paths = m_paths ++ added /\
    Forall (fun q => exists q', q = q' ++ [SEP]) added /\
    (p = [] -> added = []) /\
    (forall q, p = q ++ [SEP] -> added = [p]) /\
    (forall q c, p = q ++ [c] -> c <> SEP -> added = [p ++ [SEP]]).
Proof.
  unfold push_path. destruct (rev p) as [|c r] eqn:Hrev.
  - assert (Hp : p = []).
    { rewrite <- (rev_involutive p), Hrev. reflexivity. }
    exists []. rewrite app_nil_r. repeat split; auto.
    + intros q Hq. rewrite Hq in Hp. destruct q; discriminate Hp.
    + intros q c Hq _. rewrite Hq in Hp. destruct q; discriminate Hp.
  - assert (Hp : p = rev r ++ [c]).
    { rewrite <- (rev_involutive p), Hrev. reflexivity. }
    destruct (Ascii.eqb_spec c SEP) as [-> | Hne].
    + exists [p]. repeat split; auto.
      * constructor; [|constructor]. exists (rev r). exact Hp.
      * intros ->. destruct (rev r); discriminate Hp.
      * intros q c Hq Hc. rewrite Hq in Hp.
        apply app_inj_tail in Hp. destruct Hp as [_ ->]. contradiction.
    + exists [p ++ [SEP]]. repeat split; auto.
      * constructor; [|constructor]. exists p. reflexivity.
      * intros ->. destruct (rev r); discriminate Hp.
      * intros q Hq. rewrite Hq in Hp.
        apply app_inj_tail in Hp. destruct Hp as [_ <-]. contradiction.
Qed.

Lemma registerPaths_scan_appends (from_b : list ascii) :
  forall (segment : list ascii) (m_paths : list (list ascii)),
    exists added,
      scan from_b segment m_paths = m_paths ++ added /\
      Forall (fun q => exists q', q = q' ++ [SEP]) added.
Proof.
  induction from_b as [|c rest IH]; intros segment m_paths.
  - cbn [registerPaths_scan].
    destruct (push_path_appends segment m_paths) as (added & -> & Hall & _).
    exists added. split; [reflexivity | exact Hall].
  - cbn [registerPaths_scan]. destruct (Ascii.eqb c ";"%char).
    + destruct (push_path_appends segment m_paths) as (a1 & -> & Hall1 & _).
      destruct (IH [] (m_paths ++ a1)) as (a2 & -> & Hall2).
      exists (a1 ++ a2). rewrite app_assoc. split; [reflexivity|].
      apply Forall_app. split; assumption.
    + apply IH.
Qed.

Lemma registerPaths_scan_free (from_b : list ascii) :
  free_of [";"%char] from_b ->
  forall (segment : list ascii) (m_paths : list (list ascii)),
    scan from_b segment m_paths = push (segment ++ from_b) m_paths.
Proof.
  induction 1 as [|c rest Hc _ IH]; intros segment m_paths.
  - cbn. rewrite app_nil_r. reflexivity.
  - cbn [registerPaths_scan].
    unfold is_one_of in Hc. cbn [existsb] in Hc. rewrite orb_false_r in Hc.
    rewrite Hc, IH, <- app_assoc. reflexivity.
Qed.

Lemma registerPaths_scan_app (a : list ascii) :
  forall (b segment : list ascii) (m_paths : list (list ascii)),
    scan (a ++ ";"%char :: b) segment m_paths
    = scan b [] (scan a segment m_paths).
Proof.
  induction a as [|c a IH]; intros b segment m_paths.
  - reflexivity.
  - cbn [app registerPaths_scan]. destruct (Ascii.eqb c ";"%char); apply IH.
Qed.

(** X16.  [registerPaths] keeps the paths that are registered and appends
    to them; every path it appends ends in the path separator.  Of a
    string without semicolon: the empty string registers nothing, a path
    that ends in the separator is registered as it is, and any other path
    is registered with the separator appended. *)
Theorem registerPaths_appends_closed_paths
        (paths : list ascii) (m_paths : list (list ascii)) :
  (exists added,
      registerPaths SEP paths m_paths = m_paths ++ added /\
      Forall (fun q => exists q', q = q' ++ [SEP]) added) /\
  (free_of [";"%char] paths ->
   (paths = [] -> registerPaths SEP paths m_paths = m_paths) /\
   (forall q, paths = q ++ [SEP] ->
              registerPaths SEP paths m_paths = m_paths ++ [paths]) /\
   (forall q c, paths = q ++ [c] -> c <> SEP ->
                registerPaths SEP paths m_paths
                = m_paths ++ [paths ++ [SEP]])).
Proof.
  unfold registerPaths. split; [apply registerPaths_scan_appends|].
  intros Hfree. rewrite registerPaths_scan_free by exact Hfree.
  cbn [app].
  destruct (push_path_appends paths m_paths)
    as (added & -> & _ & H0 & H1 & H2).
  split; [|split].
  - intros Hp. rewrite (H0 Hp). apply app_nil_r.
  - intros q Hq. rewrite (H1 q Hq). reflexivity.
  - intros q c Hq Hc. rewrite (H2 q c Hq Hc). reflexivity.
Qed.

(** X17.  Registering two lists of paths joined by a semicolon is
    registering the first and then the second. *)
Theorem registerPaths_of_joined_lists
        (a b : list ascii) (m_paths : list (list ascii)) :
  registerPaths SEP (a ++ ";"%char :: b) m_paths
  = registerPaths SEP b (registerPaths SEP a m_paths).
Proof. unfold registerPaths. apply registerPaths_scan_app. Qed.

Variable fileExists : list ascii -> bool.

Lemma find_in_paths_spec (paths : list (list ascii)) (fn : list ascii) :
  (fst (find_in_paths fileExists paths fn) = false /\
   snd (find_in_paths fileExists paths fn) = fn /\
   Forall (fun p => fileExists (p ++ fn) = false) paths) \/
  (fst (find_in_paths fileExists paths fn) = true /\
   exists before p after,
     paths = before ++ p :: after /\
     snd (find_in_paths fileExists paths fn) = p ++ fn /\
     fileExists (p ++ fn) = true /\
     Forall (fun q => fileExists (q ++ fn) = false) before).
Proof.
  induction paths as [|p paths IH].
  - left. cbn. repeat split. constructor.
  - cbn [find_in_paths]. destruct (fileExists (p ++ fn)) eqn:Hp.
    + right. split; [reflexivity|].
      exists [], p, paths. repeat split; auto.
    + destruct IH as [(Hf & Hs & Hall)
                     | (Hf & before & q & after & -> & Hs & Hq & Hall)].
      * left. repeat split; auto.
      * right. split; [exact Hf|].
        exists (p :: before), q, after. repeat split; auto.
Qed.

(** X18.  [find(fn)].  A name that starts with the separator, with a dot
    and the separator or with two dots and the separator is looked up as
    it is and never changed.  Any other name is looked up behind the
    search paths in their order: the call returns true exactly when the
    name exists behind one of them, and then [fn] is the name behind the
    first such path; when it returns false, [fn] is unchanged.  When it
    returns true, the file named by [fn] after the call exists. *)
Theorem find_first_search_path (m_paths : list (list ascii))
        (fn : list ascii) :
  (is_qualified SEP fn = true ->
   gsFileRepo_find SEP fileExists m_paths fn = (fileExists fn, fn)) /\
  (is_qualified SEP fn = false ->
   (fst (gsFileRepo_find SEP fileExists m_paths fn) = true <->
    Exists (fun p => fileExists (p ++ fn) = true) m_paths) /\
   (fst (gsFileRepo_find SEP fileExists m_paths fn) = true ->
    exists before p after,
      m_paths = before ++ p :: after /\
      snd (gsFileRepo_find SEP fileExists m_paths fn) = p ++ fn /\
      Forall (fun q => fileExists (q ++ fn) = false) before)) /\
  (fst (gsFileRepo_find SEP fileExists m_paths fn) = false ->
   snd (gsFileRepo_find SEP fileExists m_paths fn) = fn) /\
  (fst (gsFileRepo_find SEP fileExists m_paths fn) = true ->
   fileExists (snd (gsFileRepo_find SEP fileExists m_paths fn)) = true).
Proof.
  unfold gsFileRepo_find. destruct (is_qualified SEP fn) eqn:Hq.
  - split; [reflexivity|]. split; [discriminate|].
    cbn [fst snd]. split; auto.
  - split; [discriminate|].
    destruct (find_in_paths_spec m_paths fn)
      as [(Hf & Hs & Hall)
         | (Hf & before & p & after & Hpaths & Hs & Hp & Hall)].
    + split; [intros _; split|split].
      * rewrite Hf. split; [discriminate|].
        intros Hex. apply Exists_exists in Hex.
        destruct Hex as (p & Hp & Hpe).
        rewrite Forall_forall in Hall. rewrite (Hall p Hp) in Hpe.
        discriminate.
      * rewrite Hf. discriminate.
      * intros _. exact Hs.
      * rewrite Hf. discriminate.
    + split; [intros _; split|split].
      * split; [|intros _; exact Hf].
        intros _. rewrite Hpaths. apply Exists_app. right.
        constructor. exact Hp.
      * intros _. exists before, p, after. repeat split; auto.
      * rewrite Hf. discriminate.
      * intros _. rewrite Hs. exact Hp.
Qed.

End FileRepoPaths.

Lemma registerPaths_appends_closed_paths_witness :
  registerPaths "/"%char (list_ascii_of_string "/data/") two_paths
  = two_paths ++ [list_ascii_of_string "/data/"] /\
  registerPaths "/"%char (list_ascii_of_string "/data") two_paths
  = two_paths ++ [list_ascii_of_string "/data/"].
Proof.
  split.
  - apply (proj1 (proj2 (proj2 (registerPaths_appends_closed_paths
                                  "/"%char (list_ascii_of_string "/data/")
                                  two_paths)
                               ltac:(repeat constructor)))
                 (list_ascii_of_string "/data")).
    reflexivity.
  - apply (proj2 (proj2 (proj2 (registerPaths_appends_closed_paths
                                  "/"%char (list_ascii_of_string "/data")
                                  two_paths)
                               ltac:(repeat constructor)))
                 (list_ascii_of_string "/dat") "a"%char).
    + reflexivity.
    + discriminate.
Defined.

Lemma find_first_search_path_witness :
  (is_qualified "/"%char (list_ascii_of_string "surface.xml") = true ->
   gsFileRepo_find "/"%char one_file two_paths
                   (list_ascii_of_string "surface.xml")
   = (one_file (list_ascii_of_string "surface.xml"),
      list_ascii_of_string "surface.xml")) /\
  (is_qualified "/"%char (list_ascii_of_string "surface.xml") = false ->
   (fst (gsFileRepo_find "/"%char one_file two_paths
                         (list_ascii_of_string "surface.xml")) = true <->
    Exists (fun p => one_file (p ++ list_ascii_of_string "surface.xml") = true)
           two_paths) /\
   (fst (gsFileRepo_find "/"%char one_file two_paths
                         (list_ascii_of_string "surface.xml")) = true ->
    exists before p after,
      two_paths = before ++ p :: after /\
      snd (gsFileRepo_find "/"%char one_file two_paths
                           (list_ascii_of_string "surface.xml"))
      = p ++ list_ascii_of_string "surface.xml" /\
      Forall (fun q => one_file (q ++ list_ascii_of_string "surface.xml")
                       = false) before)) /\
  (fst (gsFileRepo_find "/"%char one_file two_paths
                        (list_ascii_of_string "surface.xml")) = false ->
   snd (gsFileRepo_find "/"%char one_file two_paths
                        (list_ascii_of_string "surface.xml"))
   = list_ascii_of_string "surface.xml") /\
  (fst (gsFileRepo_find "/"%char one_file two_paths
                        (list_ascii_of_string "surface.xml")) = true ->
   one_file (snd (gsFileRepo_find "/"%char one_file two_paths
                                  (list_ascii_of_string "surface.xml")))
   = true).
Proof.
  exact (find_first_search_path "/"%char one_file two_paths
           (list_ascii_of_string "surface.xml")).
Defined.

(** ** From a level and a position to the global index and back *)

(** X19.  The function at the position [p] of the characteristic matrix of
    the level [l] has the global index [offsets[l] + p]: that index is
    valid, [levelOf] gives [l] for it, and [flatTensorIndexOf] gives the
    entry at the position [p] of the matrix of [l]. *)
Theorem global_index_of_level_and_position
        {TB HD : Type} (b : gsHTensorBasis TB HD) (l p : Z) :
  offsets_ok b ->
  0 <= l < numLevels b ->
  0 <= p < cmatrix_size b l ->
  0 <= offset_at b l + p < size b /\
  levelOf b (offset_at b l + p) = l /\
  flatTensorIndexOf b (offset_at b l + p)
  = Some (nth (Z.to_nat p) (nth (Z.to_nat l) (m_xmatrix b) []) 0).
Proof.
  intros Hok Hl Hp.
  pose proof (offset_at_succ b Hok l Hl) as Hsucc.
  assert (Hnn : 0 <= offset_at b l) by (apply offset_at_nonneg; auto; lia).
  assert (Htop : offset_at b (l + 1) <= size b)
    by (apply offset_at_le_size; auto; lia).
  assert (Hvalid : 0 <= offset_at b l + p < size b) by lia.
  assert (Hlev : l = levelOf b (offset_at b l + p)).
  { apply (levelOf_unique b Hok); [exact Hl | lia]. }
  split; [exact Hvalid|]. split; [symmetry; exact Hlev|].
  rewrite (flatTensorIndexOf_value b Hok _ Hvalid). rewrite <- Hlev.
  replace (offset_at b l + p - offset_at b l) with p by lia. reflexivity.
Qed.

Lemma global_index_of_level_and_position_witness :
  0 <= offset_at numbering_example 2 + 1 < size numbering_example /\
  levelOf numbering_example (offset_at numbering_example 2 + 1) = 2 /\
  flatTensorIndexOf numbering_example (offset_at numbering_example 2 + 1)
  = Some (nth (Z.to_nat 1)
              (nth (Z.to_nat 2) (m_xmatrix numbering_example) []) 0).
Proof.
  apply (global_index_of_level_and_position numbering_example 2 1).
  - split; [reflexivity | vm_compute; reflexivity].
  - vm_compute. split; [discriminate | reflexivity].
  - vm_compute. split; [discriminate | reflexivity].
Defined.

Lemma ctor_physical_boxes_first_failure_witness :
  (rows one_box <> Z.of_nat 1 ->
   example_ctor_physical_boxes {| ub_spans := 4; ub_degree := 1 |} 0 one_box
   = Aborted "Points in boxes need to be of dimension d.") /\
  (rows one_box = Z.of_nat 1 -> Z.rem (cols one_box) 2 <> 0 ->
   example_ctor_physical_boxes {| ub_spans := 4; ub_degree := 1 |} 0 one_box
   = Aborted "Each box needs two corners but you don't provied gsHTensorBasis constructor with them.") /\
  (rows one_box = Z.of_nat 1 -> Z.rem (cols one_box) 2 = 0 -> 0 <= 0 ->
   example_ctor_physical_boxes {| ub_spans := 4; ub_degree := 1 |} 0 one_box
   = Aborted "Invalid number of levels.").
Proof.
  exact (ctor_physical_boxes_first_failure 1
           (fun tb : uniformBSpline => Returned (initialize_class 2 1 tb))
           (fun s => Returned (update_structure s)) insert_box
           (fun t low high lvl => Z.of_nat (query3 t low high (Z.to_nat lvl)))
           {| ub_spans := 4; ub_degree := 1 |} 0 one_box).
Defined.
